(** * cuZFP block encoder (src/cuda_zfp/encode.cuh): a shallow embedding

    The fixed-rate block encoder of the CUDA back end of zfp: negabinary
    map, block-floating-point quantisation, 4-point lifting transform,
    coefficient reordering, the bit-packed [BlockWriter] and the embedded
    bit-plane coder.

    Conventions.
    - A w-bit C++ integer is a [Z]; every conversion and every operation
      that can wrap is written out with [u32], [u64], [int32] or [to_int].
    - A shift of a 64-bit word by 64 or more positions gives 0, as the
      device's shift instructions do (the count is clamped to the width).
    - [float] and [double] are the IEEE formats of [SpecFloat].
    - An array reached through a pointer is a [list] read with [!!!] and
      written with [<[i:=v]>]; the compressed stream, whose extent the
      encoder never sees, is a total map from word index to word. *)

From Stdlib Require Import ZArith Lia Bool List.
From Stdlib Require Import Floats.SpecFloat.
From stdpp Require Import base list.

Local Open Scope Z_scope.

(* ================================================================= *)
(** ** Machine integers *)

Definition u32 (x : Z) : Z := x mod 2 ^ 32.
Definition u64 (x : Z) : Z := x mod 2 ^ 64.

(** Conversion of [x] to the unsigned, resp. signed, [w]-bit type. *)
Definition to_uint (w x : Z) : Z := x mod 2 ^ w.
Definition to_int (w x : Z) : Z := (x + 2 ^ (w - 1)) mod 2 ^ w - 2 ^ (w - 1).
Definition int32 (x : Z) : Z := to_int 32 x.

(** [x << n] and [x >> n] on [unsigned long long]. *)
Definition shl64 (x n : Z) : Z := u64 (Z.shiftl x n).
Definition shr64 (x n : Z) : Z := Z.shiftr x n.

(** The two integer scalar kinds, [int] and [long long int]. *)
Inductive IntKind := I32 | I64.

Definition int_bits (k : IntKind) : Z :=
  match k with I32 => 32 | I64 => 64 end.

(** The template parameter [BlockSize]: only 4, 16 and 64 have a
    [transform] specialisation. *)
Inductive BlockSize := B4 | B16 | B64.

Definition bsize (bs : BlockSize) : nat :=
  match bs with B4 => 4%nat | B16 => 16%nat | B64 => 64%nat end.

(** [MIN] and [MAX] are the usual comparison macros of shared.h. *)
Definition MIN (x y : Z) : Z := if x <? y then x else y.
Definition MAX (x y : Z) : Z := if y <? x then x else y.

(** A counted loop [for (i = 0; i < n; i++) body]. *)
Definition for_range {A} (n : nat) (body : nat -> A -> A) (a : A) : A :=
  foldl (fun acc i => body i acc) a (seq 0 n).

(* ================================================================= *)
(** ** Negabinary map *)

Definition nbmask (k : IntKind) : Z :=
  match k with
  | I32 => 0xaaaaaaaa
  | I64 => 0xaaaaaaaaaaaaaaaa
  end.

(** [int2uint], both overloads: [((unsigned)x + mask) ^ mask]. *)
Definition int2uint (k : IntKind) (x : Z) : Z :=
  let w := int_bits k in
  Z.lxor (to_uint w (to_uint w x + nbmask k)) (nbmask k).

(** The decoder's inverse map (the decoder is not part of this file's
    source): undo the exclusive or, then the addition. *)
Definition uint2int (k : IntKind) (u : Z) : Z :=
  let w := int_bits k in
  to_int w (Z.lxor u (nbmask k) - nbmask k).

(* ================================================================= *)
(** ** Precision *)

(** [precision]: maximum number of bit planes to encode. Where
    [maxexp - minexp + 8] does not fit [int] the source overflows a
    signed integer, which leaves its result open; the wrap written here
    only makes the function total, and every result about [precision]
    is stated where the sum fits. *)
Definition precision (maxexp maxprec minexp : Z) : Z :=
  MIN maxprec (MAX 0 (int32 (int32 (maxexp - minexp) + 8))).

(* ================================================================= *)
(** ** Partial-block padding *)

Section Pad.
Context {Scalar : Type} `{!Inhabited Scalar}.
Variable zero : Scalar.

(** The element [p[i * s]], the index computed in [uint]. *)
Definition pidx (i s : Z) : nat := Z.to_nat (u32 (i * s)).

Definition pad_case0 (s : Z) (p : list Scalar) : list Scalar :=
  <[pidx 0 s := zero]> p.
Definition pad_case1 (s : Z) (p : list Scalar) : list Scalar :=
  <[pidx 1 s := p !!! pidx 0 s]> p.
Definition pad_case2 (s : Z) (p : list Scalar) : list Scalar :=
  <[pidx 2 s := p !!! pidx 1 s]> p.
Definition pad_case3 (s : Z) (p : list Scalar) : list Scalar :=
  <[pidx 3 s := p !!! pidx 0 s]> p.

(** [pad_block]: a [switch] whose cases fall through. *)
Definition pad_block (p : list Scalar) (n s : Z) : list Scalar :=
  if n =? 0 then pad_case3 s (pad_case2 s (pad_case1 s (pad_case0 s p)))
  else if n =? 1 then pad_case3 s (pad_case2 s (pad_case1 s p))
  else if n =? 2 then pad_case3 s (pad_case2 s p)
  else if n =? 3 then pad_case3 s p
  else p.
End Pad.

(* ================================================================= *)
(** ** Scalar traits and the quantiser *)

(** Modelled from the spec: the per-scalar constants of shared.h
    ([get_ebias], [get_ebits], [get_precision], [get_min_exp] and
    [zfp_traits<Scalar>::Int]), which is not among the sources.  The
    spec names them "compile-time constants per scalar kind"; the
    general results below hold for every choice. [fmt_prec] and
    [fmt_emax] fix the IEEE format of the scalar. *)
Record ScalarTraits := {
  fmt_prec : Z;
  fmt_emax : Z;
  get_ebias : Z;
  get_ebits : Z;
  get_precision : Z;
  get_min_exp : Z;
  traits_int : IntKind
}.

Definition double_traits : ScalarTraits :=
  {| fmt_prec := 53; fmt_emax := 1024; get_ebias := 1023; get_ebits := 11;
     get_precision := 64; get_min_exp := -1074; traits_int := I64 |}.

Definition float_traits : ScalarTraits :=
  {| fmt_prec := 24; fmt_emax := 128; get_ebias := 127; get_ebits := 8;
     get_precision := 32; get_min_exp := -1074; traits_int := I32 |}.

(** Modelled from the spec: [get_precision<int>] and
    [get_precision<long long int>] of shared.h, "width of the integer
    for ints". *)
Definition get_precision_int (k : IntKind) : Z := int_bits k.

#[global] Instance spec_float_inhabited : Inhabited spec_float :=
  populate (S754_zero false).

Definition fzero : spec_float := S754_zero false.

Section Quantizer.
Variable T : ScalarTraits.

Definition fabs (x : spec_float) : spec_float := SFabs x.

(** The device's [max] on floating point: a NaN argument is dropped. *)
Definition fmax (a b : spec_float) : spec_float :=
  match a, b with
  | S754_nan, _ => b
  | _, S754_nan => a
  | _, _ => if SFltb a b then b else a
  end.

(** The exponent stored by [frexp(x, &e)]: the mantissa it returns is
    in [0.5, 1). Zero gives 0; so does the unspecified value for an
    infinity or a NaN. *)
Definition frexp_exp (x : spec_float) : Z :=
  match x with
  | S754_finite _ _ _ => int32 (snd (SFfrexp (fmt_prec T) (fmt_emax T) x))
  | _ => 0
  end.

Definition exponent (x : spec_float) : Z :=
  if SFltb fzero x then
    let e := frexp_exp x in
    Z.max e (int32 (1 - get_ebias T))
  else int32 (- get_ebias T).

Definition max_exponent (bs : BlockSize) (p : list spec_float) : Z :=
  let max_val :=
    for_range (bsize bs)
      (fun i max_val => let f := fabs (p !!! i) in fmax max_val f) fzero in
  exponent max_val.

(** [quantize_factor]: [LDEXP(1.0, get_precision - 2 - exponent)]. For
    [float] the source computes the power of two in [double] and
    narrows it; a power of two rounds the same way in one step. *)
Definition quantize_factor (exponent : Z) : spec_float :=
  SFldexp (fmt_prec T) (fmt_emax T) (SFone (fmt_prec T) (fmt_emax T))
    (int32 (int32 (get_precision T - 2) - exponent)).

Definition fmul (a b : spec_float) : spec_float :=
  SFmul (fmt_prec T) (fmt_emax T) a b.

(** The cast [(Int)f]: truncation toward zero. For an infinity, a NaN
    or a value out of the range of [Int] the source's conversion has no
    defined result; the branches for them (saturation, 0) only make the
    function total. The results on [fwd_cast] below either hold for
    whatever these branches return or are stated where the value is in
    range. *)
Definition cast_to_int (k : IntKind) (f : spec_float) : Z :=
  let lo := - 2 ^ (int_bits k - 1) in
  let hi := 2 ^ (int_bits k - 1) - 1 in
  match f with
  | S754_zero _ => 0
  | S754_nan => 0
  | S754_infinity s => if s then lo else hi
  | S754_finite s m e =>
      let mag := if 0 <=? e then Z.pos m * 2 ^ e else Z.pos m / 2 ^ (- e) in
      Z.max lo (Z.min hi (if s then - mag else mag))
  end.

Definition fwd_cast (bs : BlockSize) (fblock : list spec_float) (emax : Z)
  : list Z :=
  let s := quantize_factor emax in
  map (fun i => cast_to_int (traits_int T) (fmul s (fblock !!! i)))
      (seq 0 (bsize bs)).
End Quantizer.

(* ================================================================= *)
(** ** Lifting transform *)

Section Lift.
Variable k : IntKind.

Definition wrap (x : Z) : Z := to_int (int_bits k) x.

(** The five lifting steps of [fwd_lift] on the values [x y z w]. *)
Definition fwd_lift4 (v : Z * Z * Z * Z) : Z * Z * Z * Z :=
  let '(x, y, z, w) := v in
  let x := wrap (x + w) in let x := Z.shiftr x 1 in let w := wrap (w - x) in
  let z := wrap (z + y) in let z := Z.shiftr z 1 in let y := wrap (y - z) in
  let x := wrap (x + z) in let x := Z.shiftr x 1 in let z := wrap (z - x) in
  let w := wrap (w + y) in let w := Z.shiftr w 1 in let y := wrap (y - w) in
  let w := wrap (w + Z.shiftr y 1) in let y := wrap (y - Z.shiftr w 1) in
  (x, y, z, w).

(** [fwd_lift<Int, s>(p + off)]: load with stride [s], lift, store. *)
Definition fwd_lift (s : nat) (p : list Z) (off : nat) : list Z :=
  let x := p !!! off in
  let y := p !!! (off + s)%nat in
  let z := p !!! (off + 2 * s)%nat in
  let w := p !!! (off + 3 * s)%nat in
  let '(x, y, z, w) := fwd_lift4 (x, y, z, w) in
  <[off := x]> (<[(off + s)%nat := y]>
    (<[(off + 2 * s)%nat := z]> (<[(off + 3 * s)%nat := w]> p))).

(** The inverse named by the spec: each lifting step undone, last
    step first. *)
Definition inv_lift4 (v : Z * Z * Z * Z) : Z * Z * Z * Z :=
  let '(x, y, z, w) := v in
  let y := wrap (y + Z.shiftr w 1) in let w := wrap (w - Z.shiftr y 1) in
  let y := wrap (y + w) in let w := wrap (Z.shiftl w 1) in let w := wrap (w - y) in
  let z := wrap (z + x) in let x := wrap (Z.shiftl x 1) in let x := wrap (x - z) in
  let y := wrap (y + z) in let z := wrap (Z.shiftl z 1) in let z := wrap (z - y) in
  let w := wrap (w + x) in let x := wrap (Z.shiftl x 1) in let x := wrap (x - w) in
  (x, y, z, w).

(** [transform<BlockSize>::fwd_xform]. *)
Definition fwd_xform (bs : BlockSize) (p : list Z) : list Z :=
  match bs with
  | B64 =>
      let p := for_range 4 (fun z p =>
                 for_range 4 (fun y p =>
                   fwd_lift 1 p (4 * y + 16 * z)) p) p in
      let p := for_range 4 (fun x p =>
                 for_range 4 (fun z p =>
                   fwd_lift 4 p (16 * z + 1 * x)) p) p in
      for_range 4 (fun y p =>
        for_range 4 (fun x p =>
          fwd_lift 16 p (1 * x + 4 * y)) p) p
  | B16 =>
      let p := for_range 4 (fun y p => fwd_lift 1 p (4 * y)) p in
      for_range 4 (fun x p => fwd_lift 4 p (1 * x)) p
  | B4 => fwd_lift 1 p 0
  end.

(** [fwd_order]: [ublock[i] = int2uint(iblock[perm[i]])]. The table
    [perm] of shared.h is a parameter. *)
Definition fwd_order (bs : BlockSize) (perm : list nat) (iblock : list Z)
  : list Z :=
  map (fun i => int2uint k (iblock !!! (perm !!! i))) (seq 0 (bsize bs)).
End Lift.

(* ================================================================= *)
(** ** Block writer *)

(** Modelled from the spec: [Word] of shared.h, the 64-bit unsigned
    stream cell ([atomicAdd] takes [unsigned long long]). *)
Definition wbits : Z := 64.

(** The stream as the encoder sees it: a word for every index. *)
Definition Stream := Z -> Z.

(** [atomicAdd(&m_stream[i], v)] by a single writer. *)
Definition atomicAdd (st : Stream) (i v : Z) : Stream :=
  fun j => if j =? i then u64 (st j + v) else st j.

Record BlockWriter := {
  m_word_index : Z;
  m_start_bit : Z;
  m_current_bit : Z;
  m_maxbits : Z;
  m_stream : Stream
}.

(** The constructor [BlockWriter(stream, maxbits, block_idx)]. *)
Definition new_BlockWriter (stream : Stream) (maxbits block_idx : Z)
  : BlockWriter :=
  {| m_word_index := u32 (u32 (block_idx * maxbits) / wbits);
     m_start_bit := u32 (u32 (block_idx * maxbits) mod wbits);
     m_current_bit := 0;
     m_maxbits := maxbits;
     m_stream := stream |}.

Definition write_bits (w : BlockWriter) (bits n_bits : Z) : Z * BlockWriter :=
  let seg_start := u32 (m_start_bit w + m_current_bit w) mod wbits in
  let write_index :=
    u32 (m_word_index w + u32 (m_start_bit w + m_current_bit w) / wbits) in
  let seg_end := u32 (seg_start + n_bits - 1) in
  let shift := seg_start in
  let left := shl64 (shr64 bits n_bits) n_bits in
  let b := u64 (bits - left) in
  let add := shl64 b shift in
  let st := atomicAdd (m_stream w) write_index add in
  let straddle := (seg_start <? wbits) && (wbits <=? seg_end) in
  let st :=
    if straddle then
      let rem := shr64 b (wbits - shift) in
      atomicAdd st (u32 (write_index + 1)) rem
    else st in
  (shr64 bits n_bits,
   {| m_word_index := m_word_index w;
      m_start_bit := m_start_bit w;
      m_current_bit := u32 (m_current_bit w + n_bits);
      m_maxbits := m_maxbits w;
      m_stream := st |}).

Definition write_bit (w : BlockWriter) (bit : Z) : Z * BlockWriter :=
  let seg_start := u32 (m_start_bit w + m_current_bit w) mod wbits in
  let write_index :=
    u32 (m_word_index w + u32 (m_start_bit w + m_current_bit w) / wbits) in
  let shift := seg_start in
  let add := shl64 bit shift in
  let st := atomicAdd (m_stream w) write_index add in
  (bit,
   {| m_word_index := m_word_index w;
      m_start_bit := m_start_bit w;
      m_current_bit := u32 (m_current_bit w + 1);
      m_maxbits := m_maxbits w;
      m_stream := st |}).

(* ================================================================= *)
(** ** Bit-plane encoder *)

(** The state the coding loops thread: the writer and the locals
    [bits], [x] and [n]. *)
Definition EncState : Type := BlockWriter * Z * Z * Z.

Section Encoder.
Variable bs : BlockSize.

(** Step 1: bit plane [k] of [ublock] gathered into [x]. *)
Definition bit_plane (ublock : list Z) (k : Z) : Z :=
  for_range (bsize bs)
    (fun i x =>
       u64 (x + shl64 (Z.land (Z.shiftr (ublock !!! i) k) 1) (Z.of_nat i)))
    0.

(** The inner loop of step 3,
    [for (; n < BlockSize - 1 && bits && (bits--, !write_bit(x & 1u));
          x >>= 1, n++)].
    [fuel] bounds the iterations; [n] grows with each, so
    [BlockSize] of them are never used up. *)
Fixpoint unary_inner (fuel : nat) (w : BlockWriter) (bits x n : Z)
  : EncState :=
  match fuel with
  | O => (w, bits, x, n)
  | S fuel' =>
      if (n <? u32 (Z.of_nat (bsize bs) - 1)) && negb (bits =? 0) then
        let bits := u32 (bits - 1) in
        let '(r, w) := write_bit w (u32 (Z.land x 1)) in
        if r =? 0 then
          unary_inner fuel' w bits (Z.shiftr x 1) (u32 (n + 1))
        else (w, bits, x, n)
      else (w, bits, x, n)
  end.

(** The outer loop of step 3,
    [for (; n < BlockSize && bits && (bits--, write_bit(!!x));
          x >>= 1, n++) inner]. *)
Fixpoint unary_outer (fuel : nat) (w : BlockWriter) (bits x n : Z)
  : EncState :=
  match fuel with
  | O => (w, bits, x, n)
  | S fuel' =>
      if (n <? Z.of_nat (bsize bs)) && negb (bits =? 0) then
        let bits := u32 (bits - 1) in
        let '(r, w) := write_bit w (if x =? 0 then 0 else 1) in
        if negb (r =? 0) then
          let '(w, bits, x, n) := unary_inner (bsize bs) w bits x n in
          unary_outer fuel' w bits (Z.shiftr x 1) (u32 (n + 1))
        else (w, bits, x, n)
      else (w, bits, x, n)
  end.

(** One bit plane: steps 1 to 3 for plane [k]. *)
Definition encode_plane (ublock : list Z) (k : Z)
           (w : BlockWriter) (bits n : Z) : BlockWriter * Z * Z :=
  let x := bit_plane ublock k in
  let m := Z.min n bits in
  let bits := u32 (bits - m) in
  let '(x, w) := write_bits w x m in
  let '(w, bits, _, n) := unary_outer (bsize bs) w bits x n in
  (w, bits, n).

(** The plane loop [for (k = intprec, n = 0; bits && k-- > kmin;)],
    by recursion on [k]: at [k = 0] the test [k-- > kmin] fails. *)
Fixpoint encode_planes (ublock : list Z) (kmin : Z) (k : nat)
         (w : BlockWriter) (bits n : Z) : BlockWriter * Z * Z :=
  match k with
  | O => (w, bits, n)
  | S k' =>
      if negb (bits =? 0) && (kmin <? Z.of_nat k) then
        let '(w, bits, n) := encode_plane ublock (Z.of_nat k') w bits n in
        encode_planes ublock kmin k' w bits n
      else (w, bits, n)
  end.

Definition encode_block (k : IntKind) (perm : list nat)
           (stream : BlockWriter) (maxbits maxprec : Z) (iblock : list Z)
  : BlockWriter :=
  let iblock := fwd_xform k bs iblock in
  let ublock := fwd_order k bs perm iblock in
  let intprec := u32 (8 * (int_bits k / 8)) in
  let kmin :=
    if u32 maxprec <? intprec then u32 (intprec - u32 maxprec) else 0 in
  let bits := u32 maxbits in
  fst (fst (encode_planes ublock kmin (Z.to_nat intprec) stream bits 0)).

(* --------------------------------------------------------------- *)
(** ** Block drivers *)

(** The precision the floating-point driver passes on. *)
Definition block_maxprec (T : ScalarTraits) (fblock : list spec_float) : Z :=
  precision (max_exponent T bs fblock) (get_precision T) (get_min_exp T).

(** The biased exponent [e] of the floating-point driver. *)
Definition block_e (T : ScalarTraits) (fblock : list spec_float) : Z :=
  let emax := max_exponent T bs fblock in
  if block_maxprec T fblock =? 0 then 0 else u32 (emax + get_ebias T).

(** [zfp_encode_block<Scalar, BlockSize>] for [float] and [double]. *)
Definition zfp_encode_block (T : ScalarTraits) (perm : list nat)
           (fblock : list spec_float) (maxbits block_idx : Z)
           (stream : Stream) : BlockWriter :=
  let block_writer := new_BlockWriter stream maxbits block_idx in
  let emax := max_exponent T bs fblock in
  let maxprec := block_maxprec T fblock in
  let e := block_e T fblock in
  if negb (e =? 0) then
    let ebits := u32 (get_ebits T + 1) in
    let '(_, block_writer) := write_bits block_writer (u32 (2 * e + 1)) ebits in
    let iblock := fwd_cast T bs fblock emax in
    encode_block (traits_int T) perm block_writer
      (int32 (u32 (maxbits - ebits))) maxprec iblock
  else block_writer.

(** The specialisations [zfp_encode_block<int, _>] and
    [zfp_encode_block<long long int, _>]. *)
Definition zfp_encode_block_int (k : IntKind) (perm : list nat)
           (fblock : list Z) (maxbits block_idx : Z)
           (stream : Stream) : BlockWriter :=
  let block_writer := new_BlockWriter stream maxbits block_idx in
  let intprec := get_precision_int k in
  encode_block k perm block_writer maxbits intprec fblock.
End Encoder.

(* ================================================================= *)
(** ** Observing the stream *)

(** Bit [p] of the stream, counted from bit 0 of word 0. *)
Definition bit_at (st : Stream) (p : Z) : bool :=
  Z.testbit (st (p / wbits)) (p mod wbits).

(** Global bit offset of the first bit of the writer's block. *)
Definition block_base (w : BlockWriter) : Z :=
  wbits * m_word_index w + m_start_bit w.

(** The bits a writer has produced so far, read back from the stream. *)
Definition block_output (w : BlockWriter) : list bool :=
  map (fun j => bit_at (m_stream w) (block_base w + Z.of_nat j))
      (seq 0 (Z.to_nat (m_current_bit w))).

(** The low [n] bits of [v], least significant first. *)
Definition bits_of (v : Z) (n : nat) : list bool :=
  map (fun j => Z.testbit v (Z.of_nat j)) (seq 0 n).

Definition zero_stream : Stream := fun _ => 0.

(** The bits of [st] in [base, base + len) are clear. *)
Definition slot_clear (st : Stream) (base len : Z) : Prop :=
  forall p, base <= p < base + len -> bit_at st p = false.

(** Where a writer stands, as a global bit offset. *)
Definition writer_pos (w : BlockWriter) : Z := block_base w + m_current_bit w.

(** A writer whose cursor arithmetic stays clear of [2 ^ 32]. *)
Definition writer_ok (w : BlockWriter) (n : Z) : Prop :=
  0 <= m_word_index w /\ 0 <= m_start_bit w < wbits /\
  0 <= m_current_bit w /\ writer_pos w + n < 2 ^ 32.

(** [writes st0 base L w]: writer [w] stands at [base + length L], and
    its stream is [st0] overwritten with [L] from bit [base] on. *)
Definition writes (st0 : Stream) (base : Z) (L : list bool)
           (w : BlockWriter) : Prop :=
  block_base w = base /\
  0 <= m_word_index w /\ 0 <= m_start_bit w < wbits /\
  m_current_bit w = Z.of_nat (length L) /\
  forall p, bit_at (m_stream w) p =
            if (base <=? p) && (p <? base + Z.of_nat (length L))
            then L !!! Z.to_nat (p - base)
            else bit_at st0 p.

(** [ran st0 base L bits out w' bits']: started with [L] written and a
    budget of [bits], a loop whose unbudgeted output is [out] has
    written the first [bits] bits of [out] and kept the rest of the
    budget. *)
Definition ran (st0 : Stream) (base : Z) (L : list bool) (bits : Z)
           (out : list bool) (w' : BlockWriter) (bits' : Z) : Prop :=
  writes st0 base (L ++ take (Z.to_nat bits) out) w' /\
  bits' = bits - Z.min bits (Z.of_nat (length out)).

(** Outside the slot [base, base + len) the stream of [w'] is [st0]. *)
Definition within_slot (st0 : Stream) (base len : Z) (w' : BlockWriter)
  : Prop :=
  forall p, ~ (base <= p < base + len) ->
            bit_at (m_stream w') p = bit_at st0 p.

(** The locals [(stream, bits, n)] of [encode_block] when its plane
    loop has come down to plane [stop]: the same loop with [kmin]
    raised to [stop]. At [stop = 0] this is the end of the loop. *)
Definition encode_block_at (bs : BlockSize) (k : IntKind) (perm : list nat)
           (stream : BlockWriter) (maxbits maxprec : Z) (iblock : list Z)
           (stop : Z) : BlockWriter * Z * Z :=
  let iblock := fwd_xform k bs iblock in
  let ublock := fwd_order k bs perm iblock in
  let intprec := u32 (8 * (int_bits k / 8)) in
  let kmin :=
    if u32 maxprec <? intprec then u32 (intprec - u32 maxprec) else 0 in
  let bits := u32 maxbits in
  encode_planes bs ublock (Z.max kmin stop) (Z.to_nat intprec) stream bits 0.

(** The writer of the floating-point driver once the header is out. *)
Definition header_writer (T : ScalarTraits) (bs : BlockSize)
           (fblock : list spec_float) (maxbits block_idx : Z)
           (stream : Stream) : BlockWriter :=
  snd (write_bits (new_BlockWriter stream maxbits block_idx)
                  (u32 (2 * block_e bs T fblock + 1))
                  (u32 (get_ebits T + 1))).

(* ================================================================= *)
(** ** The code without a budget

    What the coding loops emit when [bits] never runs out: the same
    tests and updates with the writer and the budget left out. The
    budgeted loops are shown below to write a prefix of it. *)

Section Emit.
Variable bs : BlockSize.

Fixpoint emit_inner (fuel : nat) (x n : Z) : list bool * Z * Z :=
  match fuel with
  | O => ([], x, n)
  | S fuel' =>
      if n <? Z.of_nat (bsize bs) - 1 then
        if Z.land x 1 =? 0 then
          let '(out, x', n') := emit_inner fuel' (Z.shiftr x 1) (n + 1) in
          (false :: out, x', n')
        else ([true], x, n)
      else ([], x, n)
  end.

Fixpoint emit_outer (fuel : nat) (x n : Z) : list bool * Z * Z :=
  match fuel with
  | O => ([], x, n)
  | S fuel' =>
      if n <? Z.of_nat (bsize bs) then
        if x =? 0 then ([false], x, n)
        else
          let '(o1, x1, n1) := emit_inner (bsize bs) x n in
          let '(o2, x2, n2) := emit_outer fuel' (Z.shiftr x1 1) (n1 + 1) in
          (true :: o1 ++ o2, x2, n2)
      else ([], x, n)
  end.

Definition emit_plane (ublock : list Z) (k n : Z) : list bool * Z :=
  let x := bit_plane bs ublock k in
  let '(o, _, n') := emit_outer (bsize bs) (Z.shiftr x n) n in
  (bits_of x (Z.to_nat n) ++ o, n').

Fixpoint emit_planes (ublock : list Z) (kmin : Z) (k : nat) (n : Z)
  : list bool :=
  match k with
  | O => []
  | S k' =>
      if kmin <? Z.of_nat k then
        let '(o, n') := emit_plane ublock (Z.of_nat k') n in
        o ++ emit_planes ublock kmin k' n'
      else []
  end.

(** The whole bit-plane code of an integer block. *)
Definition emit_block (k : IntKind) (perm : list nat) (maxprec : Z)
           (iblock : list Z) : list bool :=
  let ublock := fwd_order k bs perm (fwd_xform k bs iblock) in
  let intprec := u32 (8 * (int_bits k / 8)) in
  let kmin :=
    if u32 maxprec <? intprec then u32 (intprec - u32 maxprec) else 0 in
  emit_planes ublock kmin (Z.to_nat intprec) 0.
End Emit.

(** The four halving shifts of [fwd_lift] drop a zero bit on [v]. *)
Definition lift_exact (k : IntKind) (v : Z * Z * Z * Z) : Prop :=
  let '(x, y, z, w) := v in
  let x1 := wrap k (x + w) in
  let z1 := wrap k (z + y) in
  let x2 := Z.shiftr x1 1 in
  let z2 := Z.shiftr z1 1 in
  let w1 := wrap k (w - x2) in
  let y1 := wrap k (y - z2) in
  Z.even x1 = true /\ Z.even z1 = true /\
  Z.even (wrap k (x2 + z2)) = true /\ Z.even (wrap k (w1 + y1)) = true.

(** [x] is a value of the signed integer type [k]. *)
Definition in_range (k : IntKind) (x : Z) : Prop :=
  - 2 ^ (int_bits k - 1) <= x < 2 ^ (int_bits k - 1).

(** An all-zero floating-point block, [+0.0] or [-0.0] throughout. *)
Definition all_zero (fblock : list spec_float) : Prop :=
  Forall (fun f => exists s, f = S754_zero s) fblock.

(** The double-precision value 1.0. *)
Definition one_double : spec_float := S754_finite false 4503599627370496 (-52).

(** Modelled from the spec: the table [perm] of shared.h for
    [BlockSize = 4], "a fixed total ordering by increasing distance from
    the DC corner": in one dimension, the identity. *)
Definition perm_1 : list nat := [0; 1; 2; 3]%nat.

(** The transform over any coefficient type and lifting step: the
    shape of [fwd_lift] and [fwd_xform] with the arithmetic left open.
    It is used to follow a block through the transform by the kind of
    its entries. *)
Section GenericTransform.
Context {A : Type} `{!Inhabited A}.
Variable lift4 : A * A * A * A -> A * A * A * A.

Definition lift_gen (s : nat) (p : list A) (off : nat) : list A :=
  let x := p !!! off in
  let y := p !!! (off + s)%nat in
  let z := p !!! (off + 2 * s)%nat in
  let w := p !!! (off + 3 * s)%nat in
  let '(x, y, z, w) := lift4 (x, y, z, w) in
  <[off := x]> (<[(off + s)%nat := y]>
    (<[(off + 2 * s)%nat := z]> (<[(off + 3 * s)%nat := w]> p))).

Definition xform_gen (bs : BlockSize) (p : list A) : list A :=
  match bs with
  | B64 =>
      let p := for_range 4 (fun z p =>
                 for_range 4 (fun y p =>
                   lift_gen 1 p (4 * y + 16 * z)) p) p in
      let p := for_range 4 (fun x p =>
                 for_range 4 (fun z p =>
                   lift_gen 4 p (16 * z + 1 * x)) p) p in
      for_range 4 (fun y p =>
        for_range 4 (fun x p =>
          lift_gen 16 p (1 * x + 4 * y)) p) p
  | B16 =>
      let p := for_range 4 (fun y p => lift_gen 1 p (4 * y)) p in
      for_range 4 (fun x p => lift_gen 4 p (1 * x)) p
  | B4 => lift_gen 1 p 0
  end.
End GenericTransform.

(** The kind of a coefficient of a block built from one constant: the
    constant, zero, or anything. *)
Inductive Kind := KConst | KZero | KAny.

#[global] Instance Kind_inhabited : Inhabited Kind := populate KAny.

Definition kind_lift4 (v : Kind * Kind * Kind * Kind)
  : Kind * Kind * Kind * Kind :=
  match v with
  | (KConst, KConst, KConst, KConst) => (KConst, KZero, KZero, KZero)
  | (KZero, KZero, KZero, KZero) => (KZero, KZero, KZero, KZero)
  | _ => (KAny, KAny, KAny, KAny)
  end.

(** [has_kind c a x]: the value [x] is of kind [a] for the constant [c]. *)
Definition has_kind (c : Z) (a : Kind) (x : Z) : Prop :=
  match a with
  | KConst => x = c
  | KZero => x = 0
  | KAny => True
  end.

(* ================================================================= *)
(** ** Reading the value of the results *)

(** The value of the low [w] binary digits of [u] read in base -2,
    digit [i] weighing [(-2) ^ i]. *)
Fixpoint nb_value (w : nat) (u : Z) : Z :=
  match w with
  | O => 0
  | S w' => Z.b2z (Z.odd u) - 2 * nb_value w' (Z.div2 u)
  end.

(** The [w]-bit masks [...1010] and [...0101]. *)
Fixpoint alt_masks (w : nat) : Z * Z :=
  match w with
  | O => (0, 0)
  | S w' => let '(a, b) := alt_masks w' in (2 * b, 2 * a + 1)
  end.

(** A zero or a finite number of the format of [T], no infinity or NaN. *)
Definition is_finite (T : ScalarTraits) (f : spec_float) : bool :=
  match f with
  | S754_zero _ => true
  | S754_finite _ _ _ => valid_binary (fmt_prec T) (fmt_emax T) f
  | _ => false
  end.

Definition finite_block (T : ScalarTraits) (fblock : list spec_float) : Prop :=
  Forall (fun f => is_finite T f = true) fblock.

(** Traits whose constants stay clear of [int] overflow and for which
    every positive number keeps a bit plane: the case for the IEEE
    formats. *)
Definition traits_ok (T : ScalarTraits) : Prop :=
  0 < fmt_prec T < 2 ^ 29 /\ 0 < fmt_emax T < 2 ^ 29 /\
  0 <= get_ebias T < 2 ^ 29 /\ 1 - get_ebias T <= fmt_emax T /\
  0 < get_precision T /\
  - 2 ^ 29 < get_min_exp T <= 8 - get_ebias T.

(** A positive finite number of the format of [T]. *)
Definition pos_finite (T : ScalarTraits) (v : spec_float) : Prop :=
  exists m e, v = S754_finite false m e /\
              valid_binary (fmt_prec T) (fmt_emax T) v = true.

(** A zero of either sign. *)
Definition is_zero (f : spec_float) : Prop := exists s, f = S754_zero s.

(** The five lifting steps of [fwd_lift] in unbounded integers: what
    the steps compute when no addition or subtraction overflows [Int]. *)
Definition lift4_exact (v : Z * Z * Z * Z) : Z * Z * Z * Z :=
  let '(x, y, z, w) := v in
  let x := x + w in let x := Z.shiftr x 1 in let w := w - x in
  let z := z + y in let z := Z.shiftr z 1 in let y := y - z in
  let x := x + z in let x := Z.shiftr x 1 in let z := z - x in
  let w := w + y in let w := Z.shiftr w 1 in let y := y - w in
  let w := w + Z.shiftr y 1 in let y := y - Z.shiftr w 1 in
  (x, y, z, w).

(** A value with two bits of headroom in the integer type [k]: what
    quantisation by [2 ^ (precision - 2 - emax)] leaves. *)
Definition headroom (k : IntKind) (x : Z) : Prop :=
  Z.abs x < 2 ^ (int_bits k - 2).

(** A finite number below [2 ^ N] in absolute value. *)
Definition float_below (N : Z) (f : spec_float) : Prop :=
  match f with
  | S754_zero _ => True
  | S754_finite _ m e => Z.pos m < 2 ^ (N - e)
  | _ => False
  end.

(** The constants of a binary floating-point format with its integer
    type: the case for [float] with [int] and [double] with
    [long long]. *)
Definition ieee_like (T : ScalarTraits) : Prop :=
  1 < fmt_prec T /\ 5 <= fmt_emax T /\
  4 <= get_precision T <= fmt_emax T /\
  get_precision T = int_bits (traits_int T).

(** The exponent [E] of [frexp] for a finite number: [|f| < 2 ^ E]. *)
Definition float_top (f : spec_float) : Z :=
  match f with
  | S754_finite _ m e => Z.pos (digits2_pos m) + e
  | _ => 0
  end.

(** [f], zero or positive, is no larger than the positive [r], by the
    exponent of [frexp]. *)
Definition dominated (T : ScalarTraits) (r f : spec_float) : Prop :=
  f = fzero \/ (pos_finite T r /\ float_top f <= float_top r).

(** The integer part of [f * 2 ^ q], rounded toward zero, for a finite
    [f]. *)
Definition scaled_trunc (q : Z) (f : spec_float) : Z :=
  match f with
  | S754_finite s m e =>
      let mag := if 0 <=? e + q then Z.pos m * 2 ^ (e + q)
                 else Z.pos m / 2 ^ (- (e + q)) in
      if s then - mag else mag
  | _ => 0
  end.

(* ================================================================= *)
(** * Results *)

(** ** Machine integers *)

Lemma pow2_32 : 2 ^ 32 = 4294967296.
Proof. reflexivity. Qed.

Lemma pow2_64 : 2 ^ 64 = 18446744073709551616.
Proof. reflexivity. Qed.

Lemma u32_small x : 0 <= x < 2 ^ 32 -> u32 x = x.
Proof. intros H. unfold u32. now apply Z.mod_small. Qed.

Lemma u64_small x : 0 <= x < 2 ^ 64 -> u64 x = x.
Proof. intros H. unfold u64. now apply Z.mod_small. Qed.

Lemma u32_range x : 0 <= u32 x < 2 ^ 32.
Proof. unfold u32. apply Z.mod_pos_bound. reflexivity. Qed.

Lemma u64_range x : 0 <= u64 x < 2 ^ 64.
Proof. unfold u64. apply Z.mod_pos_bound. reflexivity. Qed.

Lemma to_int_range w x :
  0 < w -> - 2 ^ (w - 1) <= to_int w x < 2 ^ (w - 1).
Proof.
  intros Hw. unfold to_int.
  assert (E : 2 ^ w = 2 * 2 ^ (w - 1)).
  { rewrite <- Z.pow_succ_r by lia. f_equal. lia. }
  pose proof (Z.mod_pos_bound (x + 2 ^ (w - 1)) (2 ^ w)) as B.
  assert (0 < 2 ^ w) by (apply Z.pow_pos_nonneg; lia).
  specialize (B H). lia.
Qed.

Lemma to_int_small w x :
  0 < w -> - 2 ^ (w - 1) <= x < 2 ^ (w - 1) -> to_int w x = x.
Proof.
  intros Hw Hx. unfold to_int.
  assert (E : 2 ^ w = 2 * 2 ^ (w - 1)).
  { rewrite <- Z.pow_succ_r by lia. f_equal. lia. }
  rewrite Z.mod_small by lia. lia.
Qed.

(** [to_int w] only depends on its argument modulo [2 ^ w]. *)
Lemma to_int_congr w a b :
  0 < w -> (a - b) mod 2 ^ w = 0 -> to_int w a = to_int w b.
Proof.
  intros Hw H. unfold to_int. f_equal.
  assert (0 < 2 ^ w) by (apply Z.pow_pos_nonneg; lia).
  apply Z.mod_divide in H; [|lia]. destruct H as [q Hq].
  replace (a + 2 ^ (w - 1)) with (b + 2 ^ (w - 1) + q * 2 ^ w) by lia.
  apply Z_mod_plus_full.
Qed.

Lemma to_int_mod w x : 0 < w -> (to_int w x - x) mod 2 ^ w = 0.
Proof.
  intros Hw. unfold to_int.
  assert (0 < 2 ^ w) by (apply Z.pow_pos_nonneg; lia).
  apply Z.mod_divide; [lia|].
  exists (- ((x + 2 ^ (w - 1)) / 2 ^ w)).
  pose proof (Z.div_mod (x + 2 ^ (w - 1)) (2 ^ w)). lia.
Qed.

Lemma int32_small x : - 2 ^ 31 <= x < 2 ^ 31 -> int32 x = x.
Proof. intros H. unfold int32. apply to_int_small; [lia|exact H]. Qed.

Lemma u32_int32 x : u32 (int32 x) = u32 x.
Proof.
  unfold u32, int32, to_int. change (32 - 1) with 31.
  pose proof (Z.div_mod (x + 2 ^ 31) (2 ^ 32) ltac:(lia)) as E.
  replace ((x + 2 ^ 31) mod 2 ^ 32 - 2 ^ 31)
    with (x + (- ((x + 2 ^ 31) / 2 ^ 32)) * 2 ^ 32) by lia.
  apply Z_mod_plus_full.
Qed.

Lemma int_bits_pos k : 0 < int_bits k.
Proof. destruct k; reflexivity. Qed.

Lemma MIN_min x y : MIN x y = Z.min x y.
Proof. unfold MIN. destruct (Z.ltb_spec x y); lia. Qed.

Lemma MAX_max x y : MAX x y = Z.max x y.
Proof. unfold MAX. destruct (Z.ltb_spec y x); lia. Qed.

(* ================================================================= *)
(** ** Negabinary map *)

Lemma int2uint_range k x : 0 <= int2uint k x < 2 ^ int_bits k.
Proof.
  unfold int2uint, to_uint.
  set (a := (x mod 2 ^ int_bits k + nbmask k) mod 2 ^ int_bits k).
  assert (Ha : 0 <= a < 2 ^ int_bits k).
  { apply Z.mod_pos_bound. destruct k; reflexivity. }
  assert (Hm : 0 <= nbmask k < 2 ^ int_bits k) by (destruct k; cbn; lia).
  split.
  - apply Z.lxor_nonneg. lia.
  - destruct (Z.eq_dec (Z.lxor a (nbmask k)) 0) as [-> | Hne]; [lia|].
    apply Z.log2_lt_pow2.
    + assert (0 <= Z.lxor a (nbmask k)) by (apply Z.lxor_nonneg; lia). lia.
    + eapply Z.le_lt_trans; [apply Z.log2_lxor; lia|].
      apply Z.max_lub_lt.
      * destruct (Z.eq_dec a 0) as [->|]; [destruct k; reflexivity|].
        apply Z.log2_lt_pow2; lia.
      * destruct k; reflexivity.
Qed.

(** C6, amended. [int2uint] is undone by [uint2int], which takes the
    exclusive or first and then subtracts the mask:
    [uint2int (int2uint x) = x] for every [x] of the signed type, at
    both widths. *)
Theorem uint2int_int2uint (k : IntKind) (x : Z) :
  in_range k x -> uint2int k (int2uint k x) = x.
Proof.
  unfold in_range, uint2int, int2uint, to_uint. intros Hx.
  rewrite Z.lxor_assoc, Z.lxor_nilpotent, Z.lxor_0_r.
  rewrite <- (to_int_small (int_bits k) x (int_bits_pos k) Hx) at 2.
  apply to_int_congr; [apply int_bits_pos|].
  assert (P : 0 < 2 ^ int_bits k) by (destruct k; reflexivity).
  apply Z.mod_divide; [lia|].
  pose proof (Z.div_mod x (2 ^ int_bits k) ltac:(lia)) as E1.
  pose proof (Z.div_mod (x mod 2 ^ int_bits k + nbmask k) (2 ^ int_bits k)
                ltac:(lia)) as E2.
  exists (- (x / 2 ^ int_bits k)
          - (x mod 2 ^ int_bits k + nbmask k) / 2 ^ int_bits k).
  lia.
Qed.

Lemma uint2int_int2uint_witness : uint2int I32 (int2uint I32 (-1)) = -1.
Proof. apply uint2int_int2uint. unfold in_range. cbn. lia. Defined.

(** C6 as stated fails: [(x + M) XOR M] applied twice to [-1] gives 7
    (the first application gives 3), at 32 and at 64 bits; only values
    such as 0 and 1 come back. *)
Lemma int2uint_twice_counterexample :
  int2uint I32 (-1) = 3 /\
  to_int 32 (int2uint I32 (int2uint I32 (-1))) = 7 /\
  to_int 64 (int2uint I64 (int2uint I64 (-1))) = 7 /\
  ~ (forall x, in_range I32 x ->
               to_int 32 (int2uint I32 (int2uint I32 x)) = x).
Proof.
  repeat split; try reflexivity.
  intros H. specialize (H (-1)).
  assert (R : in_range I32 (-1)) by (unfold in_range; cbn; lia).
  specialize (H R). vm_compute in H. discriminate H.
Qed.

(* ================================================================= *)
(** ** Precision *)

Lemma precision_spec maxexp maxprec minexp :
  - 2 ^ 31 <= maxexp - minexp < 2 ^ 31 - 8 ->
  precision maxexp maxprec minexp
  = Z.min maxprec (Z.max 0 (maxexp - minexp + 8)).
Proof.
  intros H. unfold precision.
  rewrite MIN_min, MAX_max.
  rewrite (int32_small (maxexp - minexp)) by lia.
  rewrite int32_small by lia. reflexivity.
Qed.

(** The precision the floating-point driver computes, whatever the
    block size, provided the [int] arithmetic does not overflow. *)
Lemma block_maxprec_eq (bs : BlockSize) (T : ScalarTraits)
      (fblock : list spec_float) :
  let emax := max_exponent T bs fblock in
  - 2 ^ 31 <= emax - get_min_exp T < 2 ^ 31 - 8 ->
  block_maxprec bs T fblock
  = Z.min (get_precision T) (Z.max 0 (emax - get_min_exp T + 8)).
Proof.
  intros emax H. unfold block_maxprec. fold emax.
  now apply precision_spec.
Qed.

(* ================================================================= *)
(** ** Lifting transform *)

Section LiftFacts.
Variable k : IntKind.

Lemma wrap_range x : in_range k (wrap k x).
Proof. apply to_int_range, int_bits_pos. Qed.

Lemma wrap_small x : in_range k x -> wrap k x = x.
Proof. apply to_int_small, int_bits_pos. Qed.

Lemma wrap_congr a b :
  (exists q, a - b = q * 2 ^ int_bits k) -> wrap k a = wrap k b.
Proof.
  intros [q Hq]. apply to_int_congr; [apply int_bits_pos|].
  rewrite Hq. apply Z_mod_mult.
Qed.

Lemma wrap_quot x : exists q, wrap k x = x + q * 2 ^ int_bits k.
Proof.
  pose proof (to_int_mod (int_bits k) x (int_bits_pos k)) as H.
  apply Z.mod_divide in H; [|destruct k; discriminate].
  destruct H as [q Hq]. exists q. unfold wrap. lia.
Qed.

(** Adding back what was subtracted, modulo the width. *)
Lemma wrap_sub_add b c : in_range k b -> wrap k (wrap k (b - c) + c) = b.
Proof.
  intros Hb. rewrite <- (wrap_small b Hb) at 2.
  destruct (wrap_quot (b - c)) as [q Hq].
  apply wrap_congr. exists q. lia.
Qed.

Lemma wrap_add_sub a c : in_range k a -> wrap k (wrap k (a + c) - c) = a.
Proof.
  intros Ha. rewrite <- (wrap_small a Ha) at 2.
  destruct (wrap_quot (a + c)) as [q Hq].
  apply wrap_congr. exists q. lia.
Qed.

Lemma shiftr1_range s : in_range k s -> in_range k (Z.shiftr s 1).
Proof.
  unfold in_range. intros H.
  rewrite Z.shiftr_div_pow2 by lia. change (2 ^ 1) with 2.
  assert (0 < 2 ^ (int_bits k - 1)) by (destruct k; reflexivity).
  split.
  - apply Z.div_le_lower_bound; lia.
  - apply Z.div_lt_upper_bound; lia.
Qed.

(** Doubling a halved even value loses nothing. *)
Lemma shl_shr_even s :
  in_range k s -> Z.even s = true ->
  wrap k (Z.shiftl (Z.shiftr s 1) 1) = s.
Proof.
  intros Hs He.
  rewrite Z.shiftr_div_pow2, Z.shiftl_mul_pow2 by lia.
  change (2 ^ 1) with 2.
  apply Zeven_bool_iff, Zeven_div2 in He.
  rewrite Z.div2_div in He.
  replace (s / 2 * 2) with s by lia.
  now apply wrap_small.
Qed.

(** One halving step [a += b; a >>= 1; b -= a] and its inverse
    [b += a; a <<= 1; a -= b]. *)
Lemma half_step_inv a b :
  in_range k a -> in_range k b -> Z.even (wrap k (a + b)) = true ->
  let a' := Z.shiftr (wrap k (a + b)) 1 in
  let b' := wrap k (b - a') in
  wrap k (b' + a') = b /\
  wrap k (wrap k (Z.shiftl a' 1) - b) = a.
Proof.
  intros Ha Hb He a' b'. split.
  - apply wrap_sub_add, Hb.
  - unfold a'. rewrite shl_shr_even by (auto using wrap_range).
    apply wrap_add_sub, Ha.
Qed.

(** C5, amended. On the 4-vectors where each of the four halving
    shifts drops a zero bit, the inverse lift (each step undone, last
    step first) restores what the forward lift was given. *)
Theorem inv_lift_fwd_lift (v : Z * Z * Z * Z) :
  (let '(x, y, z, w) := v in
   in_range k x /\ in_range k y /\ in_range k z /\ in_range k w) ->
  lift_exact k v ->
  inv_lift4 k (fwd_lift4 k v) = v.
Proof.
  destruct v as [[[x y] z] w].
  intros (Rx & Ry & Rz & Rw) (E1 & E2 & E3 & E4).
  pose (x1 := wrap k (x + w)). pose (x2 := Z.shiftr x1 1).
  pose (w1 := wrap k (w - x2)).
  pose (z1 := wrap k (z + y)). pose (z2 := Z.shiftr z1 1).
  pose (y1 := wrap k (y - z2)).
  pose (x3 := wrap k (x2 + z2)). pose (x4 := Z.shiftr x3 1).
  pose (z3 := wrap k (z2 - x4)).
  pose (w2 := wrap k (w1 + y1)). pose (w3 := Z.shiftr w2 1).
  pose (y2 := wrap k (y1 - w3)).
  pose (w4 := wrap k (w3 + Z.shiftr y2 1)).
  pose (y3 := wrap k (y2 - Z.shiftr w4 1)).
  change (fwd_lift4 k (x, y, z, w)) with (x4, y3, z3, w4).
  assert (Rx2 : in_range k x2) by apply shiftr1_range, wrap_range.
  assert (Rz2 : in_range k z2) by apply shiftr1_range, wrap_range.
  assert (Rw1 : in_range k w1) by apply wrap_range.
  assert (Ry1 : in_range k y1) by apply wrap_range.
  assert (Rw3 : in_range k w3) by apply shiftr1_range, wrap_range.
  assert (Ry2 : in_range k y2) by apply wrap_range.
  assert (Hy2 : wrap k (y3 + Z.shiftr w4 1) = y2)
    by (apply wrap_sub_add, Ry2).
  assert (Hw3 : wrap k (w4 - Z.shiftr y2 1) = w3)
    by (apply wrap_add_sub, Rw3).
  destruct (half_step_inv w1 y1 Rw1 Ry1 E4) as [Hy1 Hw1].
  destruct (half_step_inv x2 z2 Rx2 Rz2 E3) as [Hz2 Hx2].
  destruct (half_step_inv z y Rz Ry E2) as [Hy Hz].
  destruct (half_step_inv x w Rx Rw E1) as [Hw Hx].
  unfold inv_lift4.
  rewrite Hy2, Hw3.
  fold w2 w3 y2 in Hy1, Hw1. rewrite Hy1, Hw1.
  fold x3 x4 z3 in Hz2, Hx2. rewrite Hz2, Hx2.
  fold z1 z2 y1 in Hy, Hz. rewrite Hy, Hz.
  fold x1 x2 w1 in Hw, Hx. rewrite Hw, Hx.
  reflexivity.
Qed.
End LiftFacts.

Lemma inv_lift_fwd_lift_witness :
  inv_lift4 I32 (fwd_lift4 I32 (4, 8, 12, 16)) = (4, 8, 12, 16).
Proof.
  apply (inv_lift_fwd_lift I32 (4, 8, 12, 16)).
  - unfold in_range. cbn. lia.
  - unfold lift_exact. vm_compute. tauto.
Defined.

(** C5 as stated fails: the forward lift sends (1, 0, 0, 0) and
    (0, 0, 0, 0) to the same vector, so no inverse exists, and the
    step-by-step inverse returns (0, 0, 0, 0) for both. *)
Lemma fwd_lift_counterexample :
  fwd_lift4 I32 (1, 0, 0, 0) = fwd_lift4 I32 (0, 0, 0, 0) /\
  inv_lift4 I32 (fwd_lift4 I32 (1, 0, 0, 0)) <> (1, 0, 0, 0) /\
  ~ (exists inv, forall v, inv (fwd_lift4 I32 v) = v).
Proof.
  split; [reflexivity|]. split; [discriminate|].
  intros [inv H].
  pose proof (H (1, 0, 0, 0)) as H1. pose proof (H (0, 0, 0, 0)) as H0.
  change (fwd_lift4 I32 (1, 0, 0, 0)) with (fwd_lift4 I32 (0, 0, 0, 0)) in H1.
  rewrite H0 in H1. discriminate H1.
Qed.

(* ================================================================= *)
(** ** Partial-block padding *)

Section PadFacts.
Context {Scalar : Type} `{!Inhabited Scalar}.
Variable zero : Scalar.





End PadFacts.


(* ================================================================= *)
(** ** Block writer: what one call does to the stream *)

(** The value [b] that [write_bits] merges into the stream: the low
    [n_bits] bits of [bits]. *)
Lemma low_bits v n :
  0 <= n -> 0 <= v < 2 ^ 64 ->
  u64 (v - shl64 (shr64 v n) n) = v mod 2 ^ n.
Proof.
  intros Hn Hv. unfold shl64, shr64.
  rewrite Z.shiftr_div_pow2, Z.shiftl_mul_pow2 by lia.
  assert (P : 0 < 2 ^ n) by (apply Z.pow_pos_nonneg; lia).
  pose proof (Z.div_mod v (2 ^ n) ltac:(lia)) as E.
  pose proof (Z.mod_pos_bound v (2 ^ n) P) as B.
  assert (Q : 0 <= v / 2 ^ n) by (apply Z.div_pos; lia).
  assert (D : 0 <= v / 2 ^ n * 2 ^ n <= v) by nia.
  rewrite (u64_small (v / 2 ^ n * 2 ^ n)) by lia.
  rewrite u64_small by lia. lia.
Qed.

Lemma testbit_low v n t :
  0 <= n -> Z.testbit (v mod 2 ^ n) t = (t <? n) && Z.testbit v t.
Proof.
  intros Hn. destruct (Z.ltb_spec t n).
  - destruct (Z.lt_ge_cases t 0).
    + now rewrite !Z.testbit_neg_r.
    + now rewrite Z.mod_pow2_bits_low.
  - now rewrite Z.mod_pow2_bits_high.
Qed.

Lemma testbit_u64 x j : 0 <= j < 64 -> Z.testbit (u64 x) j = Z.testbit x j.
Proof. intros H. unfold u64. apply Z.mod_pow2_bits_low. lia. Qed.

Lemma testbit_shl64 b sh t :
  0 <= sh -> 0 <= t ->
  Z.testbit (shl64 b sh) t = (t <? 64) && Z.testbit b (t - sh).
Proof.
  intros Hs Ht. unfold shl64, u64.
  rewrite testbit_low by lia. now rewrite Z.shiftl_spec.
Qed.

(** Adding a word whose set bits fall on clear bits is a bitwise or. *)
Lemma testbit_add_disjoint a c j :
  (forall t, 0 <= t -> Z.testbit c t = true -> Z.testbit a t = false) ->
  0 <= j < 64 ->
  Z.testbit (u64 (a + c)) j = Z.testbit a j || Z.testbit c j.
Proof.
  intros D Hj. rewrite testbit_u64 by assumption.
  assert (L : Z.land a c = 0).
  { apply Z.bits_inj'. intros t Ht.
    rewrite Z.land_spec, Z.bits_0.
    destruct (Z.testbit c t) eqn:Ec.
    - now rewrite (D t Ht Ec).
    - apply andb_false_r. }
  rewrite (Z.add_nocarry_lxor a c L), Z.lxor_spec.
  destruct (Z.testbit c j) eqn:Ec.
  - rewrite (D j ltac:(lia) Ec). reflexivity.
  - now destruct (Z.testbit a j).
Qed.

Lemma bit_at_word (st : Stream) W t :
  0 <= t < 64 -> bit_at st (64 * W + t) = Z.testbit (st W) t.
Proof.
  intros Ht. unfold bit_at, wbits.
  replace (64 * W + t) with (t + W * 64) by lia.
  rewrite Z_div_plus, Z_mod_plus by lia.
  rewrite Z.div_small, Z.mod_small by lia.
  reflexivity.
Qed.

Lemma bit_at_atomicAdd st i v p :
  bit_at (atomicAdd st i v) p =
  if p / 64 =? i then Z.testbit (u64 (st i + v)) (p mod 64) else bit_at st p.
Proof.
  unfold bit_at, atomicAdd, wbits.
  destruct (Z.eqb_spec (p / 64) i) as [-> | ?]; reflexivity.
Qed.

Section WriteBits.
Variables (w : BlockWriter) (v n : Z).
Hypothesis Hok : writer_ok w n.
Hypothesis Hn : 0 <= n <= 64.
Hypothesis Hv : 0 <= v < 2 ^ 64.

Let q := m_start_bit w + m_current_bit w.
Let W := m_word_index w + q / 64.
Let sh := q mod 64.

Local Lemma q_facts :
  u32 q = q /\ 0 <= sh < 64 /\ 0 <= W /\ u32 W = W /\
  u32 (W + 1) = W + 1 /\ writer_pos w = 64 * W + sh.
Proof.
  destruct Hok as (Hwi & Hsb & Hcb & Hpos).
  unfold writer_pos, block_base, wbits in *.
  assert (Hq : 0 <= q) by (unfold q; lia).
  pose proof (Z.div_mod q 64 ltac:(lia)) as E.
  pose proof (Z.mod_pos_bound q 64 ltac:(lia)) as B.
  assert (0 <= q / 64) by (apply Z.div_pos; lia).
  fold sh in E, B. rewrite pow2_32 in *.
  repeat split; try (unfold W; lia);
    try (apply u32_small; rewrite ?pow2_32); unfold W, q in *; lia.
Qed.

(** The cursor after the call. *)
Lemma write_bits_cursor :
  let w' := snd (write_bits w v n) in
  m_word_index w' = m_word_index w /\ m_start_bit w' = m_start_bit w /\
  m_current_bit w' = m_current_bit w + n /\ m_maxbits w' = m_maxbits w.
Proof.
  cbn. repeat split.
  destruct Hok as (Hwi & Hsb & Hcb & Hpos).
  unfold writer_pos, block_base, wbits in *.
  apply u32_small. lia.
Qed.

(** The stream after the call, bit by bit: the [n] bits from the
    cursor on receive the low bits of [v], provided they were clear;
    every other bit of the stream is as before. *)
Lemma write_bits_bit_at :
  slot_clear (m_stream w) (writer_pos w) n ->
  forall p,
    bit_at (m_stream (snd (write_bits w v n))) p =
    if (writer_pos w <=? p) && (p <? writer_pos w + n)
    then Z.testbit v (p - writer_pos w)
    else bit_at (m_stream w) p.
Proof.
  intros Hclear p.
  destruct q_facts as (Eq & Bsh & HW & EW & EW1 & Epos).
  unfold write_bits. cbn [snd m_stream]. unfold wbits.
  fold q. rewrite Eq. fold sh. fold W. rewrite EW, EW1.
  rewrite (low_bits v n) by lia.
  set (b := v mod 2 ^ n). set (st := m_stream w).
  rewrite Epos.
  pose proof (Z.div_mod p 64 ltac:(lia)) as Ep.
  pose proof (Z.mod_pos_bound p 64 ltac:(lia)) as Bp.
  set (i := p / 64) in *. set (j := p mod 64) in *.
  (* bits of the two merged words *)
  assert (Clear : forall t, 0 <= t < 64 ->
            64 * W + sh <= 64 * W + t < 64 * W + sh + n ->
            Z.testbit (st W) t = false).
  { intros t Ht Hr. rewrite <- bit_at_word by assumption.
    apply Hclear. rewrite Epos. lia. }
  assert (Clear1 : forall t, 0 <= t < 64 ->
            64 * W + sh <= 64 * (W + 1) + t < 64 * W + sh + n ->
            Z.testbit (st (W + 1)) t = false).
  { intros t Ht Hr. rewrite <- bit_at_word by assumption.
    apply Hclear. rewrite Epos. lia. }
  assert (Lo : forall t, 0 <= t < 64 ->
            Z.testbit (u64 (st W + shl64 b sh)) t
            = if (sh <=? t) && (t <? sh + n)
              then Z.testbit v (t - sh) else Z.testbit (st W) t).
  { intros t Ht. rewrite testbit_add_disjoint; [|
      intros t' Ht'; rewrite testbit_shl64 by lia; unfold b;
      rewrite testbit_low by lia; intros Hb;
      apply andb_prop in Hb as [H1 Hb]; apply andb_prop in Hb as [H2 Hb];
      apply Z.ltb_lt in H1, H2;
      destruct (Z.lt_ge_cases (t' - sh) 0);
      [now rewrite Z.testbit_neg_r in Hb|apply Clear; lia] | lia].
    rewrite testbit_shl64 by lia. unfold b. rewrite testbit_low by lia.
    destruct (Z.leb_spec sh t), (Z.ltb_spec t (sh + n)),
             (Z.ltb_spec t 64), (Z.ltb_spec (t - sh) n); cbn; try lia.
    all: rewrite ?Clear by lia; rewrite ?orb_false_r; try reflexivity.
    all: rewrite (Z.testbit_neg_r v) by lia; apply orb_false_r. }
  assert (Hi : forall t, 0 <= t < 64 ->
            Z.testbit (u64 (st (W + 1) + shr64 b (64 - sh))) t
            = if t <? sh + n - 64
              then Z.testbit v (t + 64 - sh) else Z.testbit (st (W + 1)) t).
  { intros t Ht. unfold shr64.
    rewrite testbit_add_disjoint; [|
      intros t' Ht'; rewrite Z.shiftr_spec by lia; unfold b;
      rewrite testbit_low by lia; intros Hb;
      apply andb_prop in Hb as [H1 Hb]; apply Z.ltb_lt in H1;
      destruct (Z.lt_ge_cases t' 64);
      [apply Clear1; lia|lia] | lia].
    rewrite Z.shiftr_spec by lia. unfold b. rewrite testbit_low by lia.
    destruct (Z.ltb_spec t (sh + n - 64)),
             (Z.ltb_spec (t + (64 - sh)) n); cbn; try lia.
    all: rewrite ?Clear1 by lia; rewrite ?orb_false_r; try reflexivity.
    all: cbn; f_equal; lia. }
  (* the two stores *)
  assert (St1 : bit_at (atomicAdd st W (shl64 b sh)) p =
                if i =? W
                then (if (sh <=? j) && (j <? sh + n)
                      then Z.testbit v (j - sh) else Z.testbit (st W) j)
                else bit_at st p).
  { rewrite bit_at_atomicAdd. fold i j.
    destruct (Z.eqb_spec i W); [apply Lo; lia|reflexivity]. }
  assert (Bst : bit_at st p = Z.testbit (st i) j) by reflexivity.
  destruct ((sh <? 64) && (64 <=? u32 (sh + n - 1))) eqn:Estr.
  - (* the second store happens *)
    rewrite bit_at_atomicAdd. fold i j.
    assert (A1 : atomicAdd st W (shl64 b sh) (W + 1) = st (W + 1)).
    { unfold atomicAdd. destruct (Z.eqb_spec (W + 1) W); [lia|reflexivity]. }
    rewrite A1.
    destruct (Z.eqb_spec i (W + 1)) as [Ei | Ei].
    + rewrite Hi by lia. rewrite Bst, Ei.
      destruct (Z.ltb_spec j (sh + n - 64)),
               (Z.leb_spec (64 * W + sh) p),
               (Z.ltb_spec p (64 * W + sh + n)); cbn; try lia;
        try reflexivity.
      f_equal. lia.
    + rewrite St1.
      destruct (Z.eqb_spec i W) as [Ew | Ew].
      * rewrite Bst, Ew.
        destruct (Z.leb_spec sh j), (Z.ltb_spec j (sh + n)),
                 (Z.leb_spec (64 * W + sh) p),
                 (Z.ltb_spec p (64 * W + sh + n)); cbn; try lia;
          try reflexivity.
        f_equal. lia.
      * destruct (Z.leb_spec (64 * W + sh) p),
                 (Z.ltb_spec p (64 * W + sh + n)); cbn; try lia;
          try reflexivity.
  - (* a single store: the segment ends inside word [W] *)
    assert (Hfit : sh + n <= 64).
    { apply andb_false_iff in Estr as [Hc | Hc].
      - apply Z.ltb_ge in Hc. lia.
      - apply Z.leb_gt in Hc.
        destruct (Z.eq_dec (sh + n) 0) as [E0 | E0].
        + lia.
        + rewrite u32_small in Hc by (rewrite pow2_32; lia). lia. }
    rewrite St1.
    destruct (Z.eqb_spec i W) as [Ew | Ew].
    + rewrite Bst, Ew.
      destruct (Z.leb_spec sh j), (Z.ltb_spec j (sh + n)),
               (Z.leb_spec (64 * W + sh) p),
               (Z.ltb_spec p (64 * W + sh + n)); cbn; try lia;
        try reflexivity.
      f_equal. lia.
    + destruct (Z.leb_spec (64 * W + sh) p),
               (Z.ltb_spec p (64 * W + sh + n)); cbn; try lia;
        try reflexivity.
Qed.
End WriteBits.

(** [write_bit(b)] does what [write_bits(b, 1)] does. *)
Lemma write_bit_write_bits w bit :
  bit = 0 \/ bit = 1 ->
  write_bit w bit = (bit, snd (write_bits w bit 1)).
Proof.
  intros Hb. unfold write_bit, write_bits. cbn [snd]. unfold wbits.
  set (sh := u32 (m_start_bit w + m_current_bit w) mod 64).
  assert (Bsh : 0 <= sh < 64) by (apply Z.mod_pos_bound; lia).
  rewrite low_bits by (rewrite ?pow2_64; lia).
  replace (bit mod 2 ^ 1) with bit by (destruct Hb; subst; reflexivity).
  replace (sh + 1 - 1) with sh by lia.
  rewrite (u32_small sh) by (rewrite pow2_32; lia).
  replace (64 <=? sh) with false by (symmetry; apply Z.leb_gt; lia).
  rewrite andb_false_r. reflexivity.
Qed.

(** C9. With fewer than 64 bits to write, [write_bits] only looks at
    the low [n] bits of its argument: two arguments that agree there
    leave the same writer behind (same stream words, same cursor). *)
Theorem write_bits_low_bits_only (w : BlockWriter) (bits1 bits2 n : Z) :
  0 <= n < wbits ->
  0 <= bits1 < 2 ^ 64 -> 0 <= bits2 < 2 ^ 64 ->
  bits1 mod 2 ^ n = bits2 mod 2 ^ n ->
  snd (write_bits w bits1 n) = snd (write_bits w bits2 n).
Proof.
  intros Hn H1 H2 E. unfold write_bits. cbn [snd].
  rewrite !low_bits by lia. rewrite E. reflexivity.
Qed.

Lemma write_bits_low_bits_only_witness :
  snd (write_bits (new_BlockWriter zero_stream 37 5) 0xfff5 4)
  = snd (write_bits (new_BlockWriter zero_stream 37 5) 0x5 4).
Proof.
  apply write_bits_low_bits_only; unfold wbits; try lia. reflexivity.
Defined.

Lemma bits_of_length v n : length (bits_of v n) = n.
Proof. unfold bits_of. now rewrite length_map, length_seq. Qed.

Lemma bits_of_lookup v n j :
  (j < n)%nat -> bits_of v n !!! j = Z.testbit v (Z.of_nat j).
Proof.
  intros H. unfold bits_of. apply list_lookup_total_correct.
  rewrite list_lookup_fmap, lookup_seq_lt by assumption. reflexivity.
Qed.

Lemma bits_of_take v n m :
  take m (bits_of v n) = bits_of v (Nat.min m n).
Proof.
  unfold bits_of. rewrite <- fmap_take. f_equal.
  revert m. generalize 0%nat. induction n as [|n IH]; intros s m.
  - now destruct m.
  - destruct m as [|m]; [reflexivity|]. cbn. f_equal. apply IH.
Qed.

(* ================================================================= *)
(** ** Block writer: the stream as a list of written bits *)

Section Slot.
(** The stream before the block is encoded, and the block's slot. *)
Variables (st0 : Stream) (base len : Z).
Hypothesis Hclear : slot_clear st0 base len.
Hypothesis Hbase : 0 <= base.
Hypothesis Hlen : base + len < 2 ^ 32.

Lemma writes_pos L w : writes st0 base L w -> writer_pos w = base + Z.of_nat (length L).
Proof. intros (Hb & _ & _ & Hc & _). unfold writer_pos. lia. Qed.

Lemma writes_write_bits L w v n :
  writes st0 base L w ->
  0 <= n <= 64 -> 0 <= v < 2 ^ 64 ->
  Z.of_nat (length L) + n <= len ->
  writes st0 base (L ++ bits_of v (Z.to_nat n)) (snd (write_bits w v n)).
Proof using Hclear Hbase Hlen.
  intros Hw Hn Hv Hroom.
  pose proof (writes_pos L w Hw) as Hpos.
  destruct Hw as (Hb & Hwi & Hsb & Hc & Hbits).
  assert (Hok : writer_ok w n).
  { unfold writer_ok. rewrite Hpos. repeat split; lia. }
  destruct (write_bits_cursor w v n Hok Hn) as (C1 & C2 & C3 & C4).
  unfold writes.
  rewrite length_app, bits_of_length.
  split; [unfold block_base; now rewrite C1, C2|].
  split; [rewrite C1; lia|].
  split; [rewrite C2; lia|].
  split; [rewrite C3, Hc; lia|].
  intros p. rewrite (write_bits_bit_at w v n Hok Hn Hv).
  -
    rewrite Hpos, Hbits.
      destruct (Z.leb_spec (base + Z.of_nat (length L)) p),
               (Z.ltb_spec p (base + Z.of_nat (length L) + n)),
               (Z.leb_spec base p),
               (Z.ltb_spec p (base + Z.of_nat (length L))),
               (Z.ltb_spec p (base + Z.of_nat (length L + Z.to_nat n)));
        cbn; try lia; try reflexivity.
      * rewrite lookup_total_app_r by lia.
        rewrite bits_of_lookup by lia. f_equal. lia.
      * rewrite lookup_total_app_l by lia. reflexivity.
  - intros p' Hp'. rewrite Hbits, Hpos in *.
      replace (p' <? base + Z.of_nat (length L)) with false
        by (symmetry; apply Z.ltb_ge; lia).
      rewrite andb_false_r. apply Hclear. lia.
Qed.

Lemma writes_write_bit L w bit :
  writes st0 base L w ->
  bit = 0 \/ bit = 1 ->
  Z.of_nat (length L) + 1 <= len ->
  writes st0 base (L ++ [negb (bit =? 0)]) (snd (write_bit w bit)).
Proof using Hclear Hbase Hlen.
  intros Hw Hb Hroom.
  rewrite write_bit_write_bits by assumption. cbn [snd].
  replace [negb (bit =? 0)] with (bits_of bit (Z.to_nat 1))
    by (destruct Hb; subst; reflexivity).
  apply writes_write_bits; try assumption; rewrite ?pow2_64; lia.
Qed.

(** What has been written, read back. *)
Lemma writes_output L w : writes st0 base L w -> block_output w = L.
Proof.
  intros (Hb & Hwi & Hsb & Hc & Hbits).
  unfold block_output. rewrite Hb, Hc, Nat2Z.id.
  apply list_eq. intros j.
  rewrite list_lookup_fmap.
  destruct (lt_dec j (length L)) as [Hj | Hj].
  - rewrite lookup_seq_lt by assumption. cbn. rewrite Hbits.
    replace (base <=? base + Z.of_nat j) with true
      by (symmetry; apply Z.leb_le; lia).
    replace (base + Z.of_nat j <? base + Z.of_nat (length L)) with true
      by (symmetry; apply Z.ltb_lt; lia).
    cbn. replace (Z.to_nat (base + Z.of_nat j - base)) with j by lia.
    symmetry. apply list_lookup_lookup_total_lt. assumption.
  - rewrite lookup_seq_ge by lia. cbn.
    symmetry. apply lookup_ge_None. lia.
Qed.

(** Outside the slot nothing changes, as long as the written bits
    fit in it. *)
Lemma writes_frame L w :
  writes st0 base L w -> Z.of_nat (length L) <= len ->
  forall p, ~ (base <= p < base + len) ->
            bit_at (m_stream w) p = bit_at st0 p.
Proof.
  intros (_ & _ & _ & _ & Hbits) Hfit p Hp. rewrite Hbits.
  destruct (Z.leb_spec base p), (Z.ltb_spec p (base + Z.of_nat (length L)));
    cbn; try reflexivity. lia.
Qed.
End Slot.

(* ================================================================= *)
(** ** Bit-plane encoder: the budgeted loops write a prefix *)

Lemma write_bit_pair w b : write_bit w b = (b, snd (write_bit w b)).
Proof. reflexivity. Qed.

Lemma write_bits_pair w v n :
  write_bits w v n = (shr64 v n, snd (write_bits w v n)).
Proof. reflexivity. Qed.

Lemma bsize_bounds bs : (4 <= bsize bs <= 64)%nat.
Proof. destruct bs; cbn; lia. Qed.

Lemma take_succ_cons {A} (bits : Z) (a : A) (l : list A) :
  1 <= bits -> take (Z.to_nat bits) (a :: l) = a :: take (Z.to_nat (bits - 1)) l.
Proof.
  intros H. replace (Z.to_nat bits) with (S (Z.to_nat (bits - 1))) by lia.
  reflexivity.
Qed.

Lemma land1_cases x : Z.land x 1 = 0 \/ Z.land x 1 = 1.
Proof.
  replace (Z.land x 1) with (x mod 2).
  - pose proof (Z.mod_pos_bound x 2 ltac:(lia)). lia.
  - change 1 with (Z.ones 1). now rewrite Z.land_ones by lia.
Qed.

(** Closes a goal [ran ... /\ (... -> x' = x /\ n' = n)] whose parts
    are at hand. *)
Ltac ran_done :=
  split;
  [ split; [try assumption | try lia]
  | intros; try lia; split; (reflexivity || lia) ].

Section EncodeFacts.
Variable bs : BlockSize.
Variables (st0 : Stream) (base len : Z).
Hypothesis Hclear : slot_clear st0 base len.
Hypothesis Hbase : 0 <= base.
Hypothesis Hlen : base + len < 2 ^ 32.

Let BS := Z.of_nat (bsize bs).

Local Lemma BS_bounds : 4 <= BS <= 64.
Proof. unfold BS. pose proof (bsize_bounds bs). lia. Qed.

Lemma unary_inner_S fuel w bits x n :
  unary_inner bs (S fuel) w bits x n =
  if (n <? u32 (BS - 1)) && negb (bits =? 0) then
    if u32 (Z.land x 1) =? 0 then
      unary_inner bs fuel (snd (write_bit w (u32 (Z.land x 1))))
                  (u32 (bits - 1)) (Z.shiftr x 1) (u32 (n + 1))
    else (snd (write_bit w (u32 (Z.land x 1))), u32 (bits - 1), x, n)
  else (w, bits, x, n).
Proof. reflexivity. Qed.

Lemma unary_outer_S fuel w bits x n :
  unary_outer bs (S fuel) w bits x n =
  if (n <? BS) && negb (bits =? 0) then
    let w1 := snd (write_bit w (if x =? 0 then 0 else 1)) in
    if negb ((if x =? 0 then 0 else 1) =? 0) then
      let r := unary_inner bs (bsize bs) w1 (u32 (bits - 1)) x n in
      unary_outer bs fuel r.1.1.1 r.1.1.2 (Z.shiftr r.1.2 1) (u32 (r.2 + 1))
    else (w1, u32 (bits - 1), x, n)
  else (w, bits, x, n).
Proof.
  cbn [unary_outer]. fold BS.
  destruct ((n <? BS) && negb (bits =? 0)); [|reflexivity].
  rewrite write_bit_pair. cbv zeta.
  destruct (negb ((if x =? 0 then 0 else 1) =? 0)); [|reflexivity].
  destruct (unary_inner bs (bsize bs) _ _ x n) as [[[w2 b2] x2] n2].
  reflexivity.
Qed.

(** With no budget left the loops do nothing. *)
Lemma unary_outer_spent fuel w x n :
  unary_outer bs fuel w 0 x n = (w, 0, x, n).
Proof.
  destruct fuel; [reflexivity|]. rewrite unary_outer_S.
  cbn [Z.eqb negb]. now rewrite andb_false_r.
Qed.

Lemma emit_inner_bounds fuel x n :
  0 <= x -> 0 <= n ->
  let e := emit_inner bs fuel x n in
  0 <= e.1.2 <= x /\ n <= e.2 <= Z.max n (BS - 1).
Proof.
  revert x n. induction fuel as [|fuel IH]; intros x n Hx Hn; cbn -[Z.of_nat].
  - lia.
  - fold BS. destruct (Z.ltb_spec n (BS - 1)); [|cbn; lia].
    destruct (Z.land x 1 =? 0); [|cbn; lia].
    assert (Hs : 0 <= Z.shiftr x 1 <= x).
    { rewrite Z.shiftr_div_pow2 by lia. change (2 ^ 1) with 2.
      split; [apply Z.div_pos; lia|].
      apply Z.div_le_upper_bound; lia. }
    specialize (IH (Z.shiftr x 1) (n + 1) ltac:(lia) ltac:(lia)).
    destruct (emit_inner bs fuel (Z.shiftr x 1) (n + 1)) as [[o x'] n'].
    cbn in *. lia.
Qed.

Lemma unary_inner_ran fuel : forall w bits x n L,
  writes st0 base L w ->
  0 <= bits < 2 ^ 32 -> 0 <= n -> 0 <= x ->
  let e := emit_inner bs fuel x n in
  Z.of_nat (length L) + Z.min bits (Z.of_nat (length e.1.1)) <= len ->
  let r := unary_inner bs fuel w bits x n in
  ran st0 base L bits e.1.1 r.1.1.1 r.1.1.2 /\
  (Z.of_nat (length e.1.1) < bits -> r.1.2 = e.1.2 /\ r.2 = e.2).
Proof using Hclear Hbase Hlen.
  pose proof BS_bounds as HBS.
  induction fuel as [|fuel IH]; intros w bits x n L Hw Hbits Hn Hx.
  - cbn. intros _. unfold ran. cbn.
    rewrite take_nil, app_nil_r. ran_done.
  - cbn zeta. rewrite unary_inner_S. cbn [emit_inner]. fold BS.
    rewrite (u32_small (BS - 1)) by (rewrite pow2_32; lia).
    destruct (Z.ltb_spec n (BS - 1)) as [Hlt | Hge]; cbn [andb].
    2:{ intros _. unfold ran. cbn.
        rewrite take_nil, app_nil_r. ran_done. }
    destruct (land1_cases x) as [Eb | Eb]; rewrite Eb;
      [change (u32 0) with 0 | change (u32 1) with 1]; cbn [Z.eqb].
    + (* a zero bit: the run goes on *)
      specialize (IH (snd (write_bit w 0)) (u32 (bits - 1))
                     (Z.shiftr x 1) (u32 (n + 1)) (L ++ [false])).
      destruct (Z.eqb_spec bits 0) as [E0 | E0]; cbn [negb].
      * intros _. subst bits. unfold ran. cbn.
        rewrite app_nil_r. ran_done.
      * rewrite (u32_small (bits - 1)) in * by lia.
        rewrite (u32_small (n + 1)) in * by (rewrite pow2_32; lia).
        destruct (emit_inner bs fuel (Z.shiftr x 1) (n + 1))
          as [[o x'] n'] eqn:Ee.
        cbn [fst snd length] in *. intros Hroom.
        assert (Hw1 : writes st0 base (L ++ [false]) (snd (write_bit w 0))).
        { apply (writes_write_bit st0 base len); try assumption;
            [now left|lia]. }
        assert (Hs : 0 <= Z.shiftr x 1) by (apply Z.shiftr_nonneg; lia).
        rewrite length_app in IH. cbn [length] in IH.
        specialize (IH Hw1 ltac:(lia) ltac:(lia) Hs ltac:(lia)).
        destruct IH as [[IHw IHb] IHs].
        unfold ran. rewrite take_succ_cons by lia. cbn [length].
        rewrite <- app_assoc in IHw. cbn [app] in IHw.
        split; [split; [assumption|lia]|].
        intros Hout. apply IHs. lia.
    + (* a one bit ends the run *)
      destruct (Z.eqb_spec bits 0) as [E0 | E0]; cbn [negb fst snd length].
      * intros _. subst bits. unfold ran. cbn.
        rewrite app_nil_r. ran_done.
      * intros Hroom.
        rewrite (u32_small (bits - 1)) by lia.
        unfold ran. rewrite take_succ_cons by lia. rewrite take_nil.
        cbn [length] in *.
        split; [split; [|lia]|intros; split; reflexivity].
        apply (writes_write_bit st0 base len); try assumption;
          [now right|lia].
Qed.

Lemma emit_outer_bounds fuel : forall x n,
  0 <= x -> 0 <= n <= BS ->
  let e := emit_outer bs fuel x n in
  0 <= e.1.2 /\ n <= e.2 <= BS.
Proof.
  pose proof BS_bounds as HBS.
  induction fuel as [|fuel IH]; intros x n Hx Hn; cbn -[Z.of_nat emit_inner].
  - lia.
  - fold BS. destruct (Z.ltb_spec n BS); [|cbn; lia].
    destruct (x =? 0); [cbn; lia|].
    pose proof (emit_inner_bounds (bsize bs) x n Hx ltac:(lia)) as B1.
    destruct (emit_inner bs (bsize bs) x n) as [[o1 x1] n1].
    cbn [fst snd] in B1.
    assert (Hs : 0 <= Z.shiftr x1 1) by (apply Z.shiftr_nonneg; lia).
    specialize (IH (Z.shiftr x1 1) (n1 + 1) Hs ltac:(lia)).
    destruct (emit_outer bs fuel (Z.shiftr x1 1) (n1 + 1)) as [[o2 x2] n2].
    cbn [fst snd] in *. lia.
Qed.

Lemma unary_outer_ran fuel : forall w bits x n L,
  writes st0 base L w ->
  0 <= bits < 2 ^ 32 -> 0 <= n <= BS -> 0 <= x ->
  let e := emit_outer bs fuel x n in
  Z.of_nat (length L) + Z.min bits (Z.of_nat (length e.1.1)) <= len ->
  let r := unary_outer bs fuel w bits x n in
  ran st0 base L bits e.1.1 r.1.1.1 r.1.1.2 /\
  (Z.of_nat (length e.1.1) < bits -> r.1.2 = e.1.2 /\ r.2 = e.2).
Proof using Hclear Hbase Hlen.
  pose proof BS_bounds as HBS.
  induction fuel as [|fuel IH]; intros w bits x n L Hw Hbits Hn Hx.
  - cbn. intros _. unfold ran. cbn.
    rewrite take_nil, app_nil_r. ran_done.
  - cbn zeta. rewrite unary_outer_S. cbn [emit_outer]. fold BS.
    destruct (Z.ltb_spec n BS) as [Hlt | Hge]; cbn [andb].
    2:{ intros _. unfold ran. cbn.
        rewrite take_nil, app_nil_r. ran_done. }
    destruct (Z.eqb_spec bits 0) as [E0 | E0]; cbn [negb].
    { intros _. subst bits. unfold ran. cbn.
      rewrite app_nil_r. ran_done. }
    cbv zeta. rewrite (u32_small (bits - 1)) by lia.
    destruct (Z.eqb_spec x 0) as [Ex | Ex]; cbn [Z.eqb negb].
    + (* group test 0: nothing new in this plane *)
      cbn [fst snd length]. intros Hroom.
      unfold ran. rewrite take_succ_cons by lia. rewrite take_nil.
      cbn [length] in *.
      split; [split; [|lia]|intros; split; reflexivity].
      apply (writes_write_bit st0 base len); try assumption; [now left|lia].
    + (* group test 1, then the run of the inner loop *)
      pose proof (emit_inner_bounds (bsize bs) x n Hx ltac:(lia)) as B1.
      pose proof (unary_inner_ran (bsize bs)
                    (snd (write_bit w 1)) (bits - 1) x n (L ++ [true])) as I.
      destruct (emit_inner bs (bsize bs) x n) as [[o1 x1] n1] eqn:E1.
      cbn [fst snd] in B1, I.
      assert (Hs : 0 <= Z.shiftr x1 1) by (apply Z.shiftr_nonneg; lia).
      pose proof (emit_outer_bounds fuel (Z.shiftr x1 1) (n1 + 1) Hs
                    ltac:(lia)) as B2.
      specialize (IH (unary_inner bs (bsize bs) (snd (write_bit w 1))
                        (bits - 1) x n).1.1.1
                     (unary_inner bs (bsize bs) (snd (write_bit w 1))
                        (bits - 1) x n).1.1.2
                     (Z.shiftr x1 1) (n1 + 1)
                     ((L ++ [true]) ++ take (Z.to_nat (bits - 1)) o1)).
      destruct (emit_outer bs fuel (Z.shiftr x1 1) (n1 + 1))
        as [[o2 x2] n2] eqn:E2.
      cbn [fst snd] in *. intros Hroom.
      cbn [length] in Hroom. rewrite length_app in Hroom.
      assert (Hw1 : writes st0 base (L ++ [true]) (snd (write_bit w 1))).
      { apply (writes_write_bit st0 base len); try assumption;
          [now right|lia]. }
      rewrite length_app in I. cbn [length] in I.
      specialize (I Hw1 ltac:(lia) ltac:(lia) Hx ltac:(lia)).
      destruct I as [[Iw Ib] Is].
      set (r1 := unary_inner bs (bsize bs) (snd (write_bit w 1))
                   (bits - 1) x n) in *.
      unfold ran. rewrite take_succ_cons by lia.
      rewrite take_app. cbn [length]. rewrite length_app.
      destruct (Z.lt_ge_cases (Z.of_nat (length o1)) (bits - 1)) as [Hin | Hex].
      * (* the inner run fitted: the loop goes on as in [emit_outer] *)
        destruct (Is Hin) as [Ex1 En1].
        rewrite Ex1, En1.
        rewrite (u32_small (n1 + 1)) by (rewrite pow2_32; lia).
        rewrite !length_app, length_take in IH. cbn [length] in IH.
        specialize (IH Iw ltac:(lia) ltac:(lia) Hs ltac:(lia)).
        destruct IH as [[IHw IHb] IHs].
        rewrite <- !app_assoc in IHw. cbn [app] in IHw.
        replace (Z.to_nat (bits - 1) - length o1)%nat
          with (Z.to_nat r1.1.1.2) by lia.
        split; [split; [assumption|lia]|].
        intros Hout. apply IHs. lia.
      * (* the budget ran out inside the inner run *)
        replace r1.1.1.2 with 0 by lia.
        rewrite unary_outer_spent. cbn [fst snd].
        replace (Z.to_nat (bits - 1) - length o1)%nat with 0%nat by lia.
        rewrite take_0, app_nil_r.
        rewrite <- app_assoc in Iw. cbn [app] in Iw.
        split; [split; [assumption|lia]|]. intros Hout. lia.
Qed.

Lemma bit_plane_range ublock k : 0 <= bit_plane bs ublock k < 2 ^ 64.
Proof.
  unfold bit_plane, for_range.
  assert (G : forall l acc,
             0 <= acc < 2 ^ 64 ->
             0 <= foldl (fun x i =>
                    u64 (x + shl64 (Z.land (Z.shiftr (ublock !!! i) k) 1)
                                   (Z.of_nat i))) acc l < 2 ^ 64).
  { induction l as [|i l IH]; intros acc Hacc; [exact Hacc|].
    cbn. apply IH, u64_range. }
  apply G. rewrite pow2_64. lia.
Qed.

Lemma encode_plane_eq ublock k w bits n :
  encode_plane bs ublock k w bits n =
  let x := bit_plane bs ublock k in
  let m := Z.min n bits in
  let r := unary_outer bs (bsize bs) (snd (write_bits w x m))
                       (u32 (bits - m)) (shr64 x m) n in
  (r.1.1.1, r.1.1.2, r.2).
Proof.
  unfold encode_plane. rewrite write_bits_pair. cbv zeta.
  destruct (unary_outer bs (bsize bs) _ _ _ n) as [[[w2 b2] x2] n2].
  reflexivity.
Qed.

Lemma emit_plane_bounds ublock k n :
  0 <= n <= BS -> n <= (emit_plane bs ublock k n).2 <= BS.
Proof.
  intros Hn. unfold emit_plane.
  pose proof (bit_plane_range ublock k) as Bx.
  assert (Hs : 0 <= Z.shiftr (bit_plane bs ublock k) n)
    by (apply Z.shiftr_nonneg; lia).
  pose proof (emit_outer_bounds (bsize bs) _ n Hs Hn) as B.
  destruct (emit_outer bs (bsize bs) _ n) as [[o x'] n'].
  cbn [fst snd] in *. lia.
Qed.

Lemma encode_plane_ran ublock k w bits n L :
  writes st0 base L w ->
  0 <= bits < 2 ^ 32 -> 0 <= n <= BS ->
  let e := emit_plane bs ublock k n in
  Z.of_nat (length L) + Z.min bits (Z.of_nat (length e.1)) <= len ->
  let r := encode_plane bs ublock k w bits n in
  ran st0 base L bits e.1 r.1.1 r.1.2 /\
  (Z.of_nat (length e.1) < bits -> r.2 = e.2).
Proof using Hclear Hbase Hlen.
  pose proof BS_bounds as HBS.
  intros Hw Hbits Hn. cbv zeta.
  rewrite encode_plane_eq. unfold emit_plane. cbv zeta.
  pose proof (bit_plane_range ublock k) as Bx.
  set (x := bit_plane bs ublock k) in *.
  assert (Hs : 0 <= Z.shiftr x n) by (apply Z.shiftr_nonneg; lia).
  pose proof (unary_outer_ran (bsize bs)
                (snd (write_bits w x (Z.min n bits)))
                (bits - n) (Z.shiftr x n) n
                (L ++ bits_of x (Z.to_nat n))) as O.
  destruct (emit_outer bs (bsize bs) (Z.shiftr x n) n) as [[o x'] n'] eqn:Eo.
  cbn [fst snd] in *. rewrite length_app, bits_of_length. intros Hroom.
  assert (Hm : 0 <= Z.min n bits <= 64) by lia.
  pose proof (writes_write_bits st0 base len Hclear Hbase Hlen L w x
                (Z.min n bits) Hw Hm Bx ltac:(lia)) as Hw1.
  rewrite (u32_small (bits - Z.min n bits)) by lia.
  unfold ran. rewrite take_app, bits_of_length, bits_of_take.
  rewrite length_app, bits_of_length.
  destruct (Z.le_gt_cases n bits) as [Hfit | Hcut].
  - (* the raw bits fitted *)
    rewrite Z.min_l in * by lia.
    rewrite length_app, bits_of_length in O.
    specialize (O Hw1 ltac:(lia) Hn Hs ltac:(lia)).
    destruct O as [[Ow Ob] Os]. unfold shr64.
    replace (Nat.min (Z.to_nat bits) (Z.to_nat n)) with (Z.to_nat n) by lia.
    replace (Z.to_nat bits - Z.to_nat n)%nat with (Z.to_nat (bits - n)) by lia.
    rewrite <- app_assoc in Ow.
    split; [split; [assumption|lia]|].
    intros Hout. apply Os. lia.
  - (* the budget ran out inside the raw bits *)
    rewrite Z.min_r in * by lia.
    replace (bits - bits) with 0 by lia.
    rewrite unary_outer_spent. cbn [fst snd].
    replace (Nat.min (Z.to_nat bits) (Z.to_nat n)) with (Z.to_nat bits) by lia.
    replace (Z.to_nat bits - Z.to_nat n)%nat with 0%nat by lia.
    rewrite take_0, app_nil_r.
    split; [split; [assumption|lia]|]. intros Hout. lia.
Qed.

Lemma encode_planes_S ublock kmin k w bits n :
  encode_planes bs ublock kmin (S k) w bits n =
  if negb (bits =? 0) && (kmin <? Z.of_nat (S k)) then
    let r := encode_plane bs ublock (Z.of_nat k) w bits n in
    encode_planes bs ublock kmin k r.1.1 r.1.2 r.2
  else (w, bits, n).
Proof.
  cbn [encode_planes].
  destruct (negb (bits =? 0) && (kmin <? Z.of_nat (S k))); [|reflexivity].
  destruct (encode_plane bs ublock (Z.of_nat k) w bits n) as [[w1 b1] n1].
  reflexivity.
Qed.

Lemma encode_planes_spent ublock kmin k w n :
  encode_planes bs ublock kmin k w 0 n = (w, 0, n).
Proof. destruct k; [reflexivity|]. now rewrite encode_planes_S. Qed.

(** The plane loop writes the first [bits] bits of what the
    unbudgeted loop emits, and gives the rest of the budget back. *)
Lemma encode_planes_ran ublock kmin k : forall w bits n L,
  writes st0 base L w ->
  0 <= bits < 2 ^ 32 -> 0 <= n <= BS ->
  let out := emit_planes bs ublock kmin k n in
  Z.of_nat (length L) + Z.min bits (Z.of_nat (length out)) <= len ->
  let r := encode_planes bs ublock kmin k w bits n in
  ran st0 base L bits out r.1.1 r.1.2.
Proof using Hclear Hbase Hlen.
  induction k as [|k IH]; intros w bits n L Hw Hbits Hn.
  - cbn. intros _. unfold ran. cbn.
    rewrite take_nil, app_nil_r. split; [assumption|lia].
  - cbv zeta. rewrite encode_planes_S. cbn [emit_planes].
    destruct (Z.eqb_spec bits 0) as [E0 | E0]; cbn [negb andb].
    { intros _. subst bits. unfold ran. cbn.
      rewrite app_nil_r. split; [assumption|lia]. }
    destruct (Z.ltb_spec kmin (Z.of_nat (S k))) as [Hk | Hk].
    2:{ intros _. unfold ran. cbn.
        rewrite take_nil, app_nil_r. split; [assumption|lia]. }
    cbv zeta.
    pose proof (encode_plane_ran ublock (Z.of_nat k) w bits n L Hw Hbits Hn)
      as P.
    pose proof (emit_plane_bounds ublock (Z.of_nat k) n Hn) as Bn.
    destruct (emit_plane bs ublock (Z.of_nat k) n) as [o n'] eqn:Ep.
    cbn [fst snd] in *. rewrite length_app. intros Hroom.
    specialize (P ltac:(lia)). destruct P as [[Pw Pb] Pn].
    set (r1 := encode_plane bs ublock (Z.of_nat k) w bits n) in *.
    unfold ran. rewrite take_app, length_app.
    destruct (Z.lt_ge_cases (Z.of_nat (length o)) bits) as [Hin | Hex].
    + rewrite (Pn Hin).
      specialize (IH r1.1.1 r1.1.2 n' (L ++ take (Z.to_nat bits) o)
                     Pw ltac:(lia) ltac:(lia)).
      cbv zeta in IH. rewrite length_app, length_take in IH.
      specialize (IH ltac:(lia)). destruct IH as [IHw IHb].
      replace (Z.to_nat bits - length o)%nat with (Z.to_nat r1.1.2) by lia.
      rewrite <- app_assoc in IHw.
      split; [assumption|lia].
    + replace r1.1.2 with 0 by lia.
      rewrite encode_planes_spent. cbn [fst snd].
      replace (Z.to_nat bits - length o)%nat with 0%nat by lia.
      rewrite take_0, app_nil_r.
      split; [assumption|lia].
Qed.

(** [encode_block] with a budget of [maxbits] writes the first
    [maxbits] bits of the unbudgeted code of the block. *)
Lemma encode_block_ran k perm w maxbits maxprec iblock L :
  writes st0 base L w ->
  let out := emit_block bs k perm maxprec iblock in
  Z.of_nat (length L) + Z.min (u32 maxbits) (Z.of_nat (length out)) <= len ->
  writes st0 base (L ++ take (Z.to_nat (u32 maxbits)) out)
         (encode_block bs k perm w maxbits maxprec iblock).
Proof using Hclear Hbase Hlen.
  intros Hw out Hroom. unfold encode_block. subst out.
  unfold emit_block in *.
  pose proof BS_bounds.
  apply (encode_planes_ran _ _ _ w (u32 maxbits) 0 L Hw
           (u32_range maxbits) ltac:(lia) Hroom).
Qed.
End EncodeFacts.

(* ================================================================= *)
(** ** Block drivers *)

Lemma zero_stream_clear base len : slot_clear zero_stream base len.
Proof. intros p _. unfold bit_at, zero_stream. apply Z.bits_0. Qed.

Lemma new_BlockWriter_writes st0 maxbits block_idx :
  0 <= block_idx -> 0 <= maxbits -> block_idx * maxbits < 2 ^ 32 ->
  writes st0 (block_idx * maxbits) [] (new_BlockWriter st0 maxbits block_idx).
Proof.
  intros Hi Hm Hb. unfold writes, new_BlockWriter, block_base, wbits.
  cbn [m_word_index m_start_bit m_current_bit m_stream length].
  assert (Hp : 0 <= block_idx * maxbits) by nia.
  rewrite (u32_small (block_idx * maxbits)) by lia.
  pose proof (Z.div_mod (block_idx * maxbits) 64 ltac:(lia)) as E.
  pose proof (Z.mod_pos_bound (block_idx * maxbits) 64 ltac:(lia)) as B.
  assert (0 <= block_idx * maxbits / 64) by (apply Z.div_pos; lia).
  rewrite pow2_32 in *.
  rewrite !u32_small by (rewrite pow2_32; lia).
  repeat split; try lia.
  intros p.
  destruct (Z.leb_spec (block_idx * maxbits) p),
           (Z.ltb_spec p (block_idx * maxbits + Z.of_nat 0));
    cbn; try reflexivity; lia.
Qed.

Lemma encode_block_at_end bs k perm w maxbits maxprec iblock :
  (encode_block_at bs k perm w maxbits maxprec iblock 0).1.1
  = encode_block bs k perm w maxbits maxprec iblock.
Proof.
  unfold encode_block_at, encode_block.
  replace (Z.max _ 0) with
    (if u32 maxprec <? u32 (8 * (int_bits k / 8))
     then u32 (u32 (8 * (int_bits k / 8)) - u32 maxprec) else 0);
    [reflexivity|].
  destruct (u32 maxprec <? _); [|reflexivity].
  pose proof (u32_range (u32 (8 * (int_bits k / 8)) - u32 maxprec)). lia.
Qed.

Section Drivers.
Variable bs : BlockSize.
Variables (st0 : Stream) (maxbits block_idx : Z).
Hypothesis Hidx : 0 <= block_idx.
Hypothesis Hmax : 0 <= maxbits.

Let base := block_idx * maxbits.

(** Every state of the plane loop, started with [L] written and a
    budget that fits the slot, has at most [len] bits written. *)
Lemma encode_block_at_cursor len k perm w budget maxprec iblock L stop :
  slot_clear st0 base len -> base + len < 2 ^ 32 ->
  writes st0 base L w ->
  Z.of_nat (length L) + u32 budget <= len ->
  m_current_bit (encode_block_at bs k perm w budget maxprec iblock stop).1.1
  <= len.
Proof.
  intros Hclear Hlen Hw Hroom. unfold encode_block_at.
  assert (Hbase : 0 <= base) by (unfold base; nia).
  pose proof (bsize_bounds bs) as HBS.
  pose proof (u32_range budget) as Hb.
  match goal with |- context [encode_planes bs ?u ?km ?n w _ 0] =>
    pose proof (encode_planes_ran bs st0 base len Hclear Hbase Hlen u km n
                  w (u32 budget) 0 L Hw Hb ltac:(lia) ltac:(lia)) as R
  end.
  destruct R as [(_ & _ & _ & Hc & _) _]. rewrite Hc.
  rewrite length_app, length_take. lia.
Qed.

(** The integer drivers keep to the slot of their block. *)
Lemma zfp_encode_block_int_writes k perm iblock :
  slot_clear st0 base maxbits -> base + maxbits < 2 ^ 32 ->
  writes st0 base
    (take (Z.to_nat maxbits)
          (emit_block bs k perm (get_precision_int k) iblock))
    (zfp_encode_block_int bs k perm iblock maxbits block_idx st0).
Proof.
  intros Hclear Hlen. unfold zfp_encode_block_int.
  assert (Hb : 0 <= base) by (unfold base; nia).
  pose proof (new_BlockWriter_writes st0 maxbits block_idx Hidx Hmax
                ltac:(fold base; lia)) as Hw.
  fold base in Hw.
  pose proof (encode_block_ran bs st0 base maxbits Hclear Hb Hlen k perm _
                maxbits (get_precision_int k) iblock [] Hw) as R.
  cbv zeta in R. rewrite (u32_small maxbits) in R by lia.
  apply R. cbn [length]. lia.
Qed.
End Drivers.

Lemma for_range_inv {A} (P : A -> Prop) n (body : nat -> A -> A) a :
  (forall i x, P x -> P (body i x)) -> P a -> P (for_range n body a).
Proof.
  intros Hstep. unfold for_range. generalize (seq 0 n). intros l.
  revert a. induction l as [|i l IH]; intros a Ha; [exact Ha|].
  cbn. apply IH, Hstep, Ha.
Qed.

Lemma all_zero_lookup fblock i :
  all_zero fblock -> exists s, fblock !!! i = S754_zero s.
Proof.
  intros Hz. unfold all_zero in Hz. rewrite Forall_lookup in Hz.
  rewrite list_lookup_total_alt.
  destruct (fblock !! i) as [f|] eqn:E.
  - exact (Hz i f E).
  - now exists false.
Qed.

Lemma take_prefix {A} n (l : list A) : take n l `prefix_of` l.
Proof. exists (drop n l). symmetry. apply take_drop. Qed.

Section FloatDriver.
Variables (bs : BlockSize) (T : ScalarTraits).

(** The maximum exponent of an all-zero block is that of zero. *)
Lemma max_exponent_zero fblock :
  all_zero fblock -> max_exponent T bs fblock = int32 (- get_ebias T).
Proof.
  intros Hz. unfold max_exponent.
  assert (E : for_range (bsize bs)
                (fun i max_val => fmax max_val (fabs (fblock !!! i))) fzero
              = fzero).
  { apply (for_range_inv (fun v => v = fzero)); [|reflexivity].
    intros i x ->. destruct (all_zero_lookup fblock i Hz) as [s ->].
    reflexivity. }
  cbv zeta. rewrite E. reflexivity.
Qed.

Lemma block_e_zero fblock : all_zero fblock -> block_e bs T fblock = 0.
Proof.
  intros Hz. unfold block_e. rewrite (max_exponent_zero fblock Hz).
  destruct (block_maxprec bs T fblock =? 0); [reflexivity|].
  unfold u32.
  replace (int32 (- get_ebias T) + get_ebias T)
    with (int32 (- get_ebias T) - - get_ebias T) by lia.
  apply (to_int_mod 32). lia.
Qed.

(** The driver, by cases on the biased exponent. *)
Lemma zfp_encode_block_eq perm fblock maxbits block_idx st :
  zfp_encode_block bs T perm fblock maxbits block_idx st =
  if block_e bs T fblock =? 0 then new_BlockWriter st maxbits block_idx
  else encode_block bs (traits_int T) perm
         (header_writer T bs fblock maxbits block_idx st)
         (int32 (u32 (maxbits - u32 (get_ebits T + 1))))
         (block_maxprec bs T fblock)
         (fwd_cast T bs fblock (max_exponent T bs fblock)).
Proof.
  unfold zfp_encode_block, header_writer.
  destruct (block_e bs T fblock =? 0); reflexivity.
Qed.

(** A block whose biased exponent is 0 leaves the stream alone. *)
Lemma zfp_encode_block_e0 perm fblock maxbits block_idx st :
  block_e bs T fblock = 0 ->
  zfp_encode_block bs T perm fblock maxbits block_idx st
  = new_BlockWriter st maxbits block_idx.
Proof. intros E. rewrite zfp_encode_block_eq, E. reflexivity. Qed.
End FloatDriver.

Lemma encode_block_no_budget bs k perm w maxprec iblock :
  encode_block bs k perm w 0 maxprec iblock = w.
Proof.
  unfold encode_block. change (u32 0) with 0.
  now rewrite encode_planes_spent.
Qed.

(** C7. An all-zero floating-point block (either sign of zero, any
    scalar kind, block size, budget and block index) has biased exponent
    0 and the driver returns the writer it constructed: the stream is the
    one it was given and no bit has been written. *)
Theorem zero_block_writes_nothing (bs : BlockSize) (T : ScalarTraits)
        (perm : list nat) (fblock : list spec_float)
        (maxbits block_idx : Z) (st : Stream) :
  all_zero fblock ->
  let w' := zfp_encode_block bs T perm fblock maxbits block_idx st in
  m_stream w' = st /\ m_current_bit w' = 0 /\ block_output w' = [].
Proof.
  intros Hz w'. subst w'.
  rewrite zfp_encode_block_e0 by (now apply block_e_zero).
  repeat split.
Qed.

Lemma zero_block_writes_nothing_witness :
  let w' := zfp_encode_block B64 double_traits []
              (replicate 64 (S754_zero false)) 4096 0 zero_stream in
  m_stream w' = zero_stream /\ m_current_bit w' = 0 /\ block_output w' = [].
Proof.
  apply zero_block_writes_nothing.
  unfold all_zero. apply Forall_replicate. now exists false.
Defined.

(** C2, amended. With [maxbits = 0] the integer drivers write nothing,
    whatever the block and the block index; the floating-point driver
    writes nothing when the biased exponent of the block is 0. *)
Theorem zero_budget_writes_nothing (bs : BlockSize) (perm : list nat)
        (block_idx : Z) (st : Stream) :
  (forall k iblock,
     let w' := zfp_encode_block_int bs k perm iblock 0 block_idx st in
     m_stream w' = st /\ m_current_bit w' = 0 /\ block_output w' = []) /\
  (forall T fblock,
     block_e bs T fblock = 0 ->
     let w' := zfp_encode_block bs T perm fblock 0 block_idx st in
     m_stream w' = st /\ m_current_bit w' = 0 /\ block_output w' = []).
Proof.
  split.
  - intros k iblock w'. subst w'. unfold zfp_encode_block_int.
    rewrite encode_block_no_budget. repeat split.
  - intros T fblock E w'. subst w'.
    rewrite zfp_encode_block_e0 by assumption. repeat split.
Qed.

Lemma zero_budget_writes_nothing_witness :
  m_current_bit
    (zfp_encode_block B4 double_traits perm_1
       [S754_zero false; S754_zero true; S754_zero false; S754_zero false]
       0 7 zero_stream) = 0.
Proof.
  apply (zero_budget_writes_nothing B4 perm_1 7 zero_stream).
  reflexivity.
Defined.

(** C2 as stated fails for floating-point blocks: the double block of
    four 1.0 encoded with [maxbits = 0] gets its 12 header bits and then
    its bit planes, 140 bits in all, from bit 0 of the stream on. *)
Lemma zero_budget_counterexample :
  let w' := zfp_encode_block B4 double_traits perm_1
              [one_double; one_double; one_double; one_double]
              0 0 zero_stream in
  m_current_bit w' = 140 /\ bit_at (m_stream w') 0 = true /\
  m_stream w' 0 <> zero_stream 0.
Proof. vm_compute. repeat split. discriminate. Qed.

Section FloatSlot.
Variables (bs : BlockSize) (T : ScalarTraits) (perm : list nat).
Variables (fblock : list spec_float) (st0 : Stream).
Variables (maxbits block_idx len : Z).
Hypothesis Hidx : 0 <= block_idx.
Hypothesis Hmax : 0 <= maxbits.
Hypothesis Hebits : 0 <= get_ebits T < 64.
Hypothesis Hclear : slot_clear st0 (block_idx * maxbits) len.
Hypothesis Hlen : block_idx * maxbits + len < 2 ^ 32.

Let base := block_idx * maxbits.
Let hdr := bits_of (u32 (2 * block_e bs T fblock + 1))
                   (Z.to_nat (get_ebits T + 1)).
Let code := emit_block bs (traits_int T) perm (block_maxprec bs T fblock)
              (fwd_cast T bs fblock (max_exponent T bs fblock)).
Let budget := u32 (maxbits - (get_ebits T + 1)).

Lemma header_writes :
  get_ebits T + 1 <= len ->
  writes st0 base hdr (header_writer T bs fblock maxbits block_idx st0).
Proof using Hidx Hmax Hebits Hclear Hlen.
  intros Hroom. unfold header_writer, hdr.
  assert (Hb : 0 <= base) by (unfold base; nia).
  rewrite (u32_small (get_ebits T + 1)) by (rewrite pow2_32; lia).
  pose proof (new_BlockWriter_writes st0 maxbits block_idx Hidx Hmax
                ltac:(fold base; lia)) as Hw.
  fold base in Hw, Hclear, Hlen.
  pose proof (u32_range (2 * block_e bs T fblock + 1)) as Hv.
  apply (writes_write_bits st0 base len Hclear Hb Hlen [] _ _ _ Hw);
    rewrite ?pow2_64, ?pow2_32 in *; cbn [length]; lia.
Qed.

(** The floating-point driver writes the header and then the first
    [budget] bits of the bit-plane code. *)
Lemma zfp_encode_block_writes :
  block_e bs T fblock <> 0 ->
  get_ebits T + 1 + Z.min budget (Z.of_nat (length code)) <= len ->
  writes st0 base (hdr ++ take (Z.to_nat budget) code)
         (zfp_encode_block bs T perm fblock maxbits block_idx st0).
Proof using Hidx Hmax Hebits Hclear Hlen.
  intros He Hroom. rewrite zfp_encode_block_eq.
  destruct (Z.eqb_spec (block_e bs T fblock) 0) as [E | _]; [contradiction|].
  assert (Hb : 0 <= base) by (unfold base; nia).
  pose proof (u32_range (maxbits - (get_ebits T + 1))) as Hbud.
  fold budget in Hbud.
  pose proof (header_writes ltac:(lia)) as Hh.
  fold base in Hclear, Hlen.
  assert (Eb : u32 (int32 (u32 (maxbits - u32 (get_ebits T + 1)))) = budget).
  { rewrite u32_int32. unfold budget.
    rewrite (u32_small (get_ebits T + 1)) by (rewrite pow2_32; lia).
    apply u32_small, u32_range. }
  pose proof (encode_block_ran bs st0 base len Hclear Hb Hlen
                (traits_int T) perm _
                (int32 (u32 (maxbits - u32 (get_ebits T + 1))))
                (block_maxprec bs T fblock)
                (fwd_cast T bs fblock (max_exponent T bs fblock))
                hdr Hh) as R.
  cbv zeta in R. rewrite Eb in R. apply R.
  unfold hdr. rewrite bits_of_length. fold code. lia.
Qed.
End FloatSlot.

Lemma writes_cursor st0 base L w :
  writes st0 base L w -> m_current_bit w = Z.of_nat (length L).
Proof. now intros (_ & _ & _ & Hc & _). Qed.

(** C1, amended. Let the slot of block [i], bits [i * maxbits] up to
    [(i + 1) * maxbits], be clear and end below [2 ^ 32]. The integer
    drivers, for every budget, and the floating-point driver, when the
    budget holds the [ebits + 1] header bits, leave every bit outside
    the slot as it was; and in every state of the plane loop
    [m_current_bit] is at most [maxbits]. *)
Theorem encoder_keeps_to_slot (bs : BlockSize) (perm : list nat)
        (st0 : Stream) (maxbits block_idx : Z) :
  0 <= block_idx -> 0 <= maxbits ->
  (block_idx + 1) * maxbits < 2 ^ 32 ->
  slot_clear st0 (block_idx * maxbits) maxbits ->
  (forall k iblock,
     let w0 := new_BlockWriter st0 maxbits block_idx in
     let w' := zfp_encode_block_int bs k perm iblock maxbits block_idx st0 in
     within_slot st0 (block_idx * maxbits) maxbits w' /\
     m_current_bit w' <= maxbits /\
     forall stop,
       m_current_bit
         (encode_block_at bs k perm w0 maxbits (get_precision_int k)
            iblock stop).1.1 <= maxbits) /\
  (forall T fblock,
     0 <= get_ebits T < 64 -> get_ebits T + 1 <= maxbits ->
     let w1 := header_writer T bs fblock maxbits block_idx st0 in
     let w' := zfp_encode_block bs T perm fblock maxbits block_idx st0 in
     within_slot st0 (block_idx * maxbits) maxbits w' /\
     m_current_bit w' <= maxbits /\
     forall stop,
       m_current_bit
         (encode_block_at bs (traits_int T) perm w1
            (int32 (u32 (maxbits - u32 (get_ebits T + 1))))
            (block_maxprec bs T fblock)
            (fwd_cast T bs fblock (max_exponent T bs fblock)) stop).1.1
       <= maxbits).
Proof.
  intros Hidx Hmax Hend Hclear.
  assert (Hlen : block_idx * maxbits + maxbits < 2 ^ 32) by lia.
  assert (Hbase : 0 <= block_idx * maxbits) by nia.
  split.
  - intros k iblock w0 w'.
    pose proof (zfp_encode_block_int_writes bs st0 maxbits block_idx
                  Hidx Hmax k perm iblock Hclear Hlen) as Hw.
    fold w' in Hw.
    pose proof (writes_cursor _ _ _ _ Hw) as Hc.
    rewrite length_take in Hc.
    split; [|split].
    + unfold within_slot. apply (writes_frame _ _ _ _ _ Hw).
      rewrite length_take. lia.
    + lia.
    + intros stop.
      apply (encode_block_at_cursor bs st0 maxbits block_idx Hidx Hmax
               maxbits k perm w0 maxbits _ iblock [] stop Hclear Hlen).
      * subst w0. apply new_BlockWriter_writes; lia.
      * cbn [length]. rewrite u32_small; lia.
  - intros T fblock Hebits Hroom w1 w'.
    destruct (Z.eq_dec (block_e bs T fblock) 0) as [E0 | E0].
    + (* no header, nothing written *)
      assert (Ew : w' = new_BlockWriter st0 maxbits block_idx)
        by (now apply zfp_encode_block_e0).
      pose proof (header_writes bs T fblock st0 maxbits block_idx maxbits
                    Hidx Hmax Hebits Hclear Hlen Hroom) as Hh.
      fold w1 in Hh.
      split; [|split].
      * rewrite Ew. intros p _. reflexivity.
      * rewrite Ew. cbn. lia.
      * intros stop.
        apply (encode_block_at_cursor bs st0 maxbits block_idx Hidx Hmax
                 maxbits _ perm w1 _ _ _ _ stop Hclear Hlen Hh).
        rewrite bits_of_length, u32_int32.
        rewrite (u32_small (get_ebits T + 1)) by (rewrite pow2_32; lia).
        rewrite (u32_small (u32 _)) by apply u32_range.
        rewrite u32_small by lia. lia.
    + pose proof (header_writes bs T fblock st0 maxbits block_idx maxbits
                    Hidx Hmax Hebits Hclear Hlen Hroom) as Hh.
      fold w1 in Hh.
      assert (Eb : u32 (maxbits - (get_ebits T + 1))
                   = maxbits - (get_ebits T + 1)) by (apply u32_small; lia).
      pose proof (zfp_encode_block_writes bs T perm fblock st0 maxbits
                    block_idx maxbits Hidx Hmax Hebits Hclear Hlen E0) as Hw.
      rewrite Eb in Hw. specialize (Hw ltac:(lia)). fold w' in Hw.
      pose proof (writes_cursor _ _ _ _ Hw) as Hc.
      rewrite length_app, bits_of_length, length_take in Hc.
      split; [|split].
      * unfold within_slot. apply (writes_frame _ _ _ _ _ Hw).
        rewrite length_app, bits_of_length, length_take. lia.
      * lia.
      * intros stop.
        apply (encode_block_at_cursor bs st0 maxbits block_idx Hidx Hmax
                 maxbits _ perm w1 _ _ _ _ stop Hclear Hlen Hh).
        rewrite bits_of_length, u32_int32.
        rewrite (u32_small (get_ebits T + 1)) by (rewrite pow2_32; lia).
        rewrite (u32_small (u32 _)) by apply u32_range.
        rewrite Eb. lia.
Qed.

Lemma encoder_keeps_to_slot_witness :
  m_current_bit
    (zfp_encode_block_int B4 I32 perm_1 [-1; 0; 0; 0] 256 3 zero_stream)
  <= 256 /\
  m_current_bit
    (zfp_encode_block B4 double_traits perm_1
       [one_double; one_double; one_double; one_double] 37 5 zero_stream)
  <= 37.
Proof.
  split.
  - pose proof (encoder_keeps_to_slot B4 perm_1 zero_stream 256 3
                  ltac:(lia) ltac:(lia) ltac:(reflexivity)
                  (zero_stream_clear _ _)) as [Hi _].
    exact (proj1 (proj2 (Hi I32 [-1; 0; 0; 0]))).
  - pose proof (encoder_keeps_to_slot B4 perm_1 zero_stream 37 5
                  ltac:(lia) ltac:(lia) ltac:(reflexivity)
                  (zero_stream_clear _ _)) as [_ Hf].
    refine (proj1 (proj2 (Hf double_traits
              [one_double; one_double; one_double; one_double] _ _)));
      cbn; lia.
Defined.

(** C1 as stated fails for a floating-point block whose budget is
    smaller than the header: the double block of four 1.0 at
    [maxbits = 8], block 0, sets bit 11 of the stream, outside bits
    0..7, and ends with [m_current_bit = 140]. *)
Lemma encoder_slot_counterexample :
  let w' := zfp_encode_block B4 double_traits perm_1
              [one_double; one_double; one_double; one_double]
              8 0 zero_stream in
  bit_at (m_stream w') 11 = true /\ bit_at zero_stream 11 = false /\
  ~ (0 * 8 <= 11 < (0 + 1) * 8) /\
  m_current_bit w' = 140 /\ ~ (m_current_bit w' <= 8).
Proof.
  cbv zeta.
  split; [vm_compute; reflexivity|]. split; [reflexivity|]. split; [lia|].
  assert (E : m_current_bit
                (zfp_encode_block B4 double_traits perm_1
                   [one_double; one_double; one_double; one_double]
                   8 0 zero_stream) = 140) by (vm_compute; reflexivity).
  split; [exact E|rewrite E; lia].
Qed.

(** C8. Encoding into a zero stream, let the budget [B] be large
    enough: it holds the header of a floating-point block and the
    encoder stops short of it. Then for every budget [b <= B] the bits
    written with budget [b] are a prefix of the bits written with
    budget [B], for integer and for floating-point blocks. *)
Theorem truncation_is_prefix (bs : BlockSize) (perm : list nat)
        (block_idx b B : Z) :
  0 <= block_idx -> 0 <= b <= B -> (block_idx + 1) * B < 2 ^ 32 ->
  (forall k iblock,
     let run m := zfp_encode_block_int bs k perm iblock m block_idx
                    zero_stream in
     m_current_bit (run B) < B ->
     block_output (run b) `prefix_of` block_output (run B)) /\
  (forall T fblock,
     let run m := zfp_encode_block bs T perm fblock m block_idx
                    zero_stream in
     0 <= get_ebits T < 64 -> get_ebits T + 1 <= B ->
     m_current_bit (run B) < B ->
     block_output (run b) `prefix_of` block_output (run B)).
Proof.
  intros Hidx Hb Hend.
  assert (HB : block_idx * B + B < 2 ^ 32) by lia.
  assert (Hbb : block_idx * b + B < 2 ^ 32) by nia.
  split.
  - intros k iblock run Hstop.
    pose proof (zfp_encode_block_int_writes bs zero_stream B block_idx
                  Hidx ltac:(lia) k perm iblock
                  (zero_stream_clear _ _) HB) as WB.
    pose proof (zfp_encode_block_int_writes bs zero_stream b block_idx
                  Hidx ltac:(lia) k perm iblock
                  (zero_stream_clear _ _) ltac:(lia)) as Wb.
    fold (run B) in WB. fold (run b) in Wb.
    pose proof (writes_cursor _ _ _ _ WB) as Hc.
    rewrite length_take in Hc.
    rewrite (writes_output _ _ _ _ WB), (writes_output _ _ _ _ Wb).
    rewrite (take_ge _ (Z.to_nat B)) by lia.
    apply take_prefix.
  - intros T fblock run Hebits Hhdr Hstop.
    destruct (Z.eq_dec (block_e bs T fblock) 0) as [E0 | E0].
    + unfold run. rewrite !zfp_encode_block_e0 by assumption. reflexivity.
    + set (code := emit_block bs (traits_int T) perm (block_maxprec bs T fblock)
                     (fwd_cast T bs fblock (max_exponent T bs fblock))).
      assert (EB : u32 (B - (get_ebits T + 1)) = B - (get_ebits T + 1))
        by (apply u32_small; lia).
      pose proof (zfp_encode_block_writes bs T perm fblock zero_stream B
                    block_idx B Hidx ltac:(lia) Hebits
                    (zero_stream_clear _ _) HB E0) as WB.
      rewrite EB in WB. specialize (WB ltac:(lia)). fold (run B) in WB.
      pose proof (writes_cursor _ _ _ _ WB) as Hc.
      rewrite length_app, bits_of_length, length_take in Hc. fold code in Hc.
      assert (Hcode : Z.of_nat (length code) < B - (get_ebits T + 1)) by lia.
      pose proof (u32_range (b - (get_ebits T + 1))) as Hbud.
      pose proof (zfp_encode_block_writes bs T perm fblock zero_stream b
                    block_idx B Hidx ltac:(lia) Hebits
                    (zero_stream_clear _ _) Hbb E0) as Wb.
      fold code in Wb. specialize (Wb ltac:(lia)). fold (run b) in Wb.
      rewrite (writes_output _ _ _ _ WB), (writes_output _ _ _ _ Wb).
      fold code. rewrite (take_ge code (Z.to_nat (B - _))) by lia.
      apply prefix_app, take_prefix.
Qed.

Lemma truncation_is_prefix_witness :
  block_output
    (zfp_encode_block B4 double_traits perm_1
       [one_double; one_double; one_double; one_double] 16 0 zero_stream)
  `prefix_of`
  block_output
    (zfp_encode_block B4 double_traits perm_1
       [one_double; one_double; one_double; one_double] 1024 0 zero_stream).
Proof.
  pose proof (truncation_is_prefix B4 perm_1 0 16 1024
                ltac:(lia) ltac:(lia) ltac:(reflexivity)) as [_ Hf].
  refine (Hf double_traits
            [one_double; one_double; one_double; one_double] _ _ _).
  - cbn. lia.
  - cbn. lia.
  - vm_compute. reflexivity.
Defined.

(* ================================================================= *)
(** ** Exponent *)

Lemma digits2_pos_bounds m :
  2 ^ (Z.pos (digits2_pos m) - 1) <= Z.pos m < 2 ^ Z.pos (digits2_pos m).
Proof.
  induction m as [p IH | p IH |]; cbn [digits2_pos].
  - rewrite Pos2Z.inj_succ.
    replace (Z.succ (Z.pos (digits2_pos p)) - 1)
      with (Z.succ (Z.pos (digits2_pos p) - 1)) by lia.
    rewrite !Z.pow_succ_r by lia.
    change (Z.pos p~1) with (2 * Z.pos p + 1). lia.
  - rewrite Pos2Z.inj_succ.
    replace (Z.succ (Z.pos (digits2_pos p)) - 1)
      with (Z.succ (Z.pos (digits2_pos p) - 1)) by lia.
    rewrite !Z.pow_succ_r by lia.
    change (Z.pos p~0) with (2 * Z.pos p). lia.
  - cbn. lia.
Qed.

(** A valid float of a format meets the side conditions of the
    theorem below: its mantissa has at most [prec] digits and its
    [frexp] exponent lies between [4 - emax - prec] and [emax]. *)
Lemma valid_binary_bounds prec emax s m e :
  valid_binary prec emax (S754_finite s m e) = true ->
  Z.pos (digits2_pos m) <= prec /\
  4 - emax - prec <= e + Z.pos (digits2_pos m) <= emax.
Proof.
  cbn [valid_binary]. unfold bounded, canonical_mantissa, fexp, emin.
  intros H. apply andb_prop in H as [H1 H2].
  apply Z.eqb_eq in H1. apply Z.leb_le in H2.
  pose proof (Pos2Z.is_pos (digits2_pos m)). lia.
Qed.

(** C4, amended. For a positive finite [x = m * 2 ^ e], [exponent]
    returns [max (E, 1 - ebias)] where [E] is the exponent of [frexp]:
    [2 ^ (E - 1) <= x < 2 ^ E], that is [x = f * 2 ^ E] with
    [1/2 <= f < 1] (stated on the mantissa as
    [2 ^ (E - 1 - e) <= m < 2 ^ (E - e)]). So the double block of four
    1.0 has [emax = 1] and biased exponent [e = 1024], and its first 12
    bits hold the header value [2 * 1024 + 1 = 2049]. *)
Theorem exponent_spec :
  (forall (T : ScalarTraits) (m : positive) (e : Z),
     Z.pos (digits2_pos m) <= fmt_prec T ->
     - 2 ^ 31 <= e + Z.pos (digits2_pos m) < 2 ^ 31 ->
     - 2 ^ 31 <= 1 - get_ebias T < 2 ^ 31 ->
     let E := e + Z.pos (digits2_pos m) in
     exponent T (S754_finite false m e) = Z.max E (1 - get_ebias T) /\
     2 ^ (E - 1 - e) <= Z.pos m < 2 ^ (E - e)) /\
  (let fblock := [one_double; one_double; one_double; one_double] in
   max_exponent double_traits B4 fblock = 1 /\
   block_e B4 double_traits fblock = 1024 /\
   take 12 (block_output
              (zfp_encode_block B4 double_traits perm_1 fblock 32 0
                 zero_stream))
   = bits_of (2 * 1024 + 1) 12).
Proof.
  split.
  - intros T m e Hd HE Hb E. split.
    + unfold exponent. cbn [SFltb SFcompare fzero].
      unfold frexp_exp, SFfrexp.
      rewrite (int32_small (1 - get_ebias T)) by assumption.
      f_equal.
      destruct (Z.leb_spec (fmt_prec T) (Z.pos (digits2_pos m))); cbn [snd].
      * replace (e + fmt_prec T) with E by (unfold E; lia).
        now apply int32_small.
      * replace (e + fmt_prec T - (fmt_prec T - Z.pos (digits2_pos m)))
          with E by (unfold E; lia).
        now apply int32_small.
    + pose proof (digits2_pos_bounds m) as B.
      replace (E - 1 - e) with (Z.pos (digits2_pos m) - 1) by (unfold E; lia).
      replace (E - e) with (Z.pos (digits2_pos m)) by (unfold E; lia).
      exact B.
  - cbv zeta. repeat split; vm_compute; reflexivity.
Qed.

Lemma exponent_spec_witness :
  exponent double_traits one_double = Z.max (-52 + 53) (1 - 1023).
Proof.
  destruct exponent_spec as [H _].
  refine (proj1 (H double_traits 4503599627370496%positive (-52) _ _ _));
    cbn; lia.
Defined.

(** C4 as stated fails: [frexp] puts the mantissa in [1/2, 1), so
    [exponent 1.0] is 1, not 0; the block of four 1.0 has [emax = 1],
    biased exponent 1024 and header 2049, not 0, 1023 and 2047. *)
Lemma exponent_counterexample :
  let fblock := [one_double; one_double; one_double; one_double] in
  exponent double_traits one_double = 1 /\
  max_exponent double_traits B4 fblock <> 0 /\
  block_e B4 double_traits fblock <> 1023 /\
  take 12 (block_output
             (zfp_encode_block B4 double_traits perm_1 fblock 32 0
                zero_stream))
  <> bits_of (2 * 1023 + 1) 12.
Proof. cbv zeta. repeat split; vm_compute; discriminate. Qed.

(* ================================================================= *)
(** ** The iteration bounds of the unary loops are never reached

    [unary_inner] and [unary_outer] recurse on a bound of [BlockSize]
    iterations. Each iteration increases [n], which stays below
    [BlockSize], so the bound is not reached: a larger one gives the
    same result. *)

Section Fuel.
Variable bs : BlockSize.

Let BS := Z.of_nat (bsize bs).

Lemma unary_inner_n fuel : forall w bits x n,
0 <= n ->
n <= (unary_inner bs fuel w bits x n).2 <= Z.max n (BS - 1).
Proof.
pose proof (bsize_bounds bs) as HBS.
induction fuel as [|fuel IH]; intros w bits x n Hn; [cbn; lia|].
rewrite unary_inner_S. fold BS.
rewrite (u32_small (BS - 1)) by (rewrite pow2_32; unfold BS; lia).
destruct (Z.ltb_spec n (BS - 1)); cbn [andb]; [|cbn; lia].
destruct (negb (bits =? 0)); [|cbn; lia].
destruct (u32 (Z.land x 1) =? 0); [|cbn; lia].
rewrite (u32_small (n + 1)) by (rewrite pow2_32; unfold BS in *; lia).
specialize (IH (snd (write_bit w (u32 (Z.land x 1)))) (u32 (bits - 1))
               (Z.shiftr x 1) (n + 1) ltac:(lia)).
lia.
Qed.

Lemma unary_inner_fuel fuel extra : forall w bits x n,
0 <= n -> BS - 1 - n <= Z.of_nat fuel ->
unary_inner bs (fuel + extra) w bits x n = unary_inner bs fuel w bits x n.
Proof.
pose proof (bsize_bounds bs) as HBS.
induction fuel as [|fuel IH]; intros w bits x n Hn Hf.
- destruct extra as [|extra]; [reflexivity|].
  cbn [Nat.add]. rewrite unary_inner_S. fold BS.
  rewrite (u32_small (BS - 1)) by (rewrite pow2_32; unfold BS; lia).
  destruct (Z.ltb_spec n (BS - 1)); [lia|reflexivity].
- cbn [Nat.add]. rewrite !unary_inner_S. fold BS.
  rewrite (u32_small (BS - 1)) by (rewrite pow2_32; unfold BS; lia).
  destruct (Z.ltb_spec n (BS - 1)); cbn [andb]; [|reflexivity].
  destruct (negb (bits =? 0)); [|reflexivity].
  destruct (u32 (Z.land x 1) =? 0); [|reflexivity].
  rewrite (u32_small (n + 1)) by (rewrite pow2_32; unfold BS in *; lia).
  apply IH; lia.
Qed.

Lemma unary_outer_fuel fuel extra : forall w bits x n,
0 <= n -> BS - n <= Z.of_nat fuel ->
unary_outer bs (fuel + extra) w bits x n = unary_outer bs fuel w bits x n.
Proof.
pose proof (bsize_bounds bs) as HBS.
induction fuel as [|fuel IH]; intros w bits x n Hn Hf.
- destruct extra as [|extra]; [reflexivity|].
  cbn [Nat.add]. rewrite unary_outer_S. fold BS.
  destruct (Z.ltb_spec n BS); [lia|reflexivity].
- cbn [Nat.add]. rewrite !unary_outer_S. fold BS.
  destruct (Z.ltb_spec n BS); cbn [andb]; [|reflexivity].
  destruct (negb (bits =? 0)); [|reflexivity].
  cbv zeta.
  destruct (negb ((if x =? 0 then 0 else 1) =? 0)); [|reflexivity].
  pose proof (unary_inner_n (bsize bs)
                (snd (write_bit w (if x =? 0 then 0 else 1)))
                (u32 (bits - 1)) x n Hn) as Bn.
  fold BS in Bn.
  rewrite (u32_small (_ + 1)) by (rewrite pow2_32; unfold BS in *; lia).
  apply IH; lia.
Qed.
End Fuel.

(* ================================================================= *)
(** ** How long the code of a block can get

    A bit plane costs at most [2 * BlockSize + 1] bits, so a block of
    64 planes of 64 coefficients costs at most [64 * 129] bits: budgets
    beyond that are never used up. *)

Section CodeLength.
Variable bs : BlockSize.

Let BS := Z.of_nat (bsize bs).

Lemma emit_inner_length fuel : forall x n,
  let e := emit_inner bs fuel x n in
  Z.of_nat (length e.1.1) <= e.2 - n + 1 /\ n <= e.2.
Proof.
  induction fuel as [|fuel IH]; intros x n; cbn -[Z.of_nat]; [cbn; lia|].
  destruct (n <? _); [|cbn; lia].
  destruct (Z.land x 1 =? 0); [|cbn; lia].
  specialize (IH (Z.shiftr x 1) (n + 1)).
  destruct (emit_inner bs fuel (Z.shiftr x 1) (n + 1)) as [[o x'] n'].
  cbn [fst snd length] in *. lia.
Qed.

Lemma emit_outer_length fuel : forall x n,
  let e := emit_outer bs fuel x n in
  Z.of_nat (length e.1.1) <= 2 * (e.2 - n) + 1 /\ n <= e.2.
Proof.
  induction fuel as [|fuel IH]; intros x n;
    cbn -[Z.of_nat emit_inner]; [cbn; lia|].
  destruct (n <? _); [|cbn; lia].
  destruct (x =? 0); [cbn; lia|].
  pose proof (emit_inner_length (bsize bs) x n) as I.
  destruct (emit_inner bs (bsize bs) x n) as [[o1 x1] n1].
  specialize (IH (Z.shiftr x1 1) (n1 + 1)).
  destruct (emit_outer bs fuel (Z.shiftr x1 1) (n1 + 1)) as [[o2 x2] n2].
  cbn [fst snd length] in *. rewrite length_app. lia.
Qed.

Lemma emit_plane_length ublock k n :
  0 <= n <= BS ->
  Z.of_nat (length (emit_plane bs ublock k n).1) <= 2 * BS + 1.
Proof.
  intros Hn.
  pose proof (emit_plane_bounds bs ublock k n Hn) as B.
  unfold emit_plane in *.
  pose proof (emit_outer_length (bsize bs)
                (Z.shiftr (bit_plane bs ublock k) n) n) as O.
  destruct (emit_outer bs (bsize bs) _ n) as [[o x'] n'].
  cbn [fst snd] in *. rewrite length_app, bits_of_length.
  fold BS in B. lia.
Qed.

Lemma emit_planes_length ublock kmin k : forall n,
  0 <= n <= BS ->
  Z.of_nat (length (emit_planes bs ublock kmin k n))
  <= Z.of_nat k * (2 * BS + 1).
Proof.
  induction k as [|k IH]; intros n Hn; [cbn; lia|].
  cbn [emit_planes].
  destruct (kmin <? Z.of_nat (S k)); [|cbn [length]; nia].
  pose proof (emit_plane_length ublock (Z.of_nat k) n Hn) as P.
  pose proof (emit_plane_bounds bs ublock (Z.of_nat k) n Hn) as B.
  destruct (emit_plane bs ublock (Z.of_nat k) n) as [o n'].
  cbn [fst snd] in *. fold BS in B.
  specialize (IH n' ltac:(lia)).
  rewrite length_app. nia.
Qed.

Lemma emit_block_length k perm maxprec iblock :
  Z.of_nat (length (emit_block bs k perm maxprec iblock)) <= 64 * 129.
Proof.
  unfold emit_block.
  pose proof (bsize_bounds bs) as HBS.
  match goal with |- context [emit_planes bs ?u ?km ?n 0] =>
    pose proof (emit_planes_length u km n 0 ltac:(unfold BS; lia)) as L
  end.
  assert (Hk : Z.of_nat (Z.to_nat (u32 (8 * (int_bits k / 8)))) <= 64)
    by (destruct k; vm_compute; discriminate).
  unfold BS in L.
  set (len := Z.of_nat (length _)) in *.
  set (K := Z.of_nat (Z.to_nat _)) in *.
  assert (0 <= K) by (unfold K; lia).
  nia.
Qed.
End CodeLength.

(** A budget above [64 * 129 + 64] is large enough for every block:
    the encoder stops short of it. *)
Lemma large_budget_not_used_up (bs : BlockSize) (perm : list nat)
      (block_idx B : Z) :
  0 <= block_idx -> 64 * 129 + 64 < B -> (block_idx + 1) * B < 2 ^ 32 ->
  (forall k iblock,
     m_current_bit
       (zfp_encode_block_int bs k perm iblock B block_idx zero_stream) < B) /\
  (forall T fblock,
     0 <= get_ebits T < 64 ->
     m_current_bit
       (zfp_encode_block bs T perm fblock B block_idx zero_stream) < B).
Proof.
  intros Hidx HB Hend.
  assert (Hlen : block_idx * B + B < 2 ^ 32) by lia.
  split.
  - intros k iblock.
    pose proof (zfp_encode_block_int_writes bs zero_stream B block_idx
                  Hidx ltac:(lia) k perm iblock
                  (zero_stream_clear _ _) Hlen) as W.
    rewrite (writes_cursor _ _ _ _ W), length_take.
    pose proof (emit_block_length bs k perm (get_precision_int k) iblock).
    lia.
  - intros T fblock Hebits.
    destruct (Z.eq_dec (block_e bs T fblock) 0) as [E0 | E0].
    + rewrite zfp_encode_block_e0 by assumption. cbn. lia.
    + pose proof (zfp_encode_block_writes bs T perm fblock zero_stream B
                    block_idx B Hidx ltac:(lia) Hebits
                    (zero_stream_clear _ _) Hlen E0) as W.
      rewrite (u32_small (B - (get_ebits T + 1))) in W by lia.
      specialize (W ltac:(lia)).
      rewrite (writes_cursor _ _ _ _ W).
      rewrite length_app, bits_of_length, length_take.
      pose proof (emit_block_length bs (traits_int T) perm
                    (block_maxprec bs T fblock)
                    (fwd_cast T bs fblock (max_exponent T bs fblock))).
      lia.
Qed.

(* ================================================================= *)
(** ** The encoder at work *)

(** An [int] block of 4 at [maxbits = 256], block 3: the code lies in
    word 12, bits 768 onward; the words around it stay zero. *)
Example int_block_in_slot :
  let w' := zfp_encode_block_int B4 I32 perm_1 [-1; 0; 0; 0] 256 3
              zero_stream in
  m_word_index w' = 12 /\ m_start_bit w' = 0 /\ m_current_bit w' = 38 /\
  map (m_stream w') [10; 11; 12; 13; 16] = [0; 0; 97710505984; 0; 0].
Proof. vm_compute. repeat split. Qed.

(** A block that starts 57 bits into word 2 and ends in word 3:
    [maxbits = 37], block 5. Words 1 and 4 are untouched. *)
Example straddling_block :
  let w' := zfp_encode_block B4 double_traits perm_1
              [one_double; one_double; one_double; one_double]
              37 5 zero_stream in
  m_word_index w' = 2 /\ m_start_bit w' = 57 /\ m_current_bit w' = 37 /\
  m_stream w' 1 = 0 /\ m_stream w' 4 = 0 /\
  block_output w' = take 37 (block_output
    (zfp_encode_block B4 double_traits perm_1
       [one_double; one_double; one_double; one_double]
       1024 5 zero_stream)).
Proof. vm_compute. repeat split. Qed.

(* ================================================================= *)
(** * Further results *)

(** ** Negabinary map *)

Lemma lxor_step u c :
  Z.lxor u c = 2 * Z.lxor (Z.div2 u) (Z.div2 c)
               + Z.b2z (xorb (Z.odd u) (Z.odd c)).
Proof.
  rewrite (Z.div2_odd (Z.lxor u c)) at 1.
  rewrite <- Z.bit0_odd, Z.lxor_spec, !Z.bit0_odd.
  rewrite !Z.div2_spec, Z.shiftr_lxor. reflexivity.
Qed.

Lemma div2_range w u : 0 <= u < 2 ^ Z.of_nat (S w) -> 0 <= Z.div2 u < 2 ^ Z.of_nat w.
Proof.
  intros H. rewrite Nat2Z.inj_succ, Z.pow_succ_r in H by lia.
  rewrite Z.div2_div. split.
  - apply Z.div_pos; lia.
  - apply Z.div_lt_upper_bound; lia.
Qed.

(** In base -2 the digits of [u] are worth [(u XOR A) - A], and their
    negation [(u XOR B) - B], for the alternating masks [A] and [B]. *)
Lemma nb_value_masks w : forall u,
  0 <= u < 2 ^ Z.of_nat w ->
  nb_value w u = Z.lxor u (alt_masks w).1 - (alt_masks w).1 /\
  - nb_value w u = Z.lxor u (alt_masks w).2 - (alt_masks w).2.
Proof.
  induction w as [|w IH]; intros u Hu.
  - change (2 ^ Z.of_nat 0) with 1 in Hu. assert (u = 0) by lia.
    subst u. split; reflexivity.
  - cbn [nb_value alt_masks].
    destruct (IH (Z.div2 u) (div2_range w u Hu)) as [IH1 IH2].
    destruct (alt_masks w) as [a b]. cbn [fst snd] in *.
    assert (D1 : Z.div2 (2 * b) = b)
      by (rewrite Z.div2_div, Z.mul_comm; apply Z.div_mul; lia).
    assert (O1 : Z.odd (2 * b) = false)
      by (rewrite Z.odd_mul; reflexivity).
    assert (D2 : Z.div2 (2 * a + 1) = a).
    { rewrite Z.div2_div. symmetry. apply (Z.div_unique _ _ _ 1); lia. }
    assert (O2 : Z.odd (2 * a + 1) = true).
    { rewrite Z.add_comm, Z.odd_add_mul_2. reflexivity. }
    rewrite (lxor_step u (2 * b)), (lxor_step u (2 * a + 1)).
    rewrite D1, O1, D2, O2.
    destruct (Z.odd u); cbn [xorb Z.b2z negb]; lia.
Qed.

Lemma alt_masks_nbmask k : (alt_masks (Z.to_nat (int_bits k))).1 = nbmask k.
Proof. destruct k; vm_compute; reflexivity. Qed.

Lemma int2uint_unmask k x :
  Z.lxor (int2uint k x) (nbmask k)
  = to_uint (int_bits k) (to_uint (int_bits k) x + nbmask k).
Proof.
  unfold int2uint. cbv zeta.
  now rewrite Z.lxor_assoc, Z.lxor_nilpotent, Z.lxor_0_r.
Qed.

(** X1. [int2uint] gives the negabinary digits of its argument: for
    every [x] of the signed type up to [0x55...5] (the largest value
    that [w] digits of base -2 can hold), the digits of [int2uint x],
    digit [i] weighing [(-2) ^ i], add up to [x]. *)
Theorem int2uint_negabinary (k : IntKind) (x : Z) :
  - 2 ^ (int_bits k - 1) <= x <= nbmask k / 2 ->
  nb_value (Z.to_nat (int_bits k)) (int2uint k x) = x.
Proof.
  intros Hx.
  pose proof (int2uint_range k x) as R.
  destruct (nb_value_masks (Z.to_nat (int_bits k)) (int2uint k x)) as [V _].
  { rewrite Z2Nat.id by (destruct k; discriminate). exact R. }
  rewrite V, alt_masks_nbmask, int2uint_unmask. unfold to_uint.
  destruct k; cbn [int_bits nbmask] in *.
  - change (2 ^ 32) with 4294967296. change (2 ^ (32 - 1)) with 2147483648 in Hx.
    Z.div_mod_to_equations. lia.
  - change (2 ^ 64) with 18446744073709551616.
    change (2 ^ (64 - 1)) with 9223372036854775808 in Hx.
    Z.div_mod_to_equations. lia.
Qed.

Lemma int2uint_negabinary_witness :
  nb_value 32 (int2uint I32 (-2147483648)) = -2147483648 /\
  nb_value 64 (int2uint I64 0x5555555555555555) = 0x5555555555555555.
Proof.
  split.
  - apply (int2uint_negabinary I32). split; vm_compute; discriminate.
  - apply (int2uint_negabinary I64). split; vm_compute; discriminate.
Defined.

(** X2. [int2uint] maps the signed type one-to-one into the unsigned
    type of the same width: the result lies in [0, 2 ^ w), and two
    values of the signed type with the same image are equal. *)
Theorem int2uint_injective (k : IntKind) (x y : Z) :
  in_range k x -> in_range k y ->
  0 <= int2uint k x < 2 ^ int_bits k /\
  (int2uint k x = int2uint k y -> x = y).
Proof.
  intros Hx Hy. split; [apply int2uint_range|].
  intros E. apply (f_equal (fun u => Z.lxor u (nbmask k))) in E.
  rewrite !int2uint_unmask in E. unfold to_uint, in_range in *.
  destruct k; cbn [int_bits nbmask] in *.
  - change (2 ^ 32) with 4294967296 in E.
    change (2 ^ (32 - 1)) with 2147483648 in Hx, Hy.
    Z.div_mod_to_equations. lia.
  - change (2 ^ 64) with 18446744073709551616 in E.
    change (2 ^ (64 - 1)) with 9223372036854775808 in Hx, Hy.
    Z.div_mod_to_equations. lia.
Qed.

Lemma int2uint_injective_witness :
  0 <= int2uint I32 (-1) < 2 ^ 32 /\
  (int2uint I32 (-1) = int2uint I32 (-1) -> -1 = -1).
Proof.
  apply (int2uint_injective I32 (-1) (-1)); unfold in_range; cbn; lia.
Defined.

(* ================================================================= *)
(** ** Precision *)

(** X3. Where [maxexp - minexp + 8] fits [int], [precision] lies in
    [0 .. maxprec]; it is 0 exactly when [maxprec] is 0 or
    [maxexp + 8 <= minexp], the case in which the floating-point driver
    drops the block; and it never decreases when the exponent grows. *)
Theorem precision_bounds (maxexp maxprec minexp : Z) :
  0 <= maxprec ->
  - 2 ^ 31 <= maxexp - minexp < 2 ^ 31 - 8 ->
  0 <= precision maxexp maxprec minexp <= maxprec /\
  (precision maxexp maxprec minexp = 0 <->
   maxprec = 0 \/ maxexp + 8 <= minexp) /\
  (forall maxexp',
     maxexp <= maxexp' -> maxexp' - minexp < 2 ^ 31 - 8 ->
     precision maxexp maxprec minexp <= precision maxexp' maxprec minexp).
Proof.
  intros Hp Hov. rewrite precision_spec by assumption.
  split; [lia|]. split; [lia|].
  intros maxexp' Hle Hov'. rewrite precision_spec by lia. lia.
Qed.

Lemma precision_bounds_witness :
  0 <= precision (-1074) 64 (-1074) <= 64 /\
  (precision (-1074) 64 (-1074) = 0 <-> 64 = 0 \/ -1074 + 8 <= -1074) /\
  (forall maxexp',
     -1074 <= maxexp' -> maxexp' - -1074 < 2 ^ 31 - 8 ->
     precision (-1074) 64 (-1074) <= precision maxexp' 64 (-1074)).
Proof. apply precision_bounds; lia. Defined.

(* ================================================================= *)
(** ** Partial-block padding *)

(** X4. [pad_block] keeps the length of the array, writes nowhere but
    at the four strided entries, and with a count of 4 or more writes
    nothing at all. *)
Theorem pad_block_frame {Scalar : Type} `{!Inhabited Scalar}
        (zero : Scalar) (p : list Scalar) (n s : Z) :
  length (pad_block zero p n s) = length p /\
  (forall j, j <> pidx 0 s -> j <> pidx 1 s -> j <> pidx 2 s ->
             j <> pidx 3 s ->
             pad_block zero p n s !!! j = p !!! j) /\
  (4 <= n -> pad_block zero p n s = p).
Proof.
  unfold pad_block, pad_case3, pad_case2, pad_case1, pad_case0.
  split; [|split].
  - repeat (destruct (_ =? _)); rewrite ?length_insert; reflexivity.
  - intros j H0 H1 H2 H3.
    repeat (destruct (_ =? _));
      rewrite ?list_lookup_total_insert_ne by congruence; reflexivity.
  - intros Hn.
    destruct (Z.eqb_spec n 0); [lia|]. destruct (Z.eqb_spec n 1); [lia|].
    destruct (Z.eqb_spec n 2); [lia|]. destruct (Z.eqb_spec n 3); [lia|].
    reflexivity.
Qed.

(* ================================================================= *)
(** ** Lifting transform *)

(** X5. [fwd_lift] keeps the length of the block and writes nowhere
    but at the four strided entries; when these are in bounds and the
    stride is not 0, they hold the lifted 4-vector afterwards. *)
Theorem fwd_lift_frame (k : IntKind) (s : nat) (p : list Z) (off : nat) :
  let p' := fwd_lift k s p off in
  length p' = length p /\
  (forall j, j <> off -> j <> (off + s)%nat -> j <> (off + 2 * s)%nat ->
             j <> (off + 3 * s)%nat -> p' !!! j = p !!! j) /\
  ((0 < s)%nat -> (off + 3 * s < length p)%nat ->
   (p' !!! off, p' !!! (off + s)%nat, p' !!! (off + 2 * s)%nat,
    p' !!! (off + 3 * s)%nat)
   = fwd_lift4 k (p !!! off, p !!! (off + s)%nat, p !!! (off + 2 * s)%nat,
                  p !!! (off + 3 * s)%nat)).
Proof.
  cbv zeta. unfold fwd_lift.
  destruct (fwd_lift4 k _) as [[[x y] z] w].
  split; [|split].
  - now rewrite !length_insert.
  - intros j H0 H1 H2 H3.
    now rewrite !list_lookup_total_insert_ne by congruence.
  - intros Hs Hb.
    rewrite list_lookup_total_insert_eq by (rewrite !length_insert; lia).
    rewrite (list_lookup_total_insert_ne _ off) by lia.
    rewrite list_lookup_total_insert_eq by (rewrite !length_insert; lia).
    rewrite !(list_lookup_total_insert_ne _ off) by lia.
    rewrite !(list_lookup_total_insert_ne _ (off + s)%nat) by lia.
    rewrite list_lookup_total_insert_eq by (rewrite !length_insert; lia).
    rewrite !(list_lookup_total_insert_ne _ (off + 2 * s)%nat) by lia.
    rewrite list_lookup_total_insert_eq by lia.
    reflexivity.
Qed.

Lemma fwd_lift_frame_witness :
  (fwd_lift I32 4 (replicate 16 5) 1 !!! 1%nat,
   fwd_lift I32 4 (replicate 16 5) 1 !!! 5%nat,
   fwd_lift I32 4 (replicate 16 5) 1 !!! 9%nat,
   fwd_lift I32 4 (replicate 16 5) 1 !!! 13%nat)
  = fwd_lift4 I32 (5, 5, 5, 5).
Proof.
  apply (fwd_lift_frame I32 4 (replicate 16 5) 1); cbn; lia.
Defined.

Lemma pad_block_frame_witness :
  pad_block 0 [1; 2; 3] 4 1 = [1; 2; 3].
Proof. apply (pad_block_frame 0 [1; 2; 3] 4 1). lia. Defined.

Lemma wrap_0 k : wrap k 0 = 0.
Proof. destruct k; reflexivity. Qed.

Lemma fwd_lift4_zero k : fwd_lift4 k (0, 0, 0, 0) = (0, 0, 0, 0).
Proof. destruct k; reflexivity. Qed.

Lemma fwd_lift4_const k c :
  - 2 ^ (int_bits k - 2) <= c < 2 ^ (int_bits k - 2) ->
  fwd_lift4 k (c, c, c, c) = (c, 0, 0, 0).
Proof.
  intros Hc.
  assert (R2 : in_range k (c + c)).
  { unfold in_range.
    replace (int_bits k - 1) with (Z.succ (int_bits k - 2)) by lia.
    rewrite Z.pow_succ_r by (destruct k; cbn; lia). lia. }
  assert (H2 : Z.shiftr (c + c) 1 = c).
  { rewrite Z.shiftr_div_pow2 by lia. change (2 ^ 1) with 2.
    replace (c + c) with (c * 2) by lia. apply Z.div_mul. lia. }
  unfold fwd_lift4.
  rewrite (wrap_small k (c + c) R2), H2, Z.sub_diag, wrap_0.
  rewrite (wrap_small k (c + c) R2), H2, Z.sub_diag, wrap_0.
  repeat first [ progress change (0 - 0) with 0
               | progress change (0 + 0) with 0
               | progress change (Z.shiftr 0 1) with 0
               | rewrite wrap_0 ].
  reflexivity.
Qed.

Lemma fwd_xform_gen k bs p : fwd_xform k bs p = xform_gen (fwd_lift4 k) bs p.
Proof.
  unfold fwd_xform, xform_gen, fwd_lift, lift_gen.
  destruct bs; reflexivity.
Qed.

Lemma for_range_rel {A B} (R : A -> B -> Prop) n
      (fa : nat -> A -> A) (fb : nat -> B -> B) a b :
  (forall i a b, R a b -> R (fa i a) (fb i b)) ->
  R a b -> R (for_range n fa a) (for_range n fb b).
Proof.
  intros Hstep. unfold for_range. generalize (seq 0 n). intros l.
  revert a b. induction l as [|i l IH]; intros a b Hab; [exact Hab|].
  cbn. apply IH, Hstep, Hab.
Qed.

Section KindFacts.
Variables (k : IntKind) (c : Z).
Hypothesis Hc : - 2 ^ (int_bits k - 2) <= c < 2 ^ (int_bits k - 2).

Lemma has_kind_lookup (a : list Kind) (p : list Z) i :
  Forall2 (has_kind c) a p -> has_kind c (a !!! i) (p !!! i).
Proof using Type.
  intros H. rewrite !list_lookup_total_alt.
  destruct (a !! i) as [x|] eqn:Ea.
  - destruct (Forall2_lookup_l _ _ _ _ _ H Ea) as (y & Ep & Hxy).
    now rewrite Ep.
  - exact I.
Qed.

Lemma has_kind_insert (a : list Kind) (p : list Z) i x y :
  Forall2 (has_kind c) a p -> has_kind c x y ->
  Forall2 (has_kind c) (<[i := x]> a) (<[i := y]> p).
Proof using Type. intros H Hxy. now apply Forall2_insert. Qed.

Lemma kind_lift4_sound a1 a2 a3 a4 x1 x2 x3 x4 :
  has_kind c a1 x1 -> has_kind c a2 x2 ->
  has_kind c a3 x3 -> has_kind c a4 x4 ->
  let a := kind_lift4 (a1, a2, a3, a4) in
  let x := fwd_lift4 k (x1, x2, x3, x4) in
  has_kind c a.1.1.1 x.1.1.1 /\ has_kind c a.1.1.2 x.1.1.2 /\
  has_kind c a.1.2 x.1.2 /\ has_kind c a.2 x.2.
Proof using Hc.
  intros H1 H2 H3 H4.
  destruct a1, a2, a3, a4; cbn [kind_lift4 fst snd has_kind];
    try (repeat split; exact I);
    cbn [has_kind] in *; subst.
  - rewrite (fwd_lift4_const k c Hc). repeat split.
  - rewrite fwd_lift4_zero. repeat split.
Qed.

Lemma lift_gen_sound s (a : list Kind) (p : list Z) off :
  Forall2 (has_kind c) a p ->
  Forall2 (has_kind c) (lift_gen kind_lift4 s a off)
          (lift_gen (fwd_lift4 k) s p off).
Proof using Hc.
  intros H. unfold lift_gen.
  pose proof (kind_lift4_sound _ _ _ _ _ _ _ _
                (has_kind_lookup a p off H)
                (has_kind_lookup a p (off + s) H)
                (has_kind_lookup a p (off + 2 * s) H)
                (has_kind_lookup a p (off + 3 * s) H)) as S.
  cbv zeta in S.
  destruct (kind_lift4 _) as [[[ax ay] az] aw].
  destruct (fwd_lift4 k _) as [[[x y] z] w].
  cbn [fst snd] in S. destruct S as (Sx & Sy & Sz & Sw).
  auto using has_kind_insert.
Qed.

Lemma xform_gen_sound bs (a : list Kind) (p : list Z) :
  Forall2 (has_kind c) a p ->
  Forall2 (has_kind c) (xform_gen kind_lift4 bs a)
          (xform_gen (fwd_lift4 k) bs p).
Proof using Hc.
  intros H. destruct bs; cbn [xform_gen];
    repeat (apply for_range_rel; [intros ? ? ? ?|]);
    try apply lift_gen_sound; assumption.
Qed.
End KindFacts.

Lemma has_kind_replicate c n :
  Forall2 (has_kind c) (replicate n KConst) (replicate n c).
Proof. induction n; cbn; constructor; auto. reflexivity. Qed.

Lemma has_kind_exact c n (p : list Z) :
  Forall2 (has_kind c) (KConst :: replicate n KZero) p ->
  p = c :: replicate n 0.
Proof.
  intros H. inversion H as [|? x ? q Hx Hq]; subst. cbn in Hx. subst x.
  f_equal. clear H. revert q Hq.
  induction n as [|n IH]; intros q Hq; inversion Hq; subst; [reflexivity|].
  cbn in *. f_equal; auto.
Qed.

(** X6. A block whose entries are all the same constant, with the two
    bits of headroom, transforms to that constant in the first (DC)
    coefficient and zeros elsewhere, for each of the three block
    sizes. *)
Theorem fwd_xform_constant (k : IntKind) (bs : BlockSize) (c : Z) :
  - 2 ^ (int_bits k - 2) <= c < 2 ^ (int_bits k - 2) ->
  fwd_xform k bs (replicate (bsize bs) c)
  = c :: replicate (bsize bs - 1) 0.
Proof.
  intros Hc. rewrite fwd_xform_gen.
  apply has_kind_exact.
  replace (KConst :: replicate (bsize bs - 1) KZero)
    with (xform_gen kind_lift4 bs (replicate (bsize bs) KConst))
    by (destruct bs; vm_compute; reflexivity).
  apply (xform_gen_sound k c Hc), has_kind_replicate.
Qed.

Lemma fwd_xform_constant_witness :
  fwd_xform I32 B64 (replicate 64 7) = 7 :: replicate 63 0.
Proof. apply (fwd_xform_constant I32 B64 7). cbn. lia. Defined.

(* ================================================================= *)
(** ** Reorder *)

Lemma map_lookup_seq {A} `{!Inhabited A} (l : list A) :
  map (fun i => l !!! i) (seq 0 (length l)) = l.
Proof.
  apply list_eq. intros i. rewrite list_lookup_fmap.
  destruct (lt_dec i (length l)) as [Hi | Hi].
  - rewrite lookup_seq_lt by assumption. cbn.
    symmetry. now apply list_lookup_lookup_total_lt.
  - rewrite lookup_seq_ge by lia. cbn.
    symmetry. apply lookup_ge_None. lia.
Qed.

(** X7. [fwd_order] returns [BlockSize] values of the unsigned type;
    when the table is a permutation of the block's indices, they are
    the negabinary images of the coefficients of the block, each taken
    once. *)
Theorem fwd_order_shape (k : IntKind) (bs : BlockSize) (perm : list nat)
        (iblock : list Z) :
  length (fwd_order k bs perm iblock) = bsize bs /\
  Forall (fun u => 0 <= u < 2 ^ int_bits k) (fwd_order k bs perm iblock) /\
  (perm ≡ₚ seq 0 (bsize bs) -> length iblock = bsize bs ->
   fwd_order k bs perm iblock ≡ₚ map (int2uint k) iblock).
Proof.
  unfold fwd_order. split; [|split].
  - now rewrite length_map, length_seq.
  - apply Forall_fmap, Forall_true. intros i. apply int2uint_range.
  - intros Hp Hl.
    assert (Hn : length perm = bsize bs)
      by (rewrite (Permutation_length Hp); apply length_seq).
    set (g := fun j => int2uint k (iblock !!! j)).
    transitivity (map g perm).
    + rewrite <- Hn.
      pose proof (map_map (fun i => perm !!! i) g (seq 0 (length perm))) as E.
      cbv beta in E.
      change (map (fun x => g (perm !!! x)) (seq 0 (length perm))
              ≡ₚ map g perm).
      rewrite <- E, map_lookup_seq. reflexivity.
    + rewrite (Permutation_map g Hp), <- Hl.
      pose proof (map_map (fun i => iblock !!! i) (int2uint k)
                    (seq 0 (length iblock))) as E.
      cbv beta in E. unfold g. rewrite <- E, map_lookup_seq.
      reflexivity.
Qed.

Lemma fwd_order_shape_witness :
  fwd_order I32 B4 [0; 2; 1; 3]%nat [5; -1; 0; 9]
  ≡ₚ map (int2uint I32) [5; -1; 0; 9].
Proof.
  apply (fwd_order_shape I32 B4 [0; 2; 1; 3]%nat [5; -1; 0; 9]).
  - cbn. apply perm_skip, perm_swap.
  - reflexivity.
Defined.

(* ================================================================= *)
(** ** Exponents of a block *)

Section ExponentFacts.
Variable T : ScalarTraits.
Hypothesis HT : traits_ok T.

Lemma fabs_finite x :
  is_finite T x = true -> fabs x = fzero \/ pos_finite T (fabs x).
Proof using Type.
  destruct x as [s | s | | s m e]; cbn; intros H; try discriminate.
  - now left.
  - right. exists m, e. split; [reflexivity|exact H].
Qed.

Lemma fabs_zero x : is_finite T x = true -> (fabs x = fzero <-> is_zero x).
Proof using Type.
  destruct x as [s | s | | s m e]; cbn; intros H; try discriminate.
  - split; [now exists s|reflexivity].
  - split; [discriminate|]. intros [s' E]. discriminate.
Qed.

(** The larger of two numbers that are zero or positive. *)
Lemma fmax_nonneg v f :
  (v = fzero \/ pos_finite T v) -> (f = fzero \/ pos_finite T f) ->
  (fmax v f = fzero \/ pos_finite T (fmax v f)) /\
  (fmax v f = fzero <-> v = fzero /\ f = fzero).
Proof using Type.
  intros [-> | (m & e & -> & Hv)] [-> | (m' & e' & -> & Hf)].
  - cbn. split; [now left|]. tauto.
  - cbn. split; [right; now exists m', e'|].
    split; [discriminate|]. intros [_ H]. discriminate.
  - cbn. split; [right; now exists m, e|].
    split; [discriminate|]. intros [H _]. discriminate.
  - unfold fmax.
    destruct (SFltb _ _).
    + split; [right; now exists m', e'|].
      split; [discriminate|]. intros [H _]. discriminate.
    + split; [right; now exists m, e|].
      split; [discriminate|]. intros [H _]. discriminate.
Qed.

Lemma fold_fmax (p : list spec_float) (l : list nat) : forall v,
  finite_block T p ->
  (v = fzero \/ pos_finite T v) ->
  let r := foldl (fun acc i => fmax acc (fabs (p !!! i))) v l in
  (r = fzero \/ pos_finite T r) /\
  (r = fzero <-> v = fzero /\ Forall (fun i => is_zero (p !!! i)) l).
Proof using Type.
  induction l as [|i l IH]; intros v Hp Hv; cbn [foldl].
  - split; [exact Hv|]. split; [intros ->; split; [reflexivity|constructor]|tauto].
  - assert (Hfi : is_finite T (p !!! i) = true).
    { rewrite list_lookup_total_alt.
      destruct (p !! i) as [f|] eqn:E; [|reflexivity].
      unfold finite_block in Hp. rewrite Forall_lookup in Hp.
      exact (Hp i f E). }
    destruct (fmax_nonneg v (fabs (p !!! i)) Hv (fabs_finite _ Hfi))
      as [Hn Hz].
    destruct (IH (fmax v (fabs (p !!! i))) Hp Hn) as [IH1 IH2].
    split; [exact IH1|].
    rewrite IH2, Hz, (fabs_zero _ Hfi), Forall_cons. tauto.
Qed.

Lemma SFfrexp_exponent prec emax s m e :
  Z.pos (digits2_pos m) <= prec ->
  snd (SFfrexp prec emax (S754_finite s m e)) = e + Z.pos (digits2_pos m).
Proof using Type.
  intros Hd. unfold SFfrexp.
  destruct (Z.leb_spec prec (Z.pos (digits2_pos m))); cbn [snd]; lia.
Qed.

Lemma exponent_pos_finite v :
  pos_finite T v -> 1 - get_ebias T <= exponent T v <= fmt_emax T.
Proof using HT.
  destruct HT as (Hp & He & Hb & Hbe & _).
  intros (m & e & -> & Hv).
  destruct (valid_binary_bounds _ _ _ _ _ Hv) as [Hd HE].
  unfold exponent, frexp_exp. cbn [SFltb SFcompare fzero].
  rewrite SFfrexp_exponent by assumption.
  rewrite !int32_small by lia. lia.
Qed.

(** The scan of [max_exponent]: zero for an all-zero block, else a
    positive finite number. *)
Lemma max_val_spec bs (p : list spec_float) :
  finite_block T p ->
  let r := for_range (bsize bs)
             (fun i max_val => fmax max_val (fabs (p !!! i))) fzero in
  (r = fzero \/ pos_finite T r) /\
  (r = fzero <-> forall i, (i < bsize bs)%nat -> is_zero (p !!! i)).
Proof using Type.
  intros Hp. cbv zeta. unfold for_range.
  destruct (fold_fmax p (seq 0 (bsize bs)) fzero Hp (or_introl eq_refl))
    as [H1 H2].
  split; [exact H1|]. rewrite H2, Forall_forall.
  split.
  - intros [_ H] i Hi. apply H. apply elem_of_seq. lia.
  - intros H. split; [reflexivity|]. intros i Hi.
    apply elem_of_seq in Hi. apply H. lia.
Qed.

(** X8. For a block of finite numbers, [max_exponent] is [-ebias] when
    the block is all zeros and otherwise lies between [1 - ebias] and
    the largest exponent of the format. *)
Theorem max_exponent_range (bs : BlockSize) (fblock : list spec_float) :
  finite_block T fblock ->
  ((forall i, (i < bsize bs)%nat -> is_zero (fblock !!! i)) ->
   max_exponent T bs fblock = - get_ebias T) /\
  (~ (forall i, (i < bsize bs)%nat -> is_zero (fblock !!! i)) ->
   1 - get_ebias T <= max_exponent T bs fblock <= fmt_emax T).
Proof using HT.
  intros Hp. unfold max_exponent.
  destruct (max_val_spec bs fblock Hp) as [Hr Hz]. cbv zeta in *.
  destruct HT as (_ & _ & Hb & _).
  split.
  - intros Hall. rewrite (proj2 Hz Hall).
    unfold exponent. cbn. apply int32_small. lia.
  - intros Hsome. destruct Hr as [E | Hpos].
    + exfalso. exact (Hsome (proj1 Hz E)).
    + now apply exponent_pos_finite.
Qed.

(** The biased exponent of the floating-point driver: 0 for zeros
    only, and never above [emax + ebias]. *)
Lemma block_e_facts (bs : BlockSize) (fblock : list spec_float) :
  finite_block T fblock ->
  (block_e bs T fblock = 0 <->
   forall i, (i < bsize bs)%nat -> is_zero (fblock !!! i)) /\
  0 <= block_e bs T fblock <= fmt_emax T + get_ebias T.
Proof using HT.
  intros Hp.
  destruct HT as (Hpr & He & Hb & Hbe & Hprec & Hmin).
  unfold block_e, block_maxprec, max_exponent.
  destruct (max_val_spec bs fblock Hp) as [[E | Hv] Hz]; cbv zeta in *.
  - (* the scan found only zeros *)
    rewrite E. change (exponent T fzero) with (int32 (- get_ebias T)).
    rewrite int32_small by lia.
    replace (- get_ebias T + get_ebias T) with 0 by lia.
    change (u32 0) with 0.
    pose proof (proj1 Hz E) as Hall.
    destruct (_ =? 0); split; try tauto; lia.
  - (* the scan found a positive number *)
    pose proof (exponent_pos_finite _ Hv) as Hpos.
    set (emax := exponent T _) in *.
    rewrite precision_spec by lia.
    destruct (Z.eqb_spec (Z.min (get_precision T)
                            (Z.max 0 (emax - get_min_exp T + 8))) 0); [lia|].
    rewrite u32_small by (rewrite pow2_32; lia).
    split; [|lia]. split; [lia|].
    intros H. pose proof (proj2 Hz H) as E.
    destruct Hv as (m & e & Ev & _). fold fzero in E.
    rewrite Ev in E. discriminate E.
Qed.

(** X9. For a block of finite numbers the biased exponent [e] of the
    floating-point driver is 0 exactly when the block is all zeros;
    otherwise [1 <= e <= emax + ebias]. Where [emax + ebias] is below
    [2 ^ ebits], as in the IEEE formats, the header value [2 * e + 1]
    fits its [ebits + 1] bits. *)
Theorem block_e_range (bs : BlockSize) (fblock : list spec_float) :
  finite_block T fblock ->
  (block_e bs T fblock = 0 <->
   forall i, (i < bsize bs)%nat -> is_zero (fblock !!! i)) /\
  0 <= block_e bs T fblock <= fmt_emax T + get_ebias T /\
  (0 <= get_ebits T -> fmt_emax T + get_ebias T < 2 ^ get_ebits T ->
   2 * block_e bs T fblock + 1 < 2 ^ (get_ebits T + 1)).
Proof using HT.
  intros Hp.
  destruct (block_e_facts bs fblock Hp) as [M1 M2].
  split; [exact M1|]. split; [exact M2|].
  intros Hebits Hfit.
  rewrite Z.pow_add_r by lia. change (2 ^ 1) with 2. lia.
Qed.
End ExponentFacts.

Lemma double_traits_ok : traits_ok double_traits.
Proof. unfold traits_ok. cbn. lia. Qed.

Lemma float_traits_ok : traits_ok float_traits.
Proof. unfold traits_ok. cbn. lia. Qed.

Lemma max_exponent_range_witness :
  1 - 1023 <= max_exponent double_traits B4
                [one_double; S754_zero true; one_double; S754_zero false]
  <= 1024.
Proof.
  refine (proj2 (max_exponent_range double_traits double_traits_ok B4
                   [one_double; S754_zero true; one_double; S754_zero false]
                   _) _).
  - repeat constructor.
  - intros H. destruct (H 0%nat ltac:(cbn; lia)) as [s E]. discriminate E.
Defined.

Lemma block_e_range_witness :
  0 <= block_e B4 double_traits
         [one_double; S754_zero true; one_double; S754_zero false]
  <= 1024 + 1023.
Proof.
  refine (proj1 (proj2 (block_e_range double_traits double_traits_ok B4
                   [one_double; S754_zero true; one_double; S754_zero false]
                   _))).
  repeat constructor.
Defined.

(* ================================================================= *)
(** ** Block writer *)

(** X10. The constructor places the writer at bit
    [(block_idx * maxbits) mod 2 ^ 32] of the stream, the offset being
    computed in 32 bits, with a start bit below the word width and
    nothing written; it holds for every argument. *)
Theorem new_BlockWriter_position (st : Stream) (maxbits block_idx : Z) :
  let w := new_BlockWriter st maxbits block_idx in
  block_base w = u32 (block_idx * maxbits) /\
  0 <= m_start_bit w < wbits /\ 0 <= m_word_index w < 2 ^ 26 /\
  m_current_bit w = 0 /\ m_stream w = st /\ block_output w = [].
Proof.
  cbv zeta. unfold block_base, new_BlockWriter, block_output, wbits.
  cbn [m_word_index m_start_bit m_current_bit m_stream].
  pose proof (u32_range (block_idx * maxbits)) as R.
  set (x := u32 (block_idx * maxbits)) in *.
  pose proof (Z.div_mod x 64 ltac:(lia)) as E.
  pose proof (Z.mod_pos_bound x 64 ltac:(lia)) as B.
  assert (Q : 0 <= x / 64 < 2 ^ 26).
  { split; [apply Z.div_pos; lia|].
    apply Z.div_lt_upper_bound; [lia|]. rewrite pow2_32 in R. cbn. lia. }
  rewrite (u32_small (x / 64)) by (rewrite pow2_32; cbn in Q; lia).
  rewrite (u32_small (x mod 64)) by (rewrite pow2_32; lia).
  repeat split; try lia; apply Q.
Qed.

Lemma bits_of_app v a b :
  bits_of v (a + b) = bits_of v a ++ bits_of (Z.shiftr v (Z.of_nat a)) b.
Proof.
  unfold bits_of. rewrite seq_app, map_app. f_equal.
  cbn [Nat.add]. rewrite <- (Nat.add_0_r a) at 1. generalize 0%nat as s.
  induction b as [|b IH]; intros s; [reflexivity|].
  cbn [seq map]. rewrite Z.shiftr_spec by lia. f_equal; [f_equal; lia|].
  rewrite <- Nat.add_succ_r. apply (IH (S s)).
Qed.

(** X11. Writing then reading back. On a clear stretch of the stream,
    a fresh writer that writes [n1] bits of [v1], then [n2] bits of
    [v2], then the single bit [b], leaves in the stream, from its
    start on, the low [n1] bits of [v1], the low [n2] bits of [v2] and
    [b], in this order; the cursor is at [n1 + n2 + 1]; no bit outside
    the stretch has changed; and [write_bits] has returned its
    argument shifted right by the width. *)
Theorem write_then_read (st0 : Stream) (maxbits block_idx : Z)
        (v1 n1 v2 n2 b : Z) :
  0 <= block_idx -> 0 <= maxbits ->
  0 <= n1 <= 64 -> 0 <= n2 <= 64 ->
  0 <= v1 < 2 ^ 64 -> 0 <= v2 < 2 ^ 64 -> b = 0 \/ b = 1 ->
  block_idx * maxbits + (n1 + n2 + 1) < 2 ^ 32 ->
  slot_clear st0 (block_idx * maxbits) (n1 + n2 + 1) ->
  let w0 := new_BlockWriter st0 maxbits block_idx in
  let w1 := snd (write_bits w0 v1 n1) in
  let w2 := snd (write_bits w1 v2 n2) in
  let w3 := snd (write_bit w2 b) in
  block_output w3
  = bits_of v1 (Z.to_nat n1) ++ bits_of v2 (Z.to_nat n2) ++ [negb (b =? 0)] /\
  m_current_bit w3 = n1 + n2 + 1 /\
  within_slot st0 (block_idx * maxbits) (n1 + n2 + 1) w3 /\
  fst (write_bits w0 v1 n1) = Z.shiftr v1 n1 /\ fst (write_bit w2 b) = b.
Proof.
  intros Hidx Hmax Hn1 Hn2 Hv1 Hv2 Hb Hlen Hclear w0 w1 w2 w3.
  assert (Hbase : 0 <= block_idx * maxbits) by nia.
  pose proof (new_BlockWriter_writes st0 maxbits block_idx Hidx Hmax
                ltac:(lia)) as W0.
  fold w0 in W0.
  pose proof (writes_write_bits st0 _ _ Hclear Hbase Hlen [] w0 v1 n1 W0
                Hn1 Hv1 ltac:(cbn [length]; lia)) as W1.
  fold w1 in W1. cbn [app] in W1.
  pose proof (writes_write_bits st0 _ _ Hclear Hbase Hlen _ w1 v2 n2 W1
                Hn2 Hv2 ltac:(rewrite bits_of_length; lia)) as W2.
  fold w2 in W2.
  pose proof (writes_write_bit st0 _ _ Hclear Hbase Hlen _ w2 b W2 Hb
                ltac:(rewrite length_app, !bits_of_length; lia)) as W3.
  fold w3 in W3. rewrite <- app_assoc in W3.
  split; [exact (writes_output _ _ _ _ W3)|].
  split.
  { rewrite (writes_cursor _ _ _ _ W3), !length_app, !bits_of_length.
    cbn [length]. lia. }
  split.
  { unfold within_slot. apply (writes_frame _ _ _ _ _ W3).
    rewrite !length_app, !bits_of_length. cbn [length]. lia. }
  split; reflexivity.
Qed.

Lemma write_then_read_witness :
  block_output
    (snd (write_bit
            (snd (write_bits
                    (snd (write_bits (new_BlockWriter zero_stream 37 5)
                                     2049 12))
                    5 3))
            1))
  = bits_of 2049 12 ++ bits_of 5 3 ++ [true].
Proof.
  refine (proj1 (write_then_read zero_stream 37 5 2049 12 5 3 1
                   _ _ _ _ _ _ _ _ _));
    first [lia | reflexivity | apply zero_stream_clear].
Defined.

(** X12. Feeding a value in two pieces. Writing [a + b <= 64] bits of
    [v] at once, or [a] bits of [v] and then [b] bits of what
    [write_bits] returned, leaves the same bits in the stream and the
    same cursor. *)
Theorem write_bits_split (st0 : Stream) (maxbits block_idx v a b : Z) :
  0 <= block_idx -> 0 <= maxbits ->
  0 <= a -> 0 <= b -> a + b <= 64 -> 0 <= v < 2 ^ 64 ->
  block_idx * maxbits + (a + b) < 2 ^ 32 ->
  slot_clear st0 (block_idx * maxbits) (a + b) ->
  let w0 := new_BlockWriter st0 maxbits block_idx in
  let once := snd (write_bits w0 v (a + b)) in
  let first := write_bits w0 v a in
  let twice := snd (write_bits (snd first) (fst first) b) in
  m_current_bit twice = m_current_bit once /\
  forall p, bit_at (m_stream twice) p = bit_at (m_stream once) p.
Proof.
  intros Hidx Hmax Ha Hb Hab Hv Hlen Hclear w0 once first twice.
  assert (Hbase : 0 <= block_idx * maxbits) by nia.
  pose proof (new_BlockWriter_writes st0 maxbits block_idx Hidx Hmax
                ltac:(lia)) as W0.
  fold w0 in W0.
  pose proof (writes_write_bits st0 _ _ Hclear Hbase Hlen [] w0 v (a + b) W0
                ltac:(lia) Hv ltac:(cbn [length]; lia)) as Wonce.
  fold once in Wonce. cbn [app] in Wonce.
  pose proof (writes_write_bits st0 _ _ Hclear Hbase Hlen [] w0 v a W0
                ltac:(lia) Hv ltac:(cbn [length]; lia)) as W1.
  cbn [app] in W1.
  assert (Hsh : 0 <= Z.shiftr v a < 2 ^ 64).
  { rewrite Z.shiftr_div_pow2 by lia.
    assert (0 < 2 ^ a) by (apply Z.pow_pos_nonneg; lia).
    split; [apply Z.div_pos; lia|].
    apply Z.div_lt_upper_bound; [lia|]. nia. }
  pose proof (writes_write_bits st0 _ _ Hclear Hbase Hlen _ (snd first)
                (Z.shiftr v a) b W1 ltac:(lia) Hsh
                ltac:(rewrite bits_of_length; lia)) as W2.
  change (Z.shiftr v a) with (fst first) in W2 at 2. fold twice in W2.
  replace (Z.to_nat (a + b)) with (Z.to_nat a + Z.to_nat b)%nat in Wonce
    by lia.
  rewrite bits_of_app, Z2Nat.id in Wonce by lia.
  split.
  - now rewrite (writes_cursor _ _ _ _ W2), (writes_cursor _ _ _ _ Wonce).
  - intros p. destruct W2 as (_ & _ & _ & _ & B2).
    destruct Wonce as (_ & _ & _ & _ & B1). now rewrite B2, B1.
Qed.

Lemma write_bits_split_witness :
  m_current_bit
    (snd (write_bits (snd (write_bits (new_BlockWriter zero_stream 37 5)
                                      0xabcd 7))
                     (fst (write_bits (new_BlockWriter zero_stream 37 5)
                                      0xabcd 7)) 9))
  = m_current_bit
      (snd (write_bits (new_BlockWriter zero_stream 37 5) 0xabcd (7 + 9))).
Proof.
  refine (proj1 (write_bits_split zero_stream 37 5 0xabcd 7 9
                   _ _ _ _ _ _ _ _));
    first [lia | reflexivity | apply zero_stream_clear].
Defined.

(** X13. A write of width 0 changes no bit of the stream and leaves
    the cursor where it was, also at a word boundary, where the
    straddle test of [write_bits] succeeds and a second word is
    touched. *)
Theorem write_bits_zero_width (w : BlockWriter) (v : Z) :
  writer_ok w 0 -> 0 <= v < 2 ^ 64 ->
  let w' := snd (write_bits w v 0) in
  m_current_bit w' = m_current_bit w /\
  (forall p, bit_at (m_stream w') p = bit_at (m_stream w) p) /\
  fst (write_bits w v 0) = v.
Proof.
  intros Hok Hv w'. subst w'.
  destruct (write_bits_cursor w v 0 Hok ltac:(lia)) as (_ & _ & C & _).
  split; [rewrite C; lia|]. split; [|reflexivity].
  intros p.
  rewrite (write_bits_bit_at w v 0 Hok ltac:(lia) Hv).
  - destruct (Z.leb_spec (writer_pos w) p), (Z.ltb_spec p (writer_pos w + 0));
      cbn; try reflexivity; lia.
  - intros q Hq. lia.
Qed.

Lemma write_bits_zero_width_witness :
  m_current_bit (snd (write_bits (new_BlockWriter zero_stream 64 3) 9 0)) = 0.
Proof.
  refine (proj1 (write_bits_zero_width (new_BlockWriter zero_stream 64 3) 9
                   _ _)).
  - unfold writer_ok, writer_pos, block_base, wbits.
    repeat split; vm_compute; first [reflexivity | discriminate].
  - lia.
Defined.

(* ================================================================= *)
(** ** Bit planes and the embedded code *)

Lemma for_range_S {A} n (body : nat -> A -> A) a :
  for_range (S n) body a = body n (for_range n body a).
Proof. unfold for_range. rewrite seq_S, foldl_app. reflexivity. Qed.

(** The gathering loop of step 1 after [n] rounds. *)
Lemma gather_bits (ublock : list Z) (k : Z) n :
  (n <= 64)%nat ->
  forall i,
    Z.testbit
      (for_range n
         (fun i x =>
            u64 (x + shl64 (Z.land (Z.shiftr (ublock !!! i) k) 1)
                           (Z.of_nat i))) 0)
      (Z.of_nat i)
    = (i <? n)%nat && Z.testbit (ublock !!! i) k.
Proof.
  induction n as [|n IH]; intros Hn i.
  - unfold for_range. cbn. apply Z.bits_0.
  - rewrite for_range_S. specialize (IH ltac:(lia)).
    set (acc := for_range n _ 0) in *.
    set (c := shl64 _ _).
    assert (Hc : forall t, 0 <= t ->
                 Z.testbit c t
                 = (t =? Z.of_nat n) && Z.testbit (ublock !!! n) k).
    { intros t Ht. unfold c. rewrite testbit_shl64 by lia.
      rewrite Z.land_spec.
      destruct (Z.eqb_spec t (Z.of_nat n)) as [-> | Hne].
      - rewrite Z.sub_diag, Z.shiftr_spec by lia.
        replace (Z.of_nat n <? 64) with true by lia.
        cbn. now rewrite andb_true_r.
      - destruct (Z.lt_ge_cases (t - Z.of_nat n) 0).
        + rewrite (Z.testbit_neg_r 1) by lia.
          now rewrite andb_false_r, andb_false_r.
        + replace (Z.testbit 1 (t - Z.of_nat n)) with false.
          * now rewrite andb_false_r, andb_false_r.
          * symmetry. change 1 with (2 ^ 0).
            apply Z.pow2_bits_false. lia. }
    destruct (Z.lt_ge_cases (Z.of_nat i) 64) as [Hi | Hi].
    + rewrite testbit_add_disjoint.
      * rewrite IH, Hc by lia.
        destruct (Nat.ltb_spec i n), (Nat.ltb_spec i (S n)),
          (Z.eqb_spec (Z.of_nat i) (Z.of_nat n)); try lia; cbn;
          try reflexivity.
        -- now rewrite orb_false_r.
        -- replace i with n by lia. reflexivity.
      * intros t Ht E. rewrite Hc in E by lia.
        apply andb_prop in E as [E _]. apply Z.eqb_eq in E. subst t.
        rewrite IH. now rewrite Nat.ltb_irrefl.
      * lia.
    + unfold u64. rewrite Z.mod_pow2_bits_high by lia.
      destruct (Nat.ltb_spec i (S n)); [lia | reflexivity].
Qed.

(** X14. Step 1 of the plane loop transposes: bit [i] of the word
    gathered for plane [k] is bit [k] of coefficient [i], for the
    [BlockSize] coefficients, and the bits above are clear; so the
    word is zero exactly when no coefficient has bit [k] set. *)
Theorem bit_plane_transposes (bs : BlockSize) (ublock : list Z) (k : Z) :
  (forall i : nat,
     Z.testbit (bit_plane bs ublock k) (Z.of_nat i)
     = (i <? bsize bs)%nat && Z.testbit (ublock !!! i) k) /\
  (bit_plane bs ublock k = 0 <->
   forall i : nat, (i < bsize bs)%nat -> Z.testbit (ublock !!! i) k = false).
Proof.
  pose proof (bsize_bounds bs) as HB.
  assert (G : forall i : nat,
             Z.testbit (bit_plane bs ublock k) (Z.of_nat i)
             = (i <? bsize bs)%nat && Z.testbit (ublock !!! i) k).
  { intros i. unfold bit_plane. apply gather_bits. lia. }
  split; [exact G|]. split.
  - intros E i Hi. specialize (G i). rewrite E, Z.bits_0 in G.
    destruct (Nat.ltb_spec i (bsize bs)); [|lia]. now rewrite G.
  - intros Hz. apply Z.bits_inj'. intros t Ht.
    rewrite <- (Z2Nat.id t Ht), G, Z.bits_0.
    destruct (Nat.ltb_spec (Z.to_nat t) (bsize bs)); [|reflexivity].
    now rewrite Hz.
Qed.

Lemma encode_planes_done bs ublock kmin k w bits n :
  Z.of_nat k <= kmin -> encode_planes bs ublock kmin k w bits n = (w, bits, n).
Proof.
  intros H. destruct k as [|k]; [reflexivity|].
  rewrite encode_planes_S.
  destruct (Z.ltb_spec kmin (Z.of_nat (S k))); [lia|].
  now rewrite andb_false_r.
Qed.

Lemma emit_planes_length_from bs ublock kmin k : forall n,
  0 <= kmin -> 0 <= n <= Z.of_nat (bsize bs) ->
  Z.of_nat (length (emit_planes bs ublock kmin k n))
  <= Z.max 0 (Z.of_nat k - kmin) * (2 * Z.of_nat (bsize bs) + 1).
Proof.
  intros n Hk. revert n. induction k as [|k IH]; intros n Hn; [cbn; lia|].
  cbn [emit_planes].
  destruct (Z.ltb_spec kmin (Z.of_nat (S k)));
    [|rewrite Z.max_l by lia; cbn [length]; lia].
  pose proof (emit_plane_length bs ublock (Z.of_nat k) n Hn) as P.
  pose proof (emit_plane_bounds bs ublock (Z.of_nat k) n Hn) as B.
  cbv zeta in P, B.
  destruct (emit_plane bs ublock (Z.of_nat k) n) as [o n'].
  cbn [fst snd] in *. specialize (IH n' ltac:(lia)).
  rewrite length_app.
  rewrite Z.max_r in IH by lia. rewrite Z.max_r by lia. nia.
Qed.

Lemma intprec_eq k : u32 (8 * (int_bits k / 8)) = int_bits k.
Proof. destruct k; reflexivity. Qed.

(** The code of a block has at most [min (maxprec, intprec)] planes,
    [maxprec] being read as unsigned. *)
Lemma emit_block_length_prec bs k perm maxprec iblock :
  Z.of_nat (length (emit_block bs k perm maxprec iblock))
  <= Z.min (u32 maxprec) (int_bits k) * (2 * Z.of_nat (bsize bs) + 1).
Proof.
  pose proof (u32_range maxprec) as Hp.
  unfold emit_block. rewrite intprec_eq.
  set (kmin := if u32 maxprec <? int_bits k then _ else 0).
  assert (Hib : 0 < int_bits k <= 64) by (destruct k; cbn; lia).
  assert (Hk : 0 <= kmin /\
               Z.max 0 (Z.of_nat (Z.to_nat (int_bits k)) - kmin)
               = Z.min (u32 maxprec) (int_bits k)).
  { unfold kmin. destruct (Z.ltb_spec (u32 maxprec) (int_bits k)).
    - rewrite u32_small by (rewrite pow2_32; lia). lia.
    - lia. }
  destruct Hk as [Hk0 Hk1]. rewrite <- Hk1.
  apply emit_planes_length_from; lia.
Qed.

(* ================================================================= *)
(** ** The precision of the floating-point driver *)

(** C3. Whatever the block size (4, 16 or 64, that is one, two or three
    dimensions), the floating-point driver works with the precision
    [maxprec = min (get_precision, max (0, emax - min_exp + 8))],
    [emax] being the [max_exponent] of the block, provided the [int]
    arithmetic does not overflow: the biased exponent it tests is 0
    when [maxprec] is 0 and [emax + ebias] otherwise; when that is 0 it
    returns the writer it constructed, and otherwise it writes the
    header and calls [encode_block] with this [maxprec]. So, on clear
    bits, it writes no more than the header and [maxprec] bit planes
    of at most [2 * BlockSize + 1] bits. *)
Theorem zfp_encode_block_precision (bs : BlockSize) (T : ScalarTraits)
        (perm : list nat) (fblock : list spec_float)
        (maxbits block_idx : Z) (st : Stream) :
  let emax := max_exponent T bs fblock in
  let maxprec :=
    Z.min (get_precision T) (Z.max 0 (emax - get_min_exp T + 8)) in
  let e := if maxprec =? 0 then 0 else u32 (emax + get_ebias T) in
  let w0 := new_BlockWriter st maxbits block_idx in
  let w' := zfp_encode_block bs T perm fblock maxbits block_idx st in
  - 2 ^ 31 <= emax - get_min_exp T < 2 ^ 31 - 8 ->
  w' = (if e =? 0 then w0
        else encode_block bs (traits_int T) perm
               (snd (write_bits w0 (u32 (2 * e + 1))
                       (u32 (get_ebits T + 1))))
               (int32 (u32 (maxbits - u32 (get_ebits T + 1)))) maxprec
               (fwd_cast T bs fblock emax)) /\
  (0 <= get_precision T ->
   0 <= block_idx -> 0 <= maxbits -> 0 <= get_ebits T < 64 ->
   block_idx * maxbits + (get_ebits T + 1 + 64 * 129) < 2 ^ 32 ->
   slot_clear st (block_idx * maxbits) (get_ebits T + 1 + 64 * 129) ->
   m_current_bit w'
   <= get_ebits T + 1 + maxprec * (2 * Z.of_nat (bsize bs) + 1)).
Proof.
  intros emax maxprec e w0 w' Hov.
  pose proof (block_maxprec_eq bs T fblock Hov) as Ep.
  fold emax in Ep. fold maxprec in Ep.
  assert (Ee : block_e bs T fblock = e).
  { unfold block_e. fold emax. now rewrite Ep. }
  split.
  - subst w'. unfold zfp_encode_block.
    fold emax. rewrite Ee, Ep. fold w0.
    destruct (e =? 0); [reflexivity|].
    cbn [negb]. destruct (write_bits w0 _ _) as [r w1]. reflexivity.
  - intros Hprec Hidx Hmax Hebits Hlen Hclear.
    assert (Hmp : 0 <= maxprec) by (unfold maxprec; lia).
    pose proof (bsize_bounds bs) as HB.
    destruct (Z.eq_dec (block_e bs T fblock) 0) as [E0 | E0].
    + subst w'. rewrite zfp_encode_block_e0 by assumption.
      unfold new_BlockWriter. cbn [m_current_bit]. nia.
    + pose proof (emit_block_length bs (traits_int T) perm
                    (block_maxprec bs T fblock)
                    (fwd_cast T bs fblock emax)) as Lc.
      pose proof (emit_block_length_prec bs (traits_int T) perm
                    (block_maxprec bs T fblock)
                    (fwd_cast T bs fblock emax)) as Lp.
      pose proof (zfp_encode_block_writes bs T perm fblock st maxbits
                    block_idx _ Hidx Hmax Hebits Hclear Hlen E0
                    ltac:(fold emax; lia)) as W.
      fold w' in W. fold emax in W.
      rewrite (writes_cursor _ _ _ _ W).
      rewrite length_app, bits_of_length, length_take.
      rewrite Ep in *.
      assert (Hu : u32 maxprec <= maxprec)
        by (unfold u32; apply Z.mod_le; [lia | reflexivity]).
      assert (Hm : Z.min (u32 maxprec) (int_bits (traits_int T))
                   * (2 * Z.of_nat (bsize bs) + 1)
                   <= maxprec * (2 * Z.of_nat (bsize bs) + 1))
        by (apply Z.mul_le_mono_nonneg_r; lia).
      lia.
Qed.

Lemma zfp_encode_block_precision_witness :
  let T := double_traits in
  let fblock := [one_double; one_double; one_double; one_double] in
  let emax := max_exponent T B16 fblock in
  let maxprec :=
    Z.min (get_precision T) (Z.max 0 (emax - get_min_exp T + 8)) in
  let e := if maxprec =? 0 then 0 else u32 (emax + get_ebias T) in
  let w0 := new_BlockWriter zero_stream 64 1 in
  zfp_encode_block B16 T [] fblock 64 1 zero_stream
  = (if e =? 0 then w0
     else encode_block B16 (traits_int T) []
            (snd (write_bits w0 (u32 (2 * e + 1)) (u32 (get_ebits T + 1))))
            (int32 (u32 (64 - u32 (get_ebits T + 1)))) maxprec
            (fwd_cast T B16 fblock emax)).
Proof.
  intros T fblock emax maxprec e w0.
  assert (Hov : - 2 ^ 31 <= emax - get_min_exp T < 2 ^ 31 - 8)
    by (vm_compute; split; [discriminate | reflexivity]).
  exact (proj1 (zfp_encode_block_precision B16 T [] fblock 64 1 zero_stream
                  Hov)).
Defined.

(* ================================================================= *)
(** ** Code size *)

(** X15. [maxprec] bounds the planes that are coded. From a fresh
    writer on a clear slot, [encode_block] writes at most
    [min(maxprec, intprec)] planes of at most [2 * BlockSize + 1] bits
    each, and never more than [maxbits]; [maxprec] is read as an
    unsigned number. With [maxprec = 0] it returns the writer as it
    got it. *)
Theorem encode_block_size (bs : BlockSize) (k : IntKind) (perm : list nat)
        (st0 : Stream) (maxbits block_idx maxprec : Z) (iblock : list Z) :
  0 <= block_idx -> 0 <= maxbits ->
  (block_idx + 1) * maxbits < 2 ^ 32 ->
  slot_clear st0 (block_idx * maxbits) maxbits ->
  let w0 := new_BlockWriter st0 maxbits block_idx in
  let w' := encode_block bs k perm w0 maxbits maxprec iblock in
  m_current_bit w'
  <= Z.min maxbits
       (Z.min (u32 maxprec) (int_bits k) * (2 * Z.of_nat (bsize bs) + 1)) /\
  (u32 maxprec = 0 -> w' = w0).
Proof.
  intros Hidx Hmax Hend Hclear w0 w'.
  assert (Hbase : 0 <= block_idx * maxbits) by nia.
  assert (Hlen : block_idx * maxbits + maxbits < 2 ^ 32) by lia.
  pose proof (u32_range maxprec) as Hp.
  split.
  - pose proof (new_BlockWriter_writes st0 maxbits block_idx Hidx Hmax
                  ltac:(lia)) as W0.
    fold w0 in W0.
    pose proof (encode_block_ran bs st0 _ maxbits Hclear Hbase Hlen k perm
                  w0 maxbits maxprec iblock [] W0) as R.
    cbv zeta in R. rewrite (u32_small maxbits) in R by lia.
    specialize (R ltac:(cbn [length]; lia)). fold w' in R.
    rewrite (writes_cursor _ _ _ _ R). cbn [app].
    rewrite length_take.
    pose proof (emit_block_length_prec bs k perm maxprec iblock) as L.
    lia.
  - intros E0. subst w'. unfold encode_block.
    rewrite intprec_eq, E0.
    assert (Hib : 0 < int_bits k < 2 ^ 32)
      by (destruct k; split; reflexivity).
    replace (0 <? int_bits k) with true by lia.
    rewrite Z.sub_0_r, (u32_small (int_bits k)) by lia.
    rewrite encode_planes_done by lia. reflexivity.
Qed.

Lemma encode_block_size_witness :
  m_current_bit
    (encode_block B4 I32 perm_1 (new_BlockWriter zero_stream 64 2) 64 3
       [5; -1; 7; 2])
  <= Z.min 64 (Z.min (u32 3) (int_bits I32) * (2 * Z.of_nat (bsize B4) + 1)).
Proof.
  refine (proj1 (encode_block_size B4 I32 perm_1 zero_stream 64 2 3
                   [5; -1; 7; 2] _ _ _ _));
    first [lia | reflexivity | apply zero_stream_clear].
Defined.

(** X16. Truncation between any two budgets. For budgets [b <= B] into
    a zero stream, the output at budget [b] is the first [b] bits of
    the output at budget [B], and its length is the smaller of [b] and
    the length at [B]: for the integer drivers at every [b], for the
    floating-point driver when [b] holds the header. *)
Theorem truncation_between_budgets (bs : BlockSize) (perm : list nat)
        (block_idx b B : Z) :
  0 <= block_idx -> 0 <= b <= B -> (block_idx + 1) * B < 2 ^ 32 ->
  (forall k iblock,
     let run m := zfp_encode_block_int bs k perm iblock m block_idx
                    zero_stream in
     block_output (run b) = take (Z.to_nat b) (block_output (run B)) /\
     m_current_bit (run b) = Z.min b (m_current_bit (run B))) /\
  (forall T fblock,
     let run m := zfp_encode_block bs T perm fblock m block_idx
                    zero_stream in
     0 <= get_ebits T < 64 -> get_ebits T + 1 <= b ->
     block_output (run b) = take (Z.to_nat b) (block_output (run B)) /\
     m_current_bit (run b) = Z.min b (m_current_bit (run B))).
Proof.
  intros Hidx Hb Hend.
  assert (HB : block_idx * B + B < 2 ^ 32) by lia.
  assert (Hbb : block_idx * b + b < 2 ^ 32) by nia.
  assert (H0B : 0 <= block_idx * B) by nia.
  assert (H0b : 0 <= block_idx * b) by nia.
  split.
  - intros k iblock run.
    pose proof (zfp_encode_block_int_writes bs zero_stream B block_idx
                  Hidx ltac:(lia) k perm iblock
                  (zero_stream_clear _ _) HB) as WB.
    pose proof (zfp_encode_block_int_writes bs zero_stream b block_idx
                  Hidx ltac:(lia) k perm iblock
                  (zero_stream_clear _ _) Hbb) as Wb.
    fold (run B) in WB. fold (run b) in Wb.
    rewrite (writes_cursor _ _ _ _ WB), (writes_cursor _ _ _ _ Wb).
    rewrite (writes_output _ _ _ _ WB), (writes_output _ _ _ _ Wb).
    rewrite take_take, !length_take. split; [f_equal; lia | lia].
  - intros T fblock run Hebits Hhdr.
    destruct (Z.eq_dec (block_e bs T fblock) 0) as [E0 | E0].
    + unfold run. rewrite !zfp_encode_block_e0 by assumption.
      unfold block_output, new_BlockWriter. cbn [m_current_bit].
      change (Z.to_nat 0) with 0%nat. cbn [seq map].
      rewrite take_nil. split; [reflexivity | lia].
    + set (code := emit_block bs (traits_int T) perm (block_maxprec bs T fblock)
                     (fwd_cast T bs fblock (max_exponent T bs fblock))).
      pose proof (zfp_encode_block_writes bs T perm fblock zero_stream B
                    block_idx B Hidx ltac:(lia) Hebits
                    (zero_stream_clear _ _) HB E0) as WB.
      rewrite (u32_small (B - (get_ebits T + 1))) in WB by lia.
      specialize (WB ltac:(lia)). fold (run B) in WB. fold code in WB.
      pose proof (zfp_encode_block_writes bs T perm fblock zero_stream b
                    block_idx b Hidx ltac:(lia) Hebits
                    (zero_stream_clear _ _) Hbb E0) as Wb.
      rewrite (u32_small (b - (get_ebits T + 1))) in Wb by lia.
      specialize (Wb ltac:(lia)). fold (run b) in Wb. fold code in Wb.
      rewrite (writes_cursor _ _ _ _ WB), (writes_cursor _ _ _ _ Wb).
      rewrite (writes_output _ _ _ _ WB), (writes_output _ _ _ _ Wb).
      rewrite take_app, bits_of_length, take_take.
      rewrite (take_ge (bits_of _ _)) by (rewrite bits_of_length; lia).
      rewrite !length_app, !bits_of_length, !length_take.
      split; [do 2 f_equal; lia | lia].
Qed.

Lemma truncation_between_budgets_witness :
  block_output
    (zfp_encode_block B4 double_traits perm_1
       [one_double; one_double; one_double; one_double] 16 3 zero_stream)
  = take (Z.to_nat 16)
      (block_output
         (zfp_encode_block B4 double_traits perm_1
            [one_double; one_double; one_double; one_double] 40 3
            zero_stream)).
Proof.
  pose proof (truncation_between_budgets B4 perm_1 3 16 40
                ltac:(lia) ltac:(lia) ltac:(reflexivity)) as [_ Hf].
  refine (proj1 (Hf double_traits
                   [one_double; one_double; one_double; one_double] _ _)).
  - cbn. lia.
  - cbn. lia.
Defined.

Lemma fwd_xform_zero k bs :
  fwd_xform k bs (replicate (bsize bs) 0) = replicate (bsize bs) 0.
Proof.
  assert (Hc : - 2 ^ (int_bits k - 2) <= 0 < 2 ^ (int_bits k - 2))
    by (destruct k; cbn; lia).
  transitivity (0 :: replicate (bsize bs - 1) 0);
    [|destruct bs; reflexivity].
  rewrite fwd_xform_gen. apply has_kind_exact.
  replace (KConst :: replicate (bsize bs - 1) KZero)
    with (xform_gen kind_lift4 bs (replicate (bsize bs) KConst))
    by (destruct bs; vm_compute; reflexivity).
  apply (xform_gen_sound k 0 Hc), has_kind_replicate.
Qed.

Lemma fwd_order_zero k bs perm :
  Forall (fun j => (j < bsize bs)%nat) perm ->
  fwd_order k bs perm (replicate (bsize bs) 0) = replicate (bsize bs) 0.
Proof.
  intros Hperm. symmetry. apply replicate_as_Forall.
  unfold fwd_order. rewrite length_map, length_seq. split; [reflexivity|].
  apply Forall_fmap, Forall_true. intros i. cbn.
  assert (Hi : (perm !!! i < bsize bs)%nat).
  { rewrite list_lookup_total_alt.
    destruct (perm !! i) as [j|] eqn:E; cbn.
    - exact (Forall_lookup_1 _ _ _ _ Hperm E).
    - pose proof (bsize_bounds bs). lia. }
  rewrite lookup_total_replicate_2 by assumption.
  destruct k; reflexivity.
Qed.

Lemma bit_plane_zero bs k : bit_plane bs (replicate (bsize bs) 0) k = 0.
Proof.
  pose proof (bsize_bounds bs) as HB.
  apply Z.bits_inj'. intros t Ht.
  rewrite <- (Z2Nat.id t Ht). unfold bit_plane.
  rewrite gather_bits, Z.bits_0 by lia.
  destruct (Nat.ltb_spec (Z.to_nat t) (bsize bs)); [|reflexivity].
  rewrite lookup_total_replicate_2 by lia.
  apply Z.bits_0.
Qed.

Lemma emit_planes_zero bs ublock k :
  (forall j, bit_plane bs ublock j = 0) ->
  emit_planes bs ublock 0 k 0 = replicate k false.
Proof.
  intros Hz. pose proof (bsize_bounds bs) as HB.
  induction k as [|k IH]; [reflexivity|].
  cbn [emit_planes].
  destruct (Z.ltb_spec 0 (Z.of_nat (S k))); [|lia].
  unfold emit_plane. rewrite Hz.
  assert (O : emit_outer bs (bsize bs) (Z.shiftr 0 0) 0 = ([false], 0, 0)).
  { destruct (bsize bs) as [|fuel] eqn:E; [lia|].
    cbn [emit_outer].
    destruct (Z.ltb_spec 0 (Z.of_nat (bsize bs))); [reflexivity | lia]. }
  rewrite O, IH. reflexivity.
Qed.

(** X17. An all-zero integer block is not free: unlike an all-zero
    floating-point block it is coded, one clear bit for each of the
    [intprec] planes, cut at the budget. On a clear slot the stream
    keeps every bit it had and the cursor advances by
    [min(maxbits, intprec)]. *)
Theorem zero_int_block (bs : BlockSize) (k : IntKind) (perm : list nat)
        (st0 : Stream) (maxbits block_idx : Z) :
  0 <= block_idx -> 0 <= maxbits ->
  (block_idx + 1) * maxbits < 2 ^ 32 ->
  slot_clear st0 (block_idx * maxbits) maxbits ->
  Forall (fun j => (j < bsize bs)%nat) perm ->
  let w' := zfp_encode_block_int bs k perm (replicate (bsize bs) 0)
              maxbits block_idx st0 in
  block_output w'
  = replicate (Z.to_nat (Z.min maxbits (int_bits k))) false /\
  m_current_bit w' = Z.min maxbits (int_bits k) /\
  forall p, bit_at (m_stream w') p = bit_at st0 p.
Proof.
  intros Hidx Hmax Hend Hclear Hperm w'.
  assert (Hlen : block_idx * maxbits + maxbits < 2 ^ 32) by lia.
  pose proof (zfp_encode_block_int_writes bs st0 maxbits block_idx
                Hidx Hmax k perm (replicate (bsize bs) 0) Hclear Hlen) as W.
  fold w' in W.
  assert (E : emit_block bs k perm (get_precision_int k)
                (replicate (bsize bs) 0)
              = replicate (Z.to_nat (int_bits k)) false).
  { unfold emit_block. rewrite intprec_eq, fwd_xform_zero.
    rewrite fwd_order_zero by assumption.
    unfold get_precision_int.
    assert (Hib : 0 < int_bits k < 2 ^ 32)
      by (destruct k; split; reflexivity).
    rewrite (u32_small (int_bits k)) by lia.
    rewrite Z.ltb_irrefl.
    apply emit_planes_zero. intros j. apply bit_plane_zero. }
  rewrite E, take_replicate in W.
  replace (Z.to_nat maxbits `min` Z.to_nat (int_bits k))%nat
    with (Z.to_nat (Z.min maxbits (int_bits k))) in W by lia.
  assert (Hib : 0 < int_bits k) by (destruct k; reflexivity).
  split; [exact (writes_output _ _ _ _ W)|].
  split.
  { rewrite (writes_cursor _ _ _ _ W), length_replicate. lia. }
  intros p. destruct W as (_ & _ & _ & _ & Wb). rewrite Wb.
  rewrite length_replicate.
  destruct (Z.leb_spec (block_idx * maxbits) p),
    (Z.ltb_spec p (block_idx * maxbits
                   + Z.of_nat (Z.to_nat (Z.min maxbits (int_bits k)))));
    cbn [andb]; try reflexivity.
  rewrite lookup_total_replicate_2 by lia.
  symmetry. apply Hclear. lia.
Qed.

Lemma zero_int_block_witness :
  block_output
    (zfp_encode_block_int B16 I32 perm_1 (replicate (bsize B16) 0) 20 3
       zero_stream)
  = replicate (Z.to_nat (Z.min 20 (int_bits I32))) false.
Proof.
  refine (proj1 (zero_int_block B16 I32 perm_1 zero_stream 20 3 _ _ _ _ _)).
  - lia.
  - lia.
  - reflexivity.
  - apply zero_stream_clear.
  - unfold perm_1. repeat constructor.
Defined.

(** X18. A floating-point block that is coded (biased exponent not 0)
    always puts its whole header first, whatever the budget: the first
    [ebits + 1] bits of the output are those of [2 * e + 1], least
    significant first, so the very first bit is set and the cursor is
    at least [ebits + 1], also when [maxbits] is smaller than that. *)
Theorem float_block_header (bs : BlockSize) (T : ScalarTraits)
        (perm : list nat) (fblock : list spec_float) (st0 : Stream)
        (maxbits block_idx : Z) :
  0 <= block_idx -> 0 <= maxbits -> 0 <= get_ebits T < 64 ->
  block_idx * maxbits + (get_ebits T + 1 + 64 * 129) < 2 ^ 32 ->
  slot_clear st0 (block_idx * maxbits) (get_ebits T + 1 + 64 * 129) ->
  block_e bs T fblock <> 0 ->
  let w' := zfp_encode_block bs T perm fblock maxbits block_idx st0 in
  let h := Z.to_nat (get_ebits T + 1) in
  take h (block_output w') = bits_of (u32 (2 * block_e bs T fblock + 1)) h /\
  block_output w' !! 0%nat = Some true /\
  get_ebits T + 1 <= m_current_bit w'.
Proof.
  intros Hidx Hmax Hebits Hlen Hclear He w' h.
  pose proof (emit_block_length bs (traits_int T) perm
                (block_maxprec bs T fblock)
                (fwd_cast T bs fblock (max_exponent T bs fblock))) as Lc.
  pose proof (zfp_encode_block_writes bs T perm fblock st0 maxbits
                block_idx _ Hidx Hmax Hebits Hclear Hlen He ltac:(lia)) as W.
  fold w' in W. fold h in W.
  rewrite (writes_output _ _ _ _ W), (writes_cursor _ _ _ _ W).
  rewrite length_app, bits_of_length.
  assert (Hh : (0 < h)%nat) by (unfold h; lia).
  split; [|split; [|unfold h; lia]].
  - rewrite take_app_le by (rewrite bits_of_length; lia).
    rewrite take_ge by (rewrite bits_of_length; lia). reflexivity.
  - rewrite lookup_app_l by (rewrite bits_of_length; lia).
    unfold bits_of. rewrite list_lookup_fmap, lookup_seq_lt by lia.
    cbn. f_equal. unfold u32.
    rewrite Z.mod_pow2_bits_low by lia.
    apply Z.testbit_odd_0.
Qed.

Lemma float_block_header_witness :
  block_output
    (zfp_encode_block B4 double_traits perm_1
       [one_double; one_double; one_double; one_double] 5 7 zero_stream)
  !! 0%nat = Some true.
Proof.
  refine (proj1 (proj2 (float_block_header B4 double_traits perm_1
                          [one_double; one_double; one_double; one_double]
                          zero_stream 5 7 _ _ _ _ _ _))).
  - lia.
  - lia.
  - cbn. lia.
  - reflexivity.
  - apply zero_stream_clear.
  - vm_compute. discriminate.
Defined.

(* ================================================================= *)
(** ** The transform does not overflow *)

(** Two runs of the transform, on related coefficients with related
    lifting steps, give related blocks. *)
Section RelTransform.
Context {A B : Type} `{!Inhabited A} `{!Inhabited B}.
Variable R : A -> B -> Prop.
Variable la : A * A * A * A -> A * A * A * A.
Variable lb : B * B * B * B -> B * B * B * B.
Hypothesis Rdef : R inhabitant inhabitant.
Hypothesis Rlift : forall a1 a2 a3 a4 b1 b2 b3 b4,
  R a1 b1 -> R a2 b2 -> R a3 b3 -> R a4 b4 ->
  let a := la (a1, a2, a3, a4) in
  let b := lb (b1, b2, b3, b4) in
  R a.1.1.1 b.1.1.1 /\ R a.1.1.2 b.1.1.2 /\ R a.1.2 b.1.2 /\ R a.2 b.2.

Lemma rel_lookup (a : list A) (p : list B) i :
  Forall2 R a p -> R (a !!! i) (p !!! i).
Proof using Rdef.
  intros H. rewrite !list_lookup_total_alt.
  destruct (a !! i) as [x|] eqn:Ea.
  - destruct (Forall2_lookup_l _ _ _ _ _ H Ea) as (y & Ep & Hxy).
    now rewrite Ep.
  - apply lookup_ge_None in Ea. rewrite (Forall2_length _ _ _ H) in Ea.
    apply lookup_ge_None in Ea. rewrite Ea. exact Rdef.
Qed.

Lemma lift_gen_rel s (a : list A) (p : list B) off :
  Forall2 R a p -> Forall2 R (lift_gen la s a off) (lift_gen lb s p off).
Proof using Rdef Rlift.
  intros H. unfold lift_gen.
  pose proof (Rlift _ _ _ _ _ _ _ _
                (rel_lookup a p off H)
                (rel_lookup a p (off + s) H)
                (rel_lookup a p (off + 2 * s) H)
                (rel_lookup a p (off + 3 * s) H)) as S.
  cbv zeta in S.
  destruct (la _) as [[[ax ay] az] aw].
  destruct (lb _) as [[[x y] z] w].
  cbn [fst snd] in S. destruct S as (Sx & Sy & Sz & Sw).
  auto using Forall2_insert.
Qed.

Lemma xform_gen_rel bs (a : list A) (p : list B) :
  Forall2 R a p -> Forall2 R (xform_gen la bs a) (xform_gen lb bs p).
Proof using Rdef Rlift.
  intros H. destruct bs; cbn [xform_gen];
    repeat (apply for_range_rel; [intros ? ? ? ?|]);
    try apply lift_gen_rel; assumption.
Qed.
End RelTransform.

Lemma Forall2_eq_and {A} (P : A -> Prop) (a p : list A) :
  Forall2 (fun a x => a = x /\ P x) a p -> a = p /\ Forall P p.
Proof.
  induction 1 as [|x y a p [-> Hy] _ [-> IH]]; split; auto.
Qed.

Lemma Forall2_diag {A} (P : A -> Prop) (p : list A) :
  Forall P p -> Forall2 (fun a x => a = x /\ P x) p p.
Proof. induction 1; constructor; auto. Qed.

(** One lifting step on four values within [-a, a]: no operation
    leaves [Int], and the results are within [-a, a] again. *)
Lemma fwd_lift4_exact k a x y z w :
  2 <= a -> 2 * a < 2 ^ (int_bits k - 1) ->
  - a <= x <= a -> - a <= y <= a -> - a <= z <= a -> - a <= w <= a ->
  fwd_lift4 k (x, y, z, w) = lift4_exact (x, y, z, w) /\
  (let r := lift4_exact (x, y, z, w) in
   - a <= r.1.1.1 <= a /\ - a <= r.1.1.2 <= a /\
   - a <= r.1.2 <= a /\ - a <= r.2 <= a).
Proof.
  intros Ha Hw Hx Hy Hz Hww.
  unfold fwd_lift4, lift4_exact. cbv zeta.
  rewrite !Z.shiftr_div_pow2 by lia. change (2 ^ 1) with 2.
  repeat match goal with
         | |- context [wrap k ?e] =>
             lazymatch e with
             | context [wrap] => fail
             | _ => rewrite (wrap_small k e)
                      by (unfold in_range; Z.div_mod_to_equations; lia)
             end
         end.
  cbn [fst snd]. split; [reflexivity|]. Z.div_mod_to_equations. lia.
Qed.

(** X19. The transform keeps the two bits of headroom and never
    overflows. On a block whose entries are below [2 ^ (w - 2)] in
    absolute value, for [w] the width of [Int], no addition or
    subtraction of [fwd_xform] leaves the range of [Int] (the result is
    that of the same steps on unbounded integers), and the
    coefficients are again below [2 ^ (w - 2)] in absolute value, for
    each of the three block sizes. *)
Theorem fwd_xform_no_overflow (k : IntKind) (bs : BlockSize) (p : list Z) :
  Forall (headroom k) p ->
  fwd_xform k bs p = xform_gen lift4_exact bs p /\
  Forall (headroom k) (fwd_xform k bs p).
Proof.
  intros Hp.
  set (a := 2 ^ (int_bits k - 2) - 1).
  assert (Ha : 2 <= a) by (destruct k; vm_compute; discriminate).
  assert (Hw : 2 * a < 2 ^ (int_bits k - 1))
    by (destruct k; reflexivity).
  assert (Hr : forall x, headroom k x <-> - a <= x <= a)
    by (intros x; unfold headroom, a; lia).
  rewrite fwd_xform_gen.
  pose proof (xform_gen_rel (fun e x => e = x /\ headroom k x)
                lift4_exact (fwd_lift4 k)) as S.
  destruct (Forall2_eq_and (headroom k) (xform_gen lift4_exact bs p)
              (xform_gen (fwd_lift4 k) bs p)) as [E F].
  - apply S.
    + split; [reflexivity|]. apply Hr. change (@inhabitant Z _) with 1. lia.
    + intros a1 a2 a3 a4 x y z w [-> Hx] [-> Hy] [-> Hz] [-> Hww].
      destruct (fwd_lift4_exact k a x y z w Ha Hw
                  (proj1 (Hr _) Hx) (proj1 (Hr _) Hy)
                  (proj1 (Hr _) Hz) (proj1 (Hr _) Hww)) as [E B].
      cbv zeta in *. rewrite E. destruct B as (B1 & B2 & B3 & B4).
      repeat split; apply Hr; assumption.
    + now apply Forall2_diag.
  - split; [now symmetry | exact F].
Qed.

Lemma fwd_xform_no_overflow_witness :
  Forall (headroom I32) (fwd_xform I32 B16 (replicate 16 (2 ^ 30 - 1))).
Proof.
  refine (proj2 (fwd_xform_no_overflow I32 B16 (replicate 16 (2 ^ 30 - 1)) _)).
  apply Forall_replicate. reflexivity.
Defined.

(* ================================================================= *)
(** ** Quantisation *)

Lemma digits2_pos_unique m d :
  2 ^ (d - 1) <= Z.pos m < 2 ^ d -> Z.pos (digits2_pos m) = d.
Proof.
  intros [L U]. pose proof (digits2_pos_bounds m) as [L' U'].
  pose proof (Pos2Z.is_pos (digits2_pos m)) as Hd.
  assert (0 < d).
  { destruct (Z.lt_ge_cases 0 d) as [|H]; [assumption|].
    destruct (Z.eq_dec d 0) as [-> | ?]; [cbn in U; lia|].
    rewrite (Z.pow_neg_r 2 d) in U by lia. lia. }
  assert (Z.pos (digits2_pos m) - 1 < d).
  { apply (Z.pow_lt_mono_r_iff 2); lia. }
  assert (d - 1 < Z.pos (digits2_pos m)).
  { apply (Z.pow_lt_mono_r_iff 2); lia. }
  lia.
Qed.

Lemma iter_pos_nat {A} (f : A -> A) p : forall x,
  SpecFloat.iter_pos f p x = Nat.iter (Pos.to_nat p) f x.
Proof.
  induction p as [p IH | p IH |]; intros x; cbn [SpecFloat.iter_pos].
  - rewrite !IH, Pos2Nat.inj_xI.
    replace (S (2 * Pos.to_nat p)) with (Pos.to_nat p + (Pos.to_nat p + 1))%nat
      by lia.
    rewrite !Nat.iter_add. reflexivity.
  - rewrite !IH, Pos2Nat.inj_xO.
    replace (2 * Pos.to_nat p)%nat with (Pos.to_nat p + Pos.to_nat p)%nat
      by lia.
    rewrite Nat.iter_add. reflexivity.
  - reflexivity.
Qed.

Lemma shr_nat mrs e n :
  0 <= n -> shr mrs e n = (Nat.iter (Z.to_nat n) shr_1 mrs, e + n).
Proof.
  intros Hn. destruct n as [|p|p]; [| |lia].
  - cbn. now rewrite Z.add_0_r.
  - cbn [shr]. now rewrite iter_pos_nat.
Qed.

Lemma shr_1_m mrs : 0 <= shr_m mrs -> shr_m (shr_1 mrs) = shr_m mrs / 2.
Proof.
  destruct mrs as [m r s]. cbn [shr_m shr_1]. intros Hm.
  destruct m as [|[p|p|]|p]; cbn [shr_m]; try reflexivity; try lia.
  - change (Z.pos p~1) with (2 * Z.pos p + 1).
    Z.div_mod_to_equations. lia.
  - change (Z.pos p~0) with (2 * Z.pos p).
    Z.div_mod_to_equations. lia.
Qed.

Lemma shr_m_iter n : forall mrs,
  0 <= shr_m mrs ->
  shr_m (Nat.iter n shr_1 mrs) = shr_m mrs / 2 ^ Z.of_nat n.
Proof.
  induction n as [|n IH]; intros mrs Hm.
  - cbn. now rewrite Z.div_1_r.
  - rewrite Nat.iter_succ, shr_1_m.
    + rewrite IH by assumption.
      rewrite Nat2Z.inj_succ, Z.pow_succ_r by lia.
      rewrite Z.div_div by lia. f_equal. lia.
    + rewrite IH by assumption. apply Z.div_pos; lia.
Qed.

(** Shifting out zero bits is exact. *)
Lemma shr_exact_iter n : forall c,
  0 <= c ->
  Nat.iter n shr_1 (Build_shr_record (c * 2 ^ Z.of_nat n) false false)
  = Build_shr_record c false false.
Proof.
  induction n as [|n IH]; intros c Hc.
  - cbn. now rewrite Z.mul_1_r.
  - rewrite Nat.iter_succ_r.
    replace (shr_1 _) with (Build_shr_record (c * 2 ^ Z.of_nat n) false false).
    + now apply IH.
    + rewrite Nat2Z.inj_succ, Z.pow_succ_r by lia.
      assert (0 <= c * 2 ^ Z.of_nat n) by (apply Z.mul_nonneg_nonneg; lia).
      replace (c * (2 * 2 ^ Z.of_nat n)) with (2 * (c * 2 ^ Z.of_nat n)) by lia.
      destruct (c * 2 ^ Z.of_nat n) as [|p|p]; [reflexivity|reflexivity|lia].
Qed.

Lemma round_nearest_even_bounds m l :
  m <= round_nearest_even m l <= m + 1.
Proof.
  destruct l as [|[ | | ]]; cbn [round_nearest_even]; try lia.
  destruct (Z.even m); lia.
Qed.

Lemma Zdigits2_bound m d :
  0 <= m < 2 ^ d -> 0 <= d -> 0 <= Zdigits2 m <= d.
Proof.
  intros [L U] Hd. destruct m as [|p|p]; cbn [Zdigits2]; [lia| |lia].
  pose proof (digits2_pos_bounds p) as [L' _].
  pose proof (Pos2Z.is_pos (digits2_pos p)).
  split; [lia|].
  assert (Z.pos (digits2_pos p) - 1 < d); [|lia].
  apply (Z.pow_lt_mono_r_iff 2); lia.
Qed.

Section Rounding.
Variables prec Emax : Z.
Hypothesis Hprec : 1 < prec.
Hypothesis HEmax : 5 <= Emax.

Lemma fexp_eq e : fexp prec Emax e = Z.max (e - prec) (3 - Emax - prec).
Proof using Type. reflexivity. Qed.

(** A canonical mantissa and exponent pass through rounding as they
    are, or overflow. *)
Lemma binary_round_aux_canonical s m e :
  fexp prec Emax (Z.pos (digits2_pos m) + e) = e ->
  binary_round_aux prec Emax s (Z.pos m) e loc_Exact
  = if e <=? Emax - prec then S754_finite s m e else S754_infinity s.
Proof using Type.
  intros C. unfold binary_round_aux, shr_fexp.
  cbn [Zdigits2 shr_record_of_loc]. rewrite C, Z.sub_diag.
  cbn [shr shr_m loc_of_shr_record round_nearest_even Zdigits2].
  rewrite C, Z.sub_diag. reflexivity.
Qed.

(** A mantissa [c * 2 ^ k] from which rounding drops at most the [k]
    low zeros: the result is exact. *)
Lemma binary_round_aux_exact s c k e0 :
  0 <= k ->
  let d := Z.pos (digits2_pos c) in
  let n := fexp prec Emax (d + k + e0) - e0 in
  0 <= n <= k ->
  binary_round_aux prec Emax s (Z.pos c * 2 ^ k) e0 loc_Exact
  = if e0 + n <=? Emax - prec
    then S754_finite s (Z.to_pos (Z.pos c * 2 ^ (k - n))) (e0 + n)
    else S754_infinity s.
Proof using Type.
  intros Hk d n Hn.
  pose proof (digits2_pos_bounds c) as [Lc Uc]. fold d in Lc, Uc.
  assert (Hd : 0 < d) by (unfold d; lia).
  assert (P : forall j, 0 <= j ->
              exists p, Z.pos c * 2 ^ j = Z.pos p /\
                        Z.pos (digits2_pos p) = d + j).
  { intros j Hj.
    assert (0 < 2 ^ j) by (apply Z.pow_pos_nonneg; lia).
    assert (Hpos : 0 < Z.pos c * 2 ^ j) by lia.
    exists (Z.to_pos (Z.pos c * 2 ^ j)).
    rewrite Z2Pos.id by assumption. split; [reflexivity|].
    apply digits2_pos_unique. rewrite Z2Pos.id by assumption.
    replace (d + j - 1) with (d - 1 + j) by lia.
    rewrite !Z.pow_add_r by lia. nia. }
  destruct (P k Hk) as (p0 & E0 & D0).
  destruct (P (k - n) ltac:(lia)) as (p1 & E1 & D1).
  unfold binary_round_aux, shr_fexp.
  rewrite E0. cbn [Zdigits2 shr_record_of_loc]. rewrite D0. fold n.
  rewrite shr_nat by lia.
  replace (Z.pos p0) with (Z.pos p1 * 2 ^ Z.of_nat (Z.to_nat n)).
  2:{ rewrite <- E0, <- E1, Z2Nat.id, <- Z.mul_assoc, <- Z.pow_add_r by lia.
      do 2 f_equal. lia. }
  rewrite shr_exact_iter by lia.
  cbn [shr_m loc_of_shr_record round_nearest_even Zdigits2 shr_record_of_loc].
  rewrite D1.
  replace (d + (k - n) + (e0 + n)) with (d + k + e0) by lia.
  replace (fexp prec Emax (d + k + e0) - (e0 + n)) with 0 by (unfold n; lia).
  cbn [shr shr_m]. rewrite E1, Pos2Z.id. reflexivity.
Qed.

(** Rounding into the subnormal range leaves a number below
    [2 ^ (emin + prec + 2)]. *)
Lemma binary_round_aux_underflow s p0 e0 N :
  fexp prec Emax (Z.pos (digits2_pos p0) + e0) = 3 - Emax - prec ->
  e0 <= 3 - Emax - prec ->
  5 - Emax <= N ->
  float_below N (binary_round_aux prec Emax s (Z.pos p0) e0 loc_Exact).
Proof using Hprec HEmax.
  intros F He HN. set (emin := 3 - Emax - prec) in *.
  set (n := emin - e0).
  pose proof (digits2_pos_bounds p0) as [_ U0].
  assert (Hdg : Z.pos (digits2_pos p0) + e0 - prec <= emin)
    by (rewrite fexp_eq in F; lia).
  assert (Pn : 0 < 2 ^ n) by (apply Z.pow_pos_nonneg; lia).
  unfold binary_round_aux, shr_fexp.
  cbn [Zdigits2 shr_record_of_loc]. rewrite F. fold n.
  rewrite shr_nat by lia.
  set (mrs1 := Nat.iter _ shr_1 _).
  assert (M1 : 0 <= shr_m mrs1 < 2 ^ prec).
  { unfold mrs1. rewrite shr_m_iter by (cbn; lia). cbn [shr_m].
    rewrite Z2Nat.id by lia. split; [apply Z.div_pos; lia|].
    apply Z.div_lt_upper_bound; [lia|].
    rewrite <- Z.pow_add_r by lia.
    apply Z.lt_le_trans with (1 := U0).
    apply Z.pow_le_mono_r; lia. }
  pose proof (round_nearest_even_bounds (shr_m mrs1)
                (loc_of_shr_record mrs1)) as R.
  set (m1 := round_nearest_even _ _) in *.
  replace (e0 + n) with emin by (unfold n; lia).
  assert (D1 : 0 <= Zdigits2 m1 <= prec + 1).
  { apply Zdigits2_bound; [|lia].
    rewrite Z.pow_add_r by lia. change (2 ^ 1) with 2. lia. }
  set (n2 := fexp prec Emax (Zdigits2 m1 + emin) - emin).
  assert (Hn2 : 0 <= n2 <= 1) by (unfold n2; rewrite fexp_eq; fold emin; lia).
  rewrite shr_nat by lia.
  set (mrs2 := Nat.iter _ shr_1 _).
  assert (M2 : 0 <= shr_m mrs2 <= 2 ^ prec).
  { unfold mrs2. rewrite shr_m_iter by (cbn; lia). cbn [shr_m].
    rewrite Z2Nat.id by lia.
    assert (0 < 2 ^ n2) by (apply Z.pow_pos_nonneg; lia).
    split; [apply Z.div_pos; lia|].
    apply Z.le_trans with m1; [|lia].
    apply Z.div_le_upper_bound; [lia|]. nia. }
  destruct (shr_m mrs2) as [|mf|mf] eqn:Ef; [exact I| |lia].
  destruct (Z.leb_spec (emin + n2) (Emax - prec)) as [_ | H];
    [|unfold emin in H; lia].
  cbn [float_below].
  apply Z.le_lt_trans with (2 ^ prec); [lia|].
  apply Z.pow_lt_mono_r; unfold emin; lia.
Qed.

(** The product of a mantissa with a power of two, rounded: below
    [2 ^ N] when the exact product is. *)
Lemma binary_round_aux_scaled s c e0 N :
  let d := Z.pos (digits2_pos c) in
  d <= prec ->
  d + (prec - 1) + e0 <= N -> 5 - Emax <= N -> N <= Emax ->
  float_below N
    (binary_round_aux prec Emax s (Z.pos c * 2 ^ (prec - 1)) e0 loc_Exact).
Proof using Hprec HEmax.
  intros d Hd HN Hlo Hhi.
  pose proof (digits2_pos_bounds c) as [Lc Uc]. fold d in Lc, Uc.
  assert (Hd0 : 0 < d) by (unfold d; lia).
  set (k := prec - 1) in *.
  set (n := fexp prec Emax (d + k + e0) - e0).
  assert (Pk : 0 < 2 ^ k) by (apply Z.pow_pos_nonneg; lia).
  destruct (Z.le_gt_cases n k) as [Hn | Hn].
  - assert (Hn0 : 0 <= n) by (unfold n; rewrite fexp_eq; lia).
    rewrite (binary_round_aux_exact s c k e0 ltac:(lia) (conj Hn0 Hn)).
    fold d. fold n.
    destruct (Z.leb_spec (e0 + n) (Emax - prec)) as [_ | H];
      [|unfold n in H; rewrite fexp_eq in H; lia].
    cbn [float_below].
    assert (0 < 2 ^ (k - n)) by (apply Z.pow_pos_nonneg; lia).
    rewrite Z2Pos.id by lia.
    apply Z.lt_le_trans with (2 ^ d * 2 ^ (k - n)); [nia|].
    rewrite <- Z.pow_add_r by lia. apply Z.pow_le_mono_r; lia.
  - assert (Hpos : 0 < Z.pos c * 2 ^ k) by lia.
    assert (D : Z.pos (digits2_pos (Z.to_pos (Z.pos c * 2 ^ k))) = d + k).
    { apply digits2_pos_unique. rewrite Z2Pos.id by assumption.
      replace (d + k - 1) with (d - 1 + k) by lia.
      rewrite !Z.pow_add_r by lia. nia. }
    rewrite <- (Z2Pos.id (Z.pos c * 2 ^ k)) by assumption.
    apply binary_round_aux_underflow; rewrite ?D.
    + unfold n in Hn. rewrite fexp_eq in *. lia.
    + unfold n in Hn. rewrite fexp_eq in Hn. lia.
    + lia.
Qed.
End Rounding.

Lemma iter_xO_spec m p :
  Z.pos (Pos.iter xO m p) = Z.pos m * 2 ^ Z.pos p /\
  Z.pos (digits2_pos (Pos.iter xO m p)) = Z.pos (digits2_pos m) + Z.pos p.
Proof.
  induction p as [|p [IH1 IH2]] using Pos.peano_ind.
  - cbn [Pos.iter digits2_pos]. split; [|lia].
    change (Z.pos m~0) with (2 * Z.pos m). change (2 ^ 1) with 2. lia.
  - rewrite Pos.iter_succ. cbn [digits2_pos].
    change (Z.pos (Pos.iter xO m p)~0) with (2 * Z.pos (Pos.iter xO m p)).
    rewrite !Pos2Z.inj_succ, IH1, IH2, Z.pow_succ_r by lia. lia.
Qed.

Section Factor.
Variables prec Emax : Z.
Hypothesis Hprec : 1 < prec.
Hypothesis HEmax : 5 <= Emax.

(** [1.0] and its multiples by a power of two. *)
Lemma SFldexp_one q :
  exists M, Z.pos M = 2 ^ (prec - 1) /\
    Z.pos (digits2_pos M) = prec /\
    (2 - Emax <= q ->
     SFldexp prec Emax (SFone prec Emax) q
     = if q <? Emax then S754_finite false M (q + 1 - prec)
       else S754_infinity false).
Proof using Hprec HEmax.
  destruct (iter_xO_spec 1 (Z.to_pos (prec - 1))) as [V D].
  set (M := Pos.iter xO 1%positive (Z.to_pos (prec - 1))) in *.
  rewrite Z2Pos.id in V, D by lia. cbn [digits2_pos] in D.
  rewrite Z.mul_1_l in V.
  replace (1 + (prec - 1)) with prec in D by lia.
  exists M. split; [exact V|]. split; [exact D|]. intros Hq.
  assert (One : SFone prec Emax = S754_finite false M (1 - prec)).
  { unfold SFone, binary_round. cbn [digits2_pos].
    rewrite (fexp_eq prec Emax), Z.max_l by lia.
    unfold shl_align.
    replace (1 + 0 - prec - 0) with (Z.neg (Z.to_pos (prec - 1)))
      by (rewrite <- Pos2Z.opp_pos, Z2Pos.id; lia).
    fold M. replace (1 + 0 - prec) with (1 - prec) by lia.
    rewrite binary_round_aux_canonical
      by (rewrite D, fexp_eq; lia).
    destruct (Z.leb_spec (1 - prec) (Emax - prec)); [reflexivity|lia]. }
  rewrite One. unfold SFldexp, binary_round.
  rewrite D, (fexp_eq prec Emax), Z.max_l by lia.
  unfold shl_align.
  replace (prec + (1 - prec + q) - prec - (1 - prec + q)) with 0 by lia.
  rewrite binary_round_aux_canonical by (rewrite D, fexp_eq; lia).
  replace (1 - prec + q) with (q + 1 - prec) by lia.
  destruct (Z.leb_spec (q + 1 - prec) (Emax - prec)), (Z.ltb_spec q Emax);
    try reflexivity; lia.
Qed.

(** A finite factor [2 ^ q] times a finite number: below [2 ^ N] when
    the number is below [2 ^ (N - q)]. *)
Lemma SFmul_pow2_below M q x N :
  Z.pos M = 2 ^ (prec - 1) ->
  match x with
  | S754_zero _ => True
  | S754_finite _ m e =>
      valid_binary prec Emax x = true /\ Z.pos (digits2_pos m) + e + q <= N
  | _ => False
  end ->
  5 - Emax <= N -> N <= Emax ->
  float_below N (SFmul prec Emax (S754_finite false M (q + 1 - prec)) x).
Proof using Hprec HEmax.
  intros HM Hx Hlo Hhi.
  destruct x as [s | s | | s m e]; try contradiction; [exact I|].
  destruct Hx as [Hv Hb].
  destruct (valid_binary_bounds _ _ _ _ _ Hv) as [Hd _].
  cbn [SFmul]. rewrite Pos2Z.inj_mul, HM, Z.mul_comm.
  apply binary_round_aux_scaled; try assumption. lia.
Qed.
End Factor.

Lemma cast_below k f :
  float_below (int_bits k - 2) f -> headroom k (cast_to_int k f).
Proof.
  assert (Hw : 2 <= int_bits k - 2) by (destruct k; cbn; lia).
  set (N := int_bits k - 2) in *.
  assert (P : 0 < 2 ^ N) by (apply Z.pow_pos_nonneg; lia).
  assert (E1 : 2 ^ (int_bits k - 1) = 2 * 2 ^ N).
  { replace (int_bits k - 1) with (Z.succ N) by (unfold N; lia).
    apply Z.pow_succ_r. lia. }
  unfold headroom. fold N.
  destruct f as [s | s | | s m e]; cbn [float_below cast_to_int];
    try contradiction; [intros _; cbn; lia|].
  intros Hb. rewrite E1.
  set (mag := if 0 <=? e then Z.pos m * 2 ^ e else Z.pos m / 2 ^ (- e)).
  assert (Hmag : 0 <= mag < 2 ^ N).
  { unfold mag. destruct (Z.leb_spec 0 e) as [He | He].
    - assert (0 <= N - e).
      { destruct (Z.lt_ge_cases (N - e) 0) as [H|]; [|lia].
        rewrite (Z.pow_neg_r 2 (N - e)) in Hb by lia. lia. }
      assert (0 < 2 ^ e) by (apply Z.pow_pos_nonneg; lia).
      replace N with (N - e + e) by lia.
      rewrite Z.pow_add_r by lia. nia.
    - assert (0 < 2 ^ (- e)) by (apply Z.pow_pos_nonneg; lia).
      split; [apply Z.div_pos; lia|].
      apply Z.div_lt_upper_bound; [lia|].
      rewrite <- Z.pow_add_r by lia.
      replace (- e + N) with (N - e) by lia. exact Hb. }
  destruct s; lia.
Qed.

Lemma float_below_mono N N' f : float_below N f -> N <= N' -> float_below N' f.
Proof.
  destruct f as [s | s | | s m e]; cbn [float_below]; auto.
  intros H Hle.
  destruct (Z.lt_ge_cases (N - e) 0) as [Hn | Hn].
  - rewrite (Z.pow_neg_r 2 (N - e)) in H by lia. lia.
  - apply Z.lt_le_trans with (1 := H). apply Z.pow_le_mono_r; lia.
Qed.

Lemma float_below_top s m e : float_below (float_top (S754_finite s m e))
                                (S754_finite s m e).
Proof.
  cbn [float_below float_top].
  replace (Z.pos (digits2_pos m) + e - e) with (Z.pos (digits2_pos m)) by lia.
  apply digits2_pos_bounds.
Qed.

Lemma digits2_pos_mono m1 m2 :
  (m1 <= m2)%positive -> Z.pos (digits2_pos m1) <= Z.pos (digits2_pos m2).
Proof.
  intros H.
  pose proof (digits2_pos_bounds m1) as [L1 _].
  pose proof (digits2_pos_bounds m2) as [_ U2].
  pose proof (Pos2Z.is_pos (digits2_pos m1)).
  pose proof (Pos2Z.is_pos (digits2_pos m2)).
  assert (Z.pos (digits2_pos m1) - 1 < Z.pos (digits2_pos m2)); [|lia].
  apply (Z.pow_lt_mono_r_iff 2); lia.
Qed.

(** Among canonical positive numbers the order of [SFltb] is that of
    the exponents of [frexp]. *)
Lemma SFltb_top prec Emax m1 e1 m2 e2 :
  let a := S754_finite false m1 e1 in
  let b := S754_finite false m2 e2 in
  valid_binary prec Emax a = true -> valid_binary prec Emax b = true ->
  if SFltb a b then float_top a <= float_top b
  else float_top b <= float_top a.
Proof.
  intros a b Va Vb. subst a b.
  cbn [valid_binary] in Va, Vb. unfold bounded, canonical_mantissa in Va, Vb.
  apply andb_prop in Va as [Ca _]. apply andb_prop in Vb as [Cb _].
  apply Z.eqb_eq in Ca, Cb. unfold fexp, emin in Ca, Cb.
  pose proof (Pos2Z.is_pos (digits2_pos m1)).
  pose proof (Pos2Z.is_pos (digits2_pos m2)).
  unfold SFltb, SFcompare. cbn [float_top].
  destruct (Z.compare_spec e1 e2) as [-> | Hlt | Hgt]; [|lia|lia].
  change (Pos.compare_cont Eq m1 m2) with (Pos.compare m1 m2).
  destruct (Pos.compare_spec m1 m2) as [-> | Hm | Hm].
  - lia.
  - pose proof (digits2_pos_mono m1 m2 ltac:(lia)). lia.
  - pose proof (digits2_pos_mono m2 m1 ltac:(lia)). lia.
Qed.

Section Domination.
Variable T : ScalarTraits.

Lemma fmax_dominates v f :
  (v = fzero \/ pos_finite T v) -> (f = fzero \/ pos_finite T f) ->
  dominated T (fmax v f) f /\
  (forall g, dominated T v g -> dominated T (fmax v f) g).
Proof using Type.
  intros [-> | (m & e & -> & Hv)] [-> | (m' & e' & -> & Hf)].
  - split; [now left|]. intros g [-> | [(? & ? & E & _) _]];
      [now left | discriminate E].
  - cbn. split.
    + right. split; [now exists m', e'|lia].
    + intros g [-> | [(? & ? & E & _) _]]; [now left | discriminate E].
  - cbn. split; [now left|]. auto.
  - pose proof (SFltb_top _ _ m e m' e' Hv Hf) as O. cbv zeta in O.
    unfold fmax. destruct (SFltb _ _).
    + split.
      * right. split; [now exists m', e'|lia].
      * intros g [-> | [_ Hg]]; [now left|].
        right. split; [now exists m', e'|lia].
    + split.
      * right. split; [now exists m, e|exact O].
      * auto.
Qed.

Lemma fold_fmax_dominates (p : list spec_float) (l : list nat) : forall v,
  finite_block T p ->
  (v = fzero \/ pos_finite T v) ->
  let r := foldl (fun acc i => fmax acc (fabs (p !!! i))) v l in
  (forall g, dominated T v g -> dominated T r g) /\
  Forall (fun i => dominated T r (fabs (p !!! i))) l.
Proof using Type.
  induction l as [|i l IH]; intros v Hp Hv; cbn [foldl].
  - split; [auto | constructor].
  - assert (Hfi : is_finite T (p !!! i) = true).
    { rewrite list_lookup_total_alt.
      destruct (p !! i) as [f|] eqn:E; [|reflexivity].
      unfold finite_block in Hp. rewrite Forall_lookup in Hp.
      exact (Hp i f E). }
    pose proof (fabs_finite T _ Hfi) as Hf.
    destruct (fmax_dominates v _ Hv Hf) as [D1 D2].
    destruct (fmax_nonneg T v _ Hv Hf) as [Hn _].
    destruct (IH _ Hp Hn) as [I1 I2]. cbv zeta in *.
    split; [auto|]. constructor; auto.
Qed.
End Domination.

Section Quantise.
Variable T : ScalarTraits.
Hypothesis HT : traits_ok T.
Hypothesis HI : ieee_like T.

Lemma quantize_factor_eq e :
  - 2 ^ 29 < e < 2 ^ 29 ->
  quantize_factor T e
  = SFldexp (fmt_prec T) (fmt_emax T) (SFone (fmt_prec T) (fmt_emax T))
      (get_precision T - 2 - e).
Proof using HT HI.
  intros He. unfold quantize_factor.
  destruct HT as (_ & HE & _). destruct HI as (_ & _ & HP & _).
  rewrite (int32_small (get_precision T - 2)) by lia.
  rewrite int32_small by lia. reflexivity.
Qed.

(** X20. The scale factor is a power of two, or overflows. For an
    exponent [e], with [q = precision - 2 - e] at least [2 - emax],
    [quantize_factor] is the floating-point number [2 ^ q] (mantissa
    [2 ^ (prec - 1)], exponent [q + 1 - prec]) as long as [q < emax],
    and plus infinity from [q = emax] on: for [double], for every
    exponent below [-961]. *)
Theorem quantize_factor_pow2 (e : Z) :
  - 2 ^ 29 < e < 2 ^ 29 ->
  let q := get_precision T - 2 - e in
  2 - fmt_emax T <= q ->
  quantize_factor T e
  = if q <? fmt_emax T
    then S754_finite false (Z.to_pos (2 ^ (fmt_prec T - 1)))
           (q + 1 - fmt_prec T)
    else S754_infinity false.
Proof using HT HI.
  intros He q Hq. rewrite quantize_factor_eq by assumption. fold q.
  destruct HI as (Hp & HE & _).
  destruct (SFldexp_one (fmt_prec T) (fmt_emax T) Hp HE q) as (M & V & _ & S).
  rewrite (S Hq), <- V, Pos2Z.id. reflexivity.
Qed.

(** X21. Quantisation leaves two bits of headroom. For a block of
    finite numbers and its own [max_exponent], whenever the scale
    factor is finite, [fwd_cast] returns [BlockSize] integers, each
    below [2 ^ (w - 2)] in absolute value, [w] being the width of
    [Int]: the cast never saturates, products that underflow
    included. *)
Theorem fwd_cast_headroom (bs : BlockSize) (fblock : list spec_float) :
  finite_block T fblock ->
  let emax := max_exponent T bs fblock in
  get_precision T - 2 - emax < fmt_emax T ->
  length (fwd_cast T bs fblock emax) = bsize bs /\
  Forall (headroom (traits_int T)) (fwd_cast T bs fblock emax).
Proof using HT HI.
  intros Hp emax Hq.
  unfold fwd_cast. rewrite length_map, length_seq. split; [reflexivity|].
  destruct HI as (Hprec & HE & HP & Hw).
  pose proof HT as (Hpr' & HE' & Hb & Hbe & _).
  (* the scan and what it bounds *)
  pose proof (max_val_spec T bs fblock Hp) as [Hr Hz].
  destruct (fold_fmax_dominates T fblock (seq 0 (bsize bs)) fzero Hp
              (or_introl eq_refl)) as [_ Hdom].
  cbv zeta in Hr, Hz, Hdom. unfold for_range in Hr, Hz.
  unfold emax, max_exponent, for_range in *.
  set (r := foldl _ fzero (seq 0 (bsize bs))) in *.
  set (E := exponent T r) in *.
  assert (HEr : - get_ebias T <= E <= fmt_emax T /\
                (pos_finite T r -> float_top r <= E)).
  { destruct Hr as [Er | Hpos].
    - unfold E. rewrite Er. unfold exponent. cbn [SFltb SFcompare fzero].
      rewrite int32_small by lia.
      split; [lia|]. intros (? & ? & Ez & _). discriminate Ez.
    - pose proof (exponent_pos_finite T HT r Hpos) as B. fold E in B.
      split; [lia|]. intros _.
      destruct Hpos as (m & e & Er & Hv). rewrite Er in Hv.
      destruct (valid_binary_bounds _ _ _ _ _ Hv) as [Hd HEb].
      unfold E, exponent, frexp_exp. rewrite Er.
      cbn [SFltb SFcompare fzero float_top].
      rewrite SFfrexp_exponent by assumption.
      rewrite !int32_small by lia. lia. }
  destruct HEr as [HEr Htop].
  rewrite quantize_factor_eq by lia.
  destruct (SFldexp_one (fmt_prec T) (fmt_emax T) Hprec HE
              (get_precision T - 2 - E)) as (M & V & _ & S).
  rewrite S by lia.
  destruct (Z.ltb_spec (get_precision T - 2 - E) (fmt_emax T)); [|lia].
  apply Forall_fmap, Forall_forall. intros i Hi. cbn.
  apply cast_below. rewrite <- Hw.
  apply SFmul_pow2_below; try assumption; try lia.
  rewrite Forall_forall in Hdom. specialize (Hdom i Hi).
  assert (Hfi : is_finite T (fblock !!! i) = true).
  { rewrite list_lookup_total_alt.
    destruct (fblock !! i) as [f|] eqn:Ef; [|reflexivity].
    unfold finite_block in Hp. rewrite Forall_lookup in Hp.
    exact (Hp i f Ef). }
  destruct (fblock !!! i) as [s | s | | s m e]; try discriminate Hfi;
    [exact I|].
  split; [exact Hfi|].
  destruct Hdom as [Ez | [Hpos Hle]]; [discriminate Ez|].
  specialize (Htop Hpos). cbn [fabs SFabs float_top] in Hle. lia.
Qed.

(** X22. With an infinite scale factor no product of [fwd_cast] is
    finite: [s * x] is an infinity of the sign of [x] for every [x]
    other than a zero or a NaN, and a NaN for these. So what [fwd_cast]
    converts to [Int] is then never in the range of [Int]. *)
Theorem scaled_product_overflow (e : Z) (x : spec_float) :
  - 2 ^ 29 < e < 2 ^ 29 ->
  fmt_emax T <= get_precision T - 2 - e ->
  fmul T (quantize_factor T e) x
  = match x with
    | S754_zero _ | S754_nan => S754_nan
    | S754_infinity s | S754_finite s _ _ => S754_infinity s
    end.
Proof using HT HI.
  intros He Hq.
  destruct HI as (Hprec & HE & HP & Hw).
  rewrite quantize_factor_eq by assumption.
  destruct (SFldexp_one (fmt_prec T) (fmt_emax T) Hprec HE
              (get_precision T - 2 - e)) as (M & _ & _ & S).
  rewrite S by lia.
  destruct (Z.ltb_spec (get_precision T - 2 - e) (fmt_emax T)); [lia|].
  unfold fmul. destruct x as [s | s | | s m e']; reflexivity.
Qed.
End Quantise.

Lemma double_ieee_like : ieee_like double_traits.
Proof. unfold ieee_like. cbn. lia. Qed.

Lemma float_ieee_like : ieee_like float_traits.
Proof. unfold ieee_like. cbn. lia. Qed.

Lemma quantize_factor_pow2_witness :
  quantize_factor double_traits 1
  = S754_finite false (Z.to_pos (2 ^ (53 - 1))) (64 - 2 - 1 + 1 - 53).
Proof.
  refine (quantize_factor_pow2 double_traits double_traits_ok
            double_ieee_like 1 _ _); cbn; lia.
Defined.

Lemma fwd_cast_headroom_witness :
  Forall (headroom I64)
    (fwd_cast double_traits B4
       [one_double; S754_zero true; one_double; S754_finite true 3 (-1074)]
       (max_exponent double_traits B4
          [one_double; S754_zero true; one_double;
           S754_finite true 3 (-1074)])).
Proof.
  refine (proj2 (fwd_cast_headroom double_traits double_traits_ok
                   double_ieee_like B4
                   [one_double; S754_zero true; one_double;
                    S754_finite true 3 (-1074)] _ _)).
  - repeat constructor.
  - vm_compute. reflexivity.
Defined.

Lemma scaled_product_overflow_witness :
  fmul double_traits
    (quantize_factor double_traits
       (max_exponent double_traits B4
          [S754_finite false 4503599627370496 (-1052); S754_zero false;
           S754_finite true 4503599627370496 (-1060); S754_zero true]))
    (S754_finite true 4503599627370496 (-1060))
  = S754_infinity true.
Proof.
  refine (scaled_product_overflow double_traits double_traits_ok
            double_ieee_like _ (S754_finite true 4503599627370496 (-1060))
            _ _).
  - vm_compute. split; reflexivity.
  - vm_compute. discriminate.
Defined.

(* ================================================================= *)
(** ** Magnitude and code length *)

(** The low [n] bits of the mask lie between a quarter and three
    quarters of [2 ^ n]. *)
Lemma nbmask_window k n :
  2 <= n <= int_bits k ->
  2 ^ (n - 2) <= nbmask k mod 2 ^ n < 3 * 2 ^ (n - 2).
Proof.
  intros Hn.
  assert (G : forall m : nat, (m <= 62)%nat ->
              Z.of_nat m + 2 <= int_bits k ->
              2 ^ (Z.of_nat m + 2 - 2)
              <= nbmask k mod 2 ^ (Z.of_nat m + 2)
              < 3 * 2 ^ (Z.of_nat m + 2 - 2)).
  { intros m Hm Hk.
    destruct k;
      do 63 (destruct m as [|m];
             [first [vm_compute; split; [discriminate|reflexivity]
                    | exfalso; vm_compute in Hk; auto] |]);
      lia. }
  assert (Hk : int_bits k <= 64) by (destruct k; cbn; lia).
  specialize (G (Z.to_nat (n - 2)) ltac:(lia)).
  rewrite Z2Nat.id in G by lia.
  replace (n - 2 + 2) with n in G by lia. apply G. lia.
Qed.

(** A small magnitude leaves the high digits clear. *)
Lemma int2uint_high k n x :
  2 <= n <= int_bits k -> Z.abs x <= 2 ^ (n - 2) ->
  Z.shiftr (int2uint k x) n = 0.
Proof.
  intros Hn Hx.
  pose proof (nbmask_window k n Hn) as Wd.
  set (w := int_bits k) in *. set (M := nbmask k) in *.
  assert (HM : 0 <= M < 2 ^ w) by (unfold M, w; destruct k; cbn; lia).
  assert (Pn : 0 < 2 ^ n) by (apply Z.pow_pos_nonneg; lia).
  assert (Pq : 0 < 2 ^ (n - 2)) by (apply Z.pow_pos_nonneg; lia).
  assert (E4 : 2 ^ n = 4 * 2 ^ (n - 2)).
  { replace n with (2 + (n - 2)) at 1 by lia.
    rewrite Z.pow_add_r by lia. reflexivity. }
  assert (Ew : 2 ^ w = 2 ^ n * 2 ^ (w - n)).
  { rewrite <- Z.pow_add_r by lia. f_equal. lia. }
  assert (Pwn : 0 < 2 ^ (w - n)) by (apply Z.pow_pos_nonneg; lia).
  pose proof (Z.div_mod M (2 ^ n) ltac:(lia)) as DM.
  assert (Hhi : 0 <= M / 2 ^ n < 2 ^ (w - n)).
  { split; [apply Z.div_pos; lia|].
    apply Z.div_lt_upper_bound; lia. }
  assert (Ea : to_uint w (to_uint w x + M) = x + M).
  { unfold to_uint. rewrite Z.add_mod_idemp_l by lia.
    apply Z.mod_small. nia. }
  assert (Es : Z.shiftr (x + M) n = Z.shiftr M n).
  { rewrite !Z.shiftr_div_pow2 by lia.
    symmetry. apply (Z.div_unique (x + M) (2 ^ n) (M / 2 ^ n)
                       (x + M mod 2 ^ n)); lia. }
  unfold int2uint. cbv zeta. fold w M.
  rewrite Ea, Z.shiftr_lxor, Es. apply Z.lxor_nilpotent.
Qed.

Lemma testbit_above u n t :
  0 <= n <= t -> Z.shiftr u n = 0 -> Z.testbit u t = false.
Proof.
  intros Ht U. replace t with ((t - n) + n) by lia.
  rewrite <- Z.shiftr_spec, U by lia. apply Z.bits_0.
Qed.

(** X23. Small coefficients have short negabinary codes: a value of
    absolute value at most [2 ^ (n - 2)] is mapped by [int2uint] below
    [2 ^ n], so every bit from [n] up is clear. *)
Theorem int2uint_small (k : IntKind) (n x : Z) :
  2 <= n <= int_bits k -> Z.abs x <= 2 ^ (n - 2) ->
  0 <= int2uint k x < 2 ^ n /\
  forall t, n <= t -> Z.testbit (int2uint k x) t = false.
Proof.
  intros Hn Hx.
  pose proof (int2uint_high k n x Hn Hx) as U.
  pose proof (int2uint_range k x) as [U0 _].
  assert (Pn : 0 < 2 ^ n) by (apply Z.pow_pos_nonneg; lia).
  split.
  - rewrite Z.shiftr_div_pow2 in U by lia.
    apply Z.div_small_iff in U; lia.
  - intros t Ht. apply (testbit_above _ n); [lia | exact U].
Qed.

Lemma int2uint_small_witness :
  0 <= int2uint I32 (-9) < 2 ^ 6.
Proof.
  refine (proj1 (int2uint_small I32 6 (-9) _ _)); cbn; lia.
Defined.

Lemma fwd_xform_bounded k bs a (p : list Z) :
  2 <= a -> 2 * a < 2 ^ (int_bits k - 1) ->
  Forall (fun x => Z.abs x <= a) p ->
  Forall (fun x => Z.abs x <= a) (fwd_xform k bs p).
Proof.
  intros Ha Hw Hp.
  rewrite fwd_xform_gen.
  pose proof (xform_gen_rel (fun e x => e = x /\ Z.abs x <= a)
                lift4_exact (fwd_lift4 k)) as S.
  destruct (Forall2_eq_and (fun x => Z.abs x <= a)
              (xform_gen lift4_exact bs p)
              (xform_gen (fwd_lift4 k) bs p)) as [_ F]; [|exact F].
  apply S.
  - split; [reflexivity|]. change (@inhabitant Z _) with 1. lia.
  - intros a1 a2 a3 a4 x y z w [-> Hx] [-> Hy] [-> Hz] [-> Hww].
    destruct (fwd_lift4_exact k a x y z w Ha Hw
                ltac:(lia) ltac:(lia) ltac:(lia) ltac:(lia)) as [E B].
    cbv zeta in *. rewrite E. destruct B as (B1 & B2 & B3 & B4).
    repeat split; lia.
  - now apply Forall2_diag.
Qed.

Lemma emit_plane_zero bs ublock t :
  bit_plane bs ublock t = 0 -> emit_plane bs ublock t 0 = ([false], 0).
Proof.
  intros Hz. pose proof (bsize_bounds bs) as HB.
  unfold emit_plane. rewrite Hz.
  destruct (bsize bs) as [|fuel] eqn:E; [lia|].
  cbn [emit_outer].
  destruct (Z.ltb_spec 0 (Z.of_nat (bsize bs))); [reflexivity | lia].
Qed.

(** The planes above the highest set bit cost one clear bit each. *)
Lemma emit_planes_zero_top bs ublock kmin (n0 K : nat) :
  (forall t, Z.of_nat n0 <= t -> bit_plane bs ublock t = 0) ->
  kmin <= Z.of_nat n0 -> (n0 <= K)%nat ->
  emit_planes bs ublock kmin K 0
  = replicate (K - n0) false ++ emit_planes bs ublock kmin n0 0.
Proof.
  intros Hz Hk. induction K as [|K IH]; intros HK.
  - replace n0 with 0%nat by lia. reflexivity.
  - destruct (Nat.eq_dec n0 (S K)) as [-> | Hne].
    + now rewrite Nat.sub_diag.
    + cbn [emit_planes].
      destruct (Z.ltb_spec kmin (Z.of_nat (S K))); [|lia].
      rewrite emit_plane_zero by (apply Hz; lia).
      rewrite IH by lia.
      replace (S K - n0)%nat with (S (K - n0)) by lia. reflexivity.
Qed.

(** X24. A block of small values starts with a run of clear bits. If
    every entry of an integer block is at most [2 ^ j] in absolute
    value, the transform keeps that bound, the bit planes from [j + 2]
    up are empty, and each of them costs one clear bit: the first
    [intprec - (j + 2)] bits of the output are clear, as far as the
    budget goes. *)
Theorem small_block_leading_zeros (bs : BlockSize) (k : IntKind)
        (perm : list nat) (st0 : Stream) (maxbits block_idx : Z)
        (iblock : list Z) (j : Z) :
  0 <= block_idx -> 0 <= maxbits ->
  (block_idx + 1) * maxbits < 2 ^ 32 ->
  slot_clear st0 (block_idx * maxbits) maxbits ->
  1 <= j <= int_bits k - 3 ->
  Forall (fun x => Z.abs x <= 2 ^ j) iblock ->
  let w' := zfp_encode_block_int bs k perm iblock maxbits block_idx st0 in
  let z := int_bits k - (j + 2) in
  take (Z.to_nat z) (block_output w')
  = replicate (Z.to_nat (Z.min maxbits z)) false.
Proof.
  intros Hidx Hmax Hend Hclear Hj Hsmall w' z.
  assert (Hlen : block_idx * maxbits + maxbits < 2 ^ 32) by lia.
  pose proof (zfp_encode_block_int_writes bs st0 maxbits block_idx
                Hidx Hmax k perm iblock Hclear Hlen) as W.
  fold w' in W. rewrite (writes_output _ _ _ _ W).
  (* the transform keeps the bound *)
  assert (Pj : 2 <= 2 ^ j).
  { change 2 with (2 ^ 1) at 1. apply Z.pow_le_mono_r; lia. }
  assert (Hw : 2 * 2 ^ j < 2 ^ (int_bits k - 1)).
  { rewrite <- Z.pow_succ_r by lia. apply Z.pow_lt_mono_r; lia. }
  pose proof (fwd_xform_bounded k bs (2 ^ j) iblock Pj Hw Hsmall) as Hx.
  (* so the planes from [j + 2] on are clear *)
  assert (Hz : forall t, Z.of_nat (Z.to_nat (j + 2)) <= t ->
               bit_plane bs (fwd_order k bs perm (fwd_xform k bs iblock)) t
               = 0).
  { intros t Ht. pose proof (bsize_bounds bs) as HB.
    apply Z.bits_inj'. intros i Hi.
    rewrite <- (Z2Nat.id i Hi). unfold bit_plane.
    rewrite gather_bits, Z.bits_0 by lia.
    destruct (Nat.ltb_spec (Z.to_nat i) (bsize bs)) as [Hlt|]; [|reflexivity].
    cbn [andb]. unfold fwd_order.
    erewrite list_lookup_total_correct;
      [|rewrite list_lookup_fmap, lookup_seq_lt by assumption; reflexivity].
    cbn [Nat.add].
    apply (testbit_above _ (j + 2)); [lia|].
    apply int2uint_high; [lia|].
    replace (j + 2 - 2) with j by lia.
    rewrite list_lookup_total_alt.
    destruct (fwd_xform k bs iblock !! _) as [c|] eqn:Ec; cbn.
    - rewrite Forall_lookup in Hx. exact (Hx _ _ Ec).
    - lia. }
  unfold emit_block. rewrite intprec_eq.
  unfold get_precision_int.
  assert (Hib : 0 < int_bits k < 2 ^ 32)
    by (destruct k; split; reflexivity).
  rewrite (u32_small (int_bits k)) by lia. rewrite Z.ltb_irrefl.
  rewrite (emit_planes_zero_top bs _ 0 (Z.to_nat (j + 2))) by (assumption || lia).
  rewrite take_take.
  rewrite take_app_le by (rewrite length_replicate; lia).
  rewrite take_replicate. f_equal. unfold z. lia.
Qed.

Lemma small_block_leading_zeros_witness :
  take (Z.to_nat (int_bits I32 - (3 + 2)))
    (block_output
       (zfp_encode_block_int B4 I32 perm_1 [5; -8; 3; 0] 40 2 zero_stream))
  = replicate (Z.to_nat (Z.min 40 (int_bits I32 - (3 + 2)))) false.
Proof.
  refine (small_block_leading_zeros B4 I32 perm_1 zero_stream 40 2
            [5; -8; 3; 0] 3 _ _ _ _ _ _).
  - lia.
  - lia.
  - reflexivity.
  - apply zero_stream_clear.
  - cbn. lia.
  - repeat constructor; cbn; lia.
Defined.

(* ================================================================= *)
(** ** Decodability *)

Lemma land1_mod x : Z.land x 1 = x mod 2.
Proof. change 1 with (Z.ones 1). now rewrite Z.land_ones by lia. Qed.

Lemma shiftr1_div x : Z.shiftr x 1 = x / 2.
Proof. now rewrite Z.shiftr_div_pow2 by lia. Qed.

Section Decodable.
Variable bs : BlockSize.

Let BS := Z.of_nat (bsize bs).

(** The unary code of the position of the next set bit: two words with
    the same code, each followed by anything, have that bit at the same
    place. *)
Lemma emit_inner_inj fuel : forall x y n s1 s2,
  0 <= n < BS -> 0 < x < 2 ^ (BS - n) -> 0 < y < 2 ^ (BS - n) ->
  BS - 1 <= Z.of_nat fuel + n ->
  (emit_inner bs fuel x n).1.1 ++ s1 = (emit_inner bs fuel y n).1.1 ++ s2 ->
  let rx := emit_inner bs fuel x n in
  let ry := emit_inner bs fuel y n in
  rx.2 = ry.2 /\ s1 = s2 /\ n <= rx.2 < BS /\
  0 <= Z.shiftr rx.1.2 1 < 2 ^ (BS - rx.2 - 1) /\
  0 <= Z.shiftr ry.1.2 1 < 2 ^ (BS - rx.2 - 1) /\
  (Z.shiftr rx.1.2 1 = Z.shiftr ry.1.2 1 -> x = y).
Proof using Type.
  assert (Last : forall x n, n = BS - 1 -> 0 < x < 2 ^ (BS - n) -> x = 1).
  { intros x n -> Hx. replace (BS - (BS - 1)) with 1 in Hx by lia.
    change (2 ^ 1) with 2 in Hx. lia. }
  assert (Half : forall x n, 0 <= n < BS -> 0 < x < 2 ^ (BS - n) ->
                 0 <= Z.shiftr x 1 < 2 ^ (BS - n - 1)).
  { intros x n Hn Hx. rewrite shiftr1_div.
    replace (BS - n) with (Z.succ (BS - n - 1)) in Hx by lia.
    rewrite Z.pow_succ_r in Hx by lia.
    Z.div_mod_to_equations. lia. }
  induction fuel as [|fuel IH]; intros x y n s1 s2 Hn Hx Hy Hf H.
  - cbn [emit_inner fst snd app] in *.
    rewrite (Last x n ltac:(lia) Hx), (Last y n ltac:(lia) Hy).
    replace (BS - n - 1) with 0 by lia.
    change (Z.shiftr 1 1) with 0. change (2 ^ 0) with 1.
    repeat split; auto; lia.
  - cbn [emit_inner] in *. fold BS in H |- *.
    destruct (Z.ltb_spec n (BS - 1)) as [Hlt | Hge].
    + rewrite !land1_mod in *.
      pose proof (Half x n Hn Hx) as Bx. pose proof (Half y n Hn Hy) as By.
      rewrite shiftr1_div in Bx, By.
      destruct (Z.eqb_spec (x mod 2) 0) as [Ex | Ex],
               (Z.eqb_spec (y mod 2) 0) as [Ey | Ey].
      * assert (Hx' : 0 < Z.shiftr x 1 < 2 ^ (BS - (n + 1))).
        { rewrite shiftr1_div. replace (BS - (n + 1)) with (BS - n - 1) by lia.
          Z.div_mod_to_equations. lia. }
        assert (Hy' : 0 < Z.shiftr y 1 < 2 ^ (BS - (n + 1))).
        { rewrite shiftr1_div. replace (BS - (n + 1)) with (BS - n - 1) by lia.
          Z.div_mod_to_equations. lia. }
        specialize (IH (Z.shiftr x 1) (Z.shiftr y 1) (n + 1) s1 s2
                      ltac:(lia) Hx' Hy' ltac:(lia)).
        destruct (emit_inner bs fuel (Z.shiftr x 1) (n + 1))
          as [[ox x'] nx].
        destruct (emit_inner bs fuel (Z.shiftr y 1) (n + 1))
          as [[oy y'] ny].
        cbn [fst snd app] in *. injection H as H.
        destruct (IH H) as (I1 & I2 & I3 & I4 & I5 & I6).
        repeat split; try assumption; try lia.
        intros E. specialize (I6 E). rewrite !shiftr1_div in I6.
        Z.div_mod_to_equations. lia.
      * destruct (emit_inner bs fuel (Z.shiftr x 1) (n + 1))
          as [[ox x'] nx].
        cbn [fst snd app] in H. discriminate H.
      * destruct (emit_inner bs fuel (Z.shiftr y 1) (n + 1))
          as [[oy y'] ny].
        cbn [fst snd app] in H. discriminate H.
      * cbn [fst snd app] in *. injection H as H.
        rewrite !shiftr1_div.
        repeat split; try assumption; try lia.
        intros E. Z.div_mod_to_equations. lia.
    + cbn [fst snd app] in *.
      rewrite (Last x n ltac:(lia) Hx), (Last y n ltac:(lia) Hy).
      replace (BS - n - 1) with 0 by lia.
      change (Z.shiftr 1 1) with 0. change (2 ^ 0) with 1.
      repeat split; auto; lia.
Qed.

(** The group-tested code of the rest of a bit plane determines it,
    whatever follows. *)
Lemma emit_outer_inj fuel : forall x y n r1 r2,
  0 <= n <= BS -> 0 <= x < 2 ^ (BS - n) -> 0 <= y < 2 ^ (BS - n) ->
  BS <= Z.of_nat fuel + n ->
  (emit_outer bs fuel x n).1.1 ++ r1 = (emit_outer bs fuel y n).1.1 ++ r2 ->
  x = y /\ r1 = r2.
Proof using Type.
  assert (Last : forall x n, n = BS -> 0 <= x < 2 ^ (BS - n) -> x = 0).
  { intros x n -> Hx. rewrite Z.sub_diag in Hx. cbn in Hx. lia. }
  pose proof (bsize_bounds bs) as HB.
  induction fuel as [|fuel IH]; intros x y n r1 r2 Hn Hx Hy Hf H.
  - cbn [emit_outer fst snd app] in H.
    rewrite (Last x n ltac:(lia) Hx), (Last y n ltac:(lia) Hy). auto.
  - cbn [emit_outer] in H. fold BS in H.
    destruct (Z.ltb_spec n BS) as [Hlt | Hge].
    + destruct (Z.eqb_spec x 0) as [Ex | Ex], (Z.eqb_spec y 0) as [Ey | Ey].
      * cbn [fst snd app] in H. injection H as H. split; congruence.
      * destruct (emit_inner bs (bsize bs) y n) as [[o1 y1] n1].
        destruct (emit_outer bs fuel (Z.shiftr y1 1) (n1 + 1))
          as [[o2 y2] n2].
        cbn [fst snd app] in H. discriminate H.
      * destruct (emit_inner bs (bsize bs) x n) as [[o1 x1] n1].
        destruct (emit_outer bs fuel (Z.shiftr x1 1) (n1 + 1))
          as [[o2 x2] n2].
        cbn [fst snd app] in H. discriminate H.
      * pose proof (emit_inner_inj (bsize bs) x y n) as I.
        destruct (emit_inner bs (bsize bs) x n) as [[o1x x1] n1x].
        destruct (emit_inner bs (bsize bs) y n) as [[o1y y1] n1y].
        pose proof (IH (Z.shiftr x1 1) (Z.shiftr y1 1) (n1x + 1)) as O.
        cbn [fst snd] in I.
        destruct (emit_outer bs fuel (Z.shiftr x1 1) (n1x + 1))
          as [[o2x x2] n2x].
        specialize (fun s1 s2 => I s1 s2 ltac:(lia) ltac:(lia) ltac:(lia)
                                   ltac:(fold BS; lia)).
        cbv zeta in I.
        destruct (emit_outer bs fuel (Z.shiftr y1 1) (n1y + 1))
          as [[o2y y2] n2y] eqn:Oy.
        cbn [fst snd app] in H. injection H as H.
        rewrite <- !app_assoc in H.
        destruct (I _ _ H) as (I1 & I2 & I3 & I4 & I5 & I6).
        subst n1y. rewrite Oy in O. cbn [fst snd] in O.
        destruct (O r1 r2 ltac:(lia)
                    ltac:(replace (BS - (n1x + 1)) with (BS - n1x - 1)
                            by lia; exact I4)
                    ltac:(replace (BS - (n1x + 1)) with (BS - n1x - 1)
                            by lia; exact I5)
                    ltac:(lia) I2) as [E1 E2].
        split; [exact (I6 E1) | exact E2].
    + cbn [fst snd app] in H.
      rewrite (Last x n ltac:(lia) Hx), (Last y n ltac:(lia) Hy). auto.
Qed.

Lemma bit_plane_lt ublock t : 0 <= bit_plane bs ublock t < 2 ^ BS.
Proof using Type.
  pose proof (bsize_bounds bs) as HB.
  pose proof (bit_plane_range bs ublock t) as [L _].
  split; [exact L|].
  assert (P : 0 < 2 ^ BS) by (apply Z.pow_pos_nonneg; unfold BS; lia).
  assert (U : Z.shiftr (bit_plane bs ublock t) BS = 0).
  { apply Z.bits_inj'. intros i Hi.
    rewrite Z.shiftr_spec, Z.bits_0 by assumption.
    replace (i + BS) with (Z.of_nat (Z.to_nat i + bsize bs)) by (unfold BS; lia).
    unfold bit_plane. rewrite gather_bits by lia.
    destruct (Nat.ltb_spec (Z.to_nat i + bsize bs) (bsize bs)); [lia|].
    reflexivity. }
  rewrite Z.shiftr_div_pow2 in U by (unfold BS; lia).
  apply Z.div_small_iff in U; lia.
Qed.

(** The code of one bit plane determines the plane. *)
Lemma emit_plane_inj u1 u2 t n r1 r2 :
  0 <= n <= BS ->
  (emit_plane bs u1 t n).1 ++ r1 = (emit_plane bs u2 t n).1 ++ r2 ->
  bit_plane bs u1 t = bit_plane bs u2 t /\ r1 = r2.
Proof using Type.
  intros Hn H. unfold emit_plane in H.
  pose proof (bit_plane_lt u1 t) as Bx. pose proof (bit_plane_lt u2 t) as By.
  set (x := bit_plane bs u1 t) in *. set (y := bit_plane bs u2 t) in *.
  pose proof (emit_outer_inj (bsize bs) (Z.shiftr x n) (Z.shiftr y n) n) as O.
  destruct (emit_outer bs (bsize bs) (Z.shiftr x n) n) as [[ox x'] nx].
  destruct (emit_outer bs (bsize bs) (Z.shiftr y n) n) as [[oy y'] ny].
  cbn [fst snd] in *. rewrite <- !app_assoc in H.
  apply app_inj_1 in H as [Hlow H]; [|now rewrite !bits_of_length].
  assert (Pn : 0 < 2 ^ n) by (apply Z.pow_pos_nonneg; lia).
  assert (Sh : forall v, 0 <= v < 2 ^ BS -> 0 <= Z.shiftr v n < 2 ^ (BS - n)).
  { intros v Hv. rewrite Z.shiftr_div_pow2 by lia.
    split; [apply Z.div_pos; lia|].
    apply Z.div_lt_upper_bound; [lia|].
    rewrite <- Z.pow_add_r by lia. replace (n + (BS - n)) with BS by lia.
    lia. }
  destruct (O r1 r2 Hn (Sh x Bx) (Sh y By) ltac:(fold BS; lia) H) as [E1 E2].
  split; [|exact E2].
  apply Z.bits_inj'. intros i Hi.
  destruct (Z.lt_ge_cases i n) as [Hlt | Hge].
  - rewrite <- (Z2Nat.id i Hi).
    rewrite <- (bits_of_lookup x (Z.to_nat n)), <- (bits_of_lookup y (Z.to_nat n))
      by lia.
    now rewrite Hlow.
  - replace i with ((i - n) + n) by lia.
    rewrite <- !Z.shiftr_spec by lia. now rewrite E1.
Qed.

(** So does the code of a run of planes. *)
Lemma emit_planes_inj kmin K : forall u1 u2 n r1 r2,
  0 <= n <= BS ->
  emit_planes bs u1 kmin K n ++ r1 = emit_planes bs u2 kmin K n ++ r2 ->
  (forall t, kmin <= t < Z.of_nat K -> 0 <= t ->
             bit_plane bs u1 t = bit_plane bs u2 t) /\
  r1 = r2.
Proof using Type.
  induction K as [|K IH]; intros u1 u2 n r1 r2 Hn H.
  - cbn [emit_planes app] in H. split; [intros; lia | exact H].
  - cbn [emit_planes] in H.
    destruct (Z.ltb_spec kmin (Z.of_nat (S K))) as [Hk | Hk].
    + pose proof (emit_plane_inj u1 u2 (Z.of_nat K) n) as P.
      pose proof (emit_plane_bounds bs u1 (Z.of_nat K) n Hn) as Bn.
      assert (Same : bit_plane bs u1 (Z.of_nat K) = bit_plane bs u2 (Z.of_nat K)
                     -> (emit_plane bs u1 (Z.of_nat K) n).2
                        = (emit_plane bs u2 (Z.of_nat K) n).2).
      { intros E. unfold emit_plane. now rewrite E. }
      destruct (emit_plane bs u1 (Z.of_nat K) n) as [o1 n1].
      destruct (emit_plane bs u2 (Z.of_nat K) n) as [o2 n2].
      cbn [fst snd] in *. rewrite <- !app_assoc in H.
      destruct (P _ _ Hn H) as [E H'].
      specialize (Same E). subst n2.
      destruct (IH u1 u2 n1 r1 r2 ltac:(fold BS in Bn; lia) H') as [I1 I2].
      split; [|exact I2].
      intros t Ht Ht0.
      destruct (Z.eq_dec t (Z.of_nat K)) as [-> | Hne]; [exact E|].
      apply I1; lia.
    + cbn [app] in H. split; [intros; lia | exact H].
Qed.
End Decodable.

(** Two blocks of [BlockSize] values of the unsigned type with the same
    bit planes are the same. *)
Lemma planes_determine_block bs k (u1 u2 : list Z) :
  length u1 = bsize bs -> length u2 = bsize bs ->
  Forall (fun u => 0 <= u < 2 ^ int_bits k) u1 ->
  Forall (fun u => 0 <= u < 2 ^ int_bits k) u2 ->
  (forall t, 0 <= t < int_bits k -> bit_plane bs u1 t = bit_plane bs u2 t) ->
  u1 = u2.
Proof.
  intros L1 L2 F1 F2 H. pose proof (bsize_bounds bs) as HB.
  apply (list_eq_same_length _ _ (bsize bs)); try assumption.
  intros i x y Hi Ex Ey.
  assert (Hx : u1 !!! i = x) by (now apply list_lookup_total_correct).
  assert (Hy : u2 !!! i = y) by (now apply list_lookup_total_correct).
  rewrite Forall_lookup in F1, F2.
  pose proof (F1 i x Ex) as Bx. pose proof (F2 i y Ey) as By.
  apply Z.bits_inj'. intros t Ht.
  destruct (Z.lt_ge_cases t (int_bits k)) as [Hlt | Hge].
  - specialize (H t ltac:(lia)).
    apply (f_equal (fun v => Z.testbit v (Z.of_nat i))) in H.
    unfold bit_plane in H. rewrite !gather_bits in H by lia.
    destruct (Nat.ltb_spec i (bsize bs)); [|lia].
    cbn [andb] in H. now rewrite Hx, Hy in H.
  - rewrite <- (Z.mod_small x (2 ^ int_bits k)) by lia.
    rewrite <- (Z.mod_small y (2 ^ int_bits k)) by lia.
    assert (0 < int_bits k) by (destruct k; reflexivity).
    rewrite !Z.mod_pow2_bits_high by lia. reflexivity.
Qed.

(** X25. The code is uniquely decodable. With a budget that holds the
    whole code, if the output of the integer driver for one block is a
    prefix of its output for another, the two outputs are equal and so
    are the two blocks of coefficients in coding order
    ([fwd_order] of [fwd_xform]): the code of a block determines every
    bit plane of its coefficients, and no code is the beginning of
    another. *)
Theorem code_determines_coefficients (bs : BlockSize) (k : IntKind)
        (perm : list nat) (maxbits block_idx : Z) (b1 b2 : list Z) :
  0 <= block_idx -> 64 * 129 <= maxbits ->
  (block_idx + 1) * maxbits < 2 ^ 32 ->
  let run b := zfp_encode_block_int bs k perm b maxbits block_idx
                 zero_stream in
  block_output (run b1) `prefix_of` block_output (run b2) ->
  fwd_order k bs perm (fwd_xform k bs b1)
  = fwd_order k bs perm (fwd_xform k bs b2) /\
  block_output (run b1) = block_output (run b2).
Proof.
  intros Hidx Hmax Hend run [r Hpre].
  assert (Hlen : block_idx * maxbits + maxbits < 2 ^ 32) by lia.
  assert (Out : forall b,
             block_output (run b)
             = emit_block bs k perm (get_precision_int k) b).
  { intros b.
    pose proof (zfp_encode_block_int_writes bs zero_stream maxbits block_idx
                  Hidx ltac:(lia) k perm b
                  (zero_stream_clear _ _) Hlen) as W.
    unfold run. rewrite (writes_output _ _ _ _ W).
    pose proof (emit_block_length bs k perm (get_precision_int k) b).
    apply take_ge. lia. }
  rewrite !Out in *.
  assert (U : fwd_order k bs perm (fwd_xform k bs b1)
              = fwd_order k bs perm (fwd_xform k bs b2)).
  { pose proof (bsize_bounds bs) as HB.
    unfold emit_block in Hpre. rewrite intprec_eq in Hpre.
    unfold get_precision_int in Hpre.
    assert (Hib : 0 < int_bits k < 2 ^ 32)
      by (destruct k; split; reflexivity).
    rewrite (u32_small (int_bits k)), Z.ltb_irrefl in Hpre by lia.
    rewrite <- (app_nil_r (emit_planes bs (fwd_order k bs perm (fwd_xform k bs b2)) _ _ _))
      in Hpre.
    symmetry in Hpre.
    destruct (emit_planes_inj bs 0 _ _ _ 0 _ _ ltac:(lia) Hpre) as [P _].
    apply (planes_determine_block bs k).
    - unfold fwd_order. now rewrite length_map, length_seq.
    - unfold fwd_order. now rewrite length_map, length_seq.
    - apply Forall_fmap, Forall_true. intros i. apply int2uint_range.
    - apply Forall_fmap, Forall_true. intros i. apply int2uint_range.
    - intros t Ht. apply P; lia. }
  split; [exact U|].
  unfold emit_block. now rewrite U.
Qed.

Lemma code_determines_coefficients_witness :
  fwd_order I32 B4 perm_1 (fwd_xform I32 B4 [3; -1; 4; 1])
  = fwd_order I32 B4 perm_1 (fwd_xform I32 B4 [3; -1; 4; 1]).
Proof.
  refine (proj1 (code_determines_coefficients B4 I32 perm_1 9000 1
                   [3; -1; 4; 1] [3; -1; 4; 1] _ _ _ _)).
  - lia.
  - lia.
  - reflexivity.
  - exists []. now rewrite app_nil_r.
Defined.

(* ================================================================= *)
(** ** Embedded precision *)

(** Stopping the plane loop later only adds to the code. *)
Lemma emit_planes_prefix bs ublock kmin kmin' K : forall n,
  kmin' <= kmin ->
  emit_planes bs ublock kmin K n `prefix_of` emit_planes bs ublock kmin' K n.
Proof.
  induction K as [|K IH]; intros n Hk; [reflexivity|].
  cbn [emit_planes].
  destruct (Z.ltb_spec kmin (Z.of_nat (S K))) as [H | H].
  - destruct (Z.ltb_spec kmin' (Z.of_nat (S K))); [|lia].
    destruct (emit_plane bs ublock (Z.of_nat K) n) as [o n'].
    apply prefix_app, IH, Hk.
  - apply prefix_nil.
Qed.

(** X26. Precision is embedded too. With the same budget, the output
    of [encode_block] at precision [p] is a prefix of its output at any
    larger precision [p'] ([maxprec] being read as unsigned): lowering
    [maxprec] only cuts the code short after the plane [intprec - p]. *)
Theorem precision_truncation_prefix (bs : BlockSize) (k : IntKind)
        (perm : list nat) (st0 : Stream) (maxbits block_idx p p' : Z)
        (iblock : list Z) :
  0 <= block_idx -> 0 <= maxbits ->
  (block_idx + 1) * maxbits < 2 ^ 32 ->
  slot_clear st0 (block_idx * maxbits) maxbits ->
  u32 p <= u32 p' ->
  let w0 := new_BlockWriter st0 maxbits block_idx in
  block_output (encode_block bs k perm w0 maxbits p iblock)
  `prefix_of` block_output (encode_block bs k perm w0 maxbits p' iblock).
Proof.
  intros Hidx Hmax Hend Hclear Hp w0.
  assert (Hbase : 0 <= block_idx * maxbits) by nia.
  assert (Hlen : block_idx * maxbits + maxbits < 2 ^ 32) by lia.
  pose proof (new_BlockWriter_writes st0 maxbits block_idx Hidx Hmax
                ltac:(lia)) as W0.
  fold w0 in W0.
  assert (Out : forall q,
             block_output (encode_block bs k perm w0 maxbits q iblock)
             = take (Z.to_nat maxbits) (emit_block bs k perm q iblock)).
  { intros q.
    pose proof (encode_block_ran bs st0 _ maxbits Hclear Hbase Hlen k perm
                  w0 maxbits q iblock [] W0) as R.
    cbv zeta in R. rewrite (u32_small maxbits) in R by lia.
    specialize (R ltac:(cbn [length]; lia)).
    exact (writes_output _ _ _ _ R). }
  rewrite !Out.
  assert (P : emit_block bs k perm p iblock
              `prefix_of` emit_block bs k perm p' iblock).
  { unfold emit_block. rewrite intprec_eq.
    apply emit_planes_prefix.
    pose proof (u32_range p) as Rp. pose proof (u32_range p') as Rp'.
    assert (Hib : 0 < int_bits k < 2 ^ 32)
      by (destruct k; split; reflexivity).
    pose proof (u32_range (int_bits k - u32 p)) as Rk.
    destruct (Z.ltb_spec (u32 p) (int_bits k)),
             (Z.ltb_spec (u32 p') (int_bits k)); try lia.
    rewrite (u32_small (int_bits k - u32 p)),
      (u32_small (int_bits k - u32 p')) by lia. lia. }
  destruct P as [r ->].
  destruct (Nat.le_gt_cases (Z.to_nat maxbits)
              (length (emit_block bs k perm p iblock))) as [Hle | Hgt].
  - rewrite take_app_le by assumption. reflexivity.
  - rewrite (take_ge (emit_block bs k perm p iblock)) by lia.
    rewrite take_app_ge by lia. apply prefix_app_r. reflexivity.
Qed.

Lemma precision_truncation_prefix_witness :
  block_output
    (encode_block B4 I32 perm_1 (new_BlockWriter zero_stream 100 1) 100 5
       [70000; -3; 12; 900])
  `prefix_of`
  block_output
    (encode_block B4 I32 perm_1 (new_BlockWriter zero_stream 100 1) 100 20
       [70000; -3; 12; 900]).
Proof.
  refine (precision_truncation_prefix B4 I32 perm_1 zero_stream 100 1 5 20
            [70000; -3; 12; 900] _ _ _ _ _).
  - lia.
  - lia.
  - reflexivity.
  - apply zero_stream_clear.
  - vm_compute. discriminate.
Defined.

(* ================================================================= *)
(** ** Independent blocks *)

Section Commute.
Variables (st0 : Stream) (maxbits i j : Z).
Variables (enc_i enc_j : Stream -> BlockWriter) (Li Lj : list bool).
Hypothesis Hi : 0 <= i.
Hypothesis Hj : 0 <= j.
Hypothesis Hij : i <> j.
Hypothesis Hmax : 0 <= maxbits.
Hypothesis HLi : Z.of_nat (length Li) <= maxbits.
Hypothesis HLj : Z.of_nat (length Lj) <= maxbits.
Hypothesis Wi : forall st, slot_clear st (i * maxbits) maxbits ->
                           writes st (i * maxbits) Li (enc_i st).
Hypothesis Wj : forall st, slot_clear st (j * maxbits) maxbits ->
                           writes st (j * maxbits) Lj (enc_j st).
Hypothesis Ci : slot_clear st0 (i * maxbits) maxbits.
Hypothesis Cj : slot_clear st0 (j * maxbits) maxbits.

(** Two encoders that keep to their own slots: either order leaves the
    same stream, each slot holding its own code. *)
Lemma writes_commute :
  let wij := enc_j (m_stream (enc_i st0)) in
  let wji := enc_i (m_stream (enc_j st0)) in
  (forall p, bit_at (m_stream wij) p = bit_at (m_stream wji) p) /\
  block_output wij = Lj /\ block_output wji = Li /\
  (forall t, (t < length Li)%nat ->
             bit_at (m_stream wij) (i * maxbits + Z.of_nat t) = Li !!! t).
Proof using All.
  intros wij wji.
  assert (D : i * maxbits + maxbits <= j * maxbits \/
              j * maxbits + maxbits <= i * maxbits) by nia.
  pose proof (Wi st0 Ci) as W1. pose proof (Wj st0 Cj) as W2.
  assert (C1 : slot_clear (m_stream (enc_i st0)) (j * maxbits) maxbits).
  { intros p Hp. destruct W1 as (_ & _ & _ & _ & B). rewrite B.
    destruct (Z.leb_spec (i * maxbits) p),
      (Z.ltb_spec p (i * maxbits + Z.of_nat (length Li)));
      cbn [andb]; try (apply Cj; lia). lia. }
  assert (C2 : slot_clear (m_stream (enc_j st0)) (i * maxbits) maxbits).
  { intros p Hp. destruct W2 as (_ & _ & _ & _ & B). rewrite B.
    destruct (Z.leb_spec (j * maxbits) p),
      (Z.ltb_spec p (j * maxbits + Z.of_nat (length Lj)));
      cbn [andb]; try (apply Ci; lia). lia. }
  pose proof (Wj _ C1) as W12. pose proof (Wi _ C2) as W21.
  fold wij in W12. fold wji in W21.
  split; [|split; [exact (writes_output _ _ _ _ W12)|
                   split; [exact (writes_output _ _ _ _ W21)|]]].
  - intros p.
    destruct W12 as (_ & _ & _ & _ & B12). destruct W21 as (_ & _ & _ & _ & B21).
    destruct W1 as (_ & _ & _ & _ & B1). destruct W2 as (_ & _ & _ & _ & B2).
    rewrite B12, B21, B1, B2.
    destruct (Z.leb_spec (i * maxbits) p),
      (Z.ltb_spec p (i * maxbits + Z.of_nat (length Li))),
      (Z.leb_spec (j * maxbits) p),
      (Z.ltb_spec p (j * maxbits + Z.of_nat (length Lj)));
      cbn [andb]; try reflexivity; lia.
  - intros t Ht.
    destruct W12 as (_ & _ & _ & _ & B12). destruct W1 as (_ & _ & _ & _ & B1).
    rewrite B12, B1.
    destruct (Z.leb_spec (j * maxbits) (i * maxbits + Z.of_nat t)),
      (Z.ltb_spec (i * maxbits + Z.of_nat t)
                  (j * maxbits + Z.of_nat (length Lj)));
      cbn [andb]; try lia.
    all: destruct (Z.leb_spec (i * maxbits) (i * maxbits + Z.of_nat t)),
      (Z.ltb_spec (i * maxbits + Z.of_nat t)
                  (i * maxbits + Z.of_nat (length Li)));
      cbn [andb]; try lia.
    all: f_equal; lia.
Qed.
End Commute.

(** What the floating-point driver writes into a clear slot that holds
    the header. *)
Lemma zfp_encode_block_writes_any bs T perm fblock maxbits block_idx st :
  0 <= block_idx -> 0 <= get_ebits T < 64 -> get_ebits T + 1 <= maxbits ->
  block_idx * maxbits + maxbits < 2 ^ 32 ->
  slot_clear st (block_idx * maxbits) maxbits ->
  let L := if block_e bs T fblock =? 0 then []
           else bits_of (u32 (2 * block_e bs T fblock + 1))
                  (Z.to_nat (get_ebits T + 1))
                ++ take (Z.to_nat (maxbits - (get_ebits T + 1)))
                     (emit_block bs (traits_int T) perm
                        (block_maxprec bs T fblock)
                        (fwd_cast T bs fblock (max_exponent T bs fblock))) in
  writes st (block_idx * maxbits) L
    (zfp_encode_block bs T perm fblock maxbits block_idx st) /\
  Z.of_nat (length L) <= maxbits.
Proof.
  intros Hidx Hebits Hhdr Hlen Hclear L. subst L.
  destruct (Z.eqb_spec (block_e bs T fblock) 0) as [E0 | E0].
  - rewrite zfp_encode_block_e0 by assumption.
    split; [|cbn [length]; lia].
    assert (0 <= block_idx * maxbits) by nia.
    apply new_BlockWriter_writes; lia.
  - pose proof (zfp_encode_block_writes bs T perm fblock st maxbits
                  block_idx maxbits Hidx ltac:(lia) Hebits Hclear Hlen E0)
      as W.
    rewrite (u32_small (maxbits - (get_ebits T + 1))) in W
      by (assert (0 <= block_idx * maxbits) by nia; lia).
    specialize (W ltac:(lia)).
    split; [exact W|].
    rewrite length_app, bits_of_length, length_take. lia.
Qed.

(** X27. Blocks do not interfere. Encoding block [i] and then block
    [j <> i] into one stream whose two slots are clear, or [j] and
    then [i], leaves the same bits in the stream; the second block is
    coded as it would be alone, and the slot of the first still holds
    its code. This holds for the integer drivers and, when the budget
    holds the header, for the floating-point driver. *)
Theorem blocks_commute (bs : BlockSize) (perm : list nat) (st0 : Stream)
        (maxbits i j : Z) :
  0 <= i -> 0 <= j -> i <> j -> 0 <= maxbits ->
  (i + 1) * maxbits < 2 ^ 32 -> (j + 1) * maxbits < 2 ^ 32 ->
  slot_clear st0 (i * maxbits) maxbits ->
  slot_clear st0 (j * maxbits) maxbits ->
  (forall k bi bj,
     let enc b idx st := zfp_encode_block_int bs k perm b maxbits idx st in
     let wij := enc bj j (m_stream (enc bi i st0)) in
     let wji := enc bi i (m_stream (enc bj j st0)) in
     (forall p, bit_at (m_stream wij) p = bit_at (m_stream wji) p) /\
     block_output wij = block_output (enc bj j st0) /\
     (forall t, (t < length (block_output (enc bi i st0)))%nat ->
        bit_at (m_stream wij) (i * maxbits + Z.of_nat t)
        = block_output (enc bi i st0) !!! t)) /\
  (forall T fi fj,
     0 <= get_ebits T < 64 -> get_ebits T + 1 <= maxbits ->
     let enc b idx st := zfp_encode_block bs T perm b maxbits idx st in
     let wij := enc fj j (m_stream (enc fi i st0)) in
     let wji := enc fi i (m_stream (enc fj j st0)) in
     (forall p, bit_at (m_stream wij) p = bit_at (m_stream wji) p) /\
     block_output wij = block_output (enc fj j st0) /\
     (forall t, (t < length (block_output (enc fi i st0)))%nat ->
        bit_at (m_stream wij) (i * maxbits + Z.of_nat t)
        = block_output (enc fi i st0) !!! t)).
Proof.
  intros Hi Hj Hij Hmax Hendi Hendj Ci Cj.
  assert (Hleni : i * maxbits + maxbits < 2 ^ 32) by lia.
  assert (Hlenj : j * maxbits + maxbits < 2 ^ 32) by lia.
  split.
  - intros k bi bj enc wij wji.
    set (Li := take (Z.to_nat maxbits)
                 (emit_block bs k perm (get_precision_int k) bi)).
    set (Lj := take (Z.to_nat maxbits)
                 (emit_block bs k perm (get_precision_int k) bj)).
    assert (Wi : forall st, slot_clear st (i * maxbits) maxbits ->
                 writes st (i * maxbits) Li (enc bi i st)).
    { intros st C.
      exact (zfp_encode_block_int_writes bs st maxbits i Hi Hmax k perm bi
               C Hleni). }
    assert (Wj : forall st, slot_clear st (j * maxbits) maxbits ->
                 writes st (j * maxbits) Lj (enc bj j st)).
    { intros st C.
      exact (zfp_encode_block_int_writes bs st maxbits j Hj Hmax k perm bj
               C Hlenj). }
    destruct (writes_commute st0 maxbits i j (enc bi i) (enc bj j) Li Lj
                Hi Hj Hij Hmax
                ltac:(unfold Li; rewrite length_take; lia)
                ltac:(unfold Lj; rewrite length_take; lia)
                Wi Wj Ci Cj) as (A & B & _ & D).
    fold wij in A, B, D. fold wji in A.
    rewrite (writes_output _ _ _ _ (Wi st0 Ci)),
      (writes_output _ _ _ _ (Wj st0 Cj)).
    auto.
  - intros T fi fj Hebits Hhdr enc wij wji.
    pose proof (fun st C => zfp_encode_block_writes_any bs T perm fi maxbits
                              i st Hi Hebits Hhdr Hleni C) as Wi.
    pose proof (fun st C => zfp_encode_block_writes_any bs T perm fj maxbits
                              j st Hj Hebits Hhdr Hlenj C) as Wj.
    cbv zeta in Wi, Wj.
    set (Li := if block_e bs T fi =? 0 then [] else _) in *.
    set (Lj := if block_e bs T fj =? 0 then [] else _) in *.
    destruct (writes_commute st0 maxbits i j (enc fi i) (enc fj j) Li Lj
                Hi Hj Hij Hmax
                (proj2 (Wi st0 Ci)) (proj2 (Wj st0 Cj))
                (fun st C => proj1 (Wi st C)) (fun st C => proj1 (Wj st C))
                Ci Cj) as (A & B & _ & D).
    fold wij in A, B, D. fold wji in A.
    pose proof (writes_output _ _ _ _ (proj1 (Wi st0 Ci))) as Oi.
    pose proof (writes_output _ _ _ _ (proj1 (Wj st0 Cj))) as Oj.
    change (block_output (enc fi i st0) = Li) in Oi.
    change (block_output (enc fj j st0) = Lj) in Oj.
    rewrite Oi, Oj. auto.
Qed.

Lemma blocks_commute_witness :
  block_output
    (zfp_encode_block_int B4 I32 perm_1 [1; 2; 3; 4] 48 5
       (m_stream
          (zfp_encode_block_int B4 I32 perm_1 [-7; 0; 9; 1] 48 2
             zero_stream)))
  = block_output
      (zfp_encode_block_int B4 I32 perm_1 [1; 2; 3; 4] 48 5 zero_stream).
Proof.
  pose proof (blocks_commute B4 perm_1 zero_stream 48 2 5
                ltac:(lia) ltac:(lia) ltac:(lia) ltac:(lia)
                ltac:(reflexivity) ltac:(reflexivity)
                (zero_stream_clear _ _) (zero_stream_clear _ _)) as [Hint _].
  exact (proj1 (proj2 (Hint I32 [-7; 0; 9; 1] [1; 2; 3; 4]))).
Defined.

(* ================================================================= *)
(** ** Exact quantisation *)

Lemma cast_unclamped k f :
  float_below (int_bits k - 2) f -> cast_to_int k f = scaled_trunc 0 f.
Proof.
  intros Hb. pose proof (cast_below k f Hb) as Hh.
  destruct f as [s | s | | s m e]; try contradiction; [reflexivity|].
  unfold headroom in Hh. cbn [cast_to_int scaled_trunc] in *.
  rewrite Z.add_0_r.
  assert (E1 : 2 ^ (int_bits k - 1) = 2 * 2 ^ (int_bits k - 2)).
  { replace (int_bits k - 1) with (Z.succ (int_bits k - 2)) by lia.
    apply Z.pow_succ_r. destruct k; cbn; lia. }
  rewrite E1 in *.
  set (mag := if 0 <=? e then Z.pos m * 2 ^ e else Z.pos m / 2 ^ (- e)) in *.
  assert (0 <= mag).
  { unfold mag. destruct (Z.leb_spec 0 e).
    - apply Z.mul_nonneg_nonneg; [lia|]. apply Z.pow_nonneg. lia.
    - apply Z.div_pos; [lia|]. apply Z.pow_pos_nonneg; lia. }
  destruct s; lia.
Qed.

Lemma trunc_below_zero f : float_below 0 f -> scaled_trunc 0 f = 0.
Proof.
  destruct f as [s | s | | s m e]; cbn [float_below scaled_trunc];
    try reflexivity.
  intros Hb. rewrite Z.add_0_r.
  assert (He : e < 0).
  { destruct (Z.lt_ge_cases e 0) as [|He]; [assumption|].
    destruct (Z.eq_dec e 0) as [-> | ?]; [cbn in Hb; lia|].
    rewrite Z.pow_neg_r in Hb by lia. lia. }
  destruct (Z.leb_spec 0 e); [lia|].
  rewrite Z.div_small by (rewrite Z.sub_0_l in Hb; lia).
  now destruct s.
Qed.

Section Exact.
Variables prec Emax : Z.
Hypothesis Hprec : 1 < prec.
Hypothesis HEmax : 5 <= Emax.

(** The product of a mantissa with a power of two, rounded and then
    truncated, is the truncated exact product. *)
Lemma binary_round_aux_scaled_trunc s c e0 N :
  let d := Z.pos (digits2_pos c) in
  d <= prec -> d + (prec - 1) + e0 <= N -> N <= Emax ->
  scaled_trunc 0
    (binary_round_aux prec Emax s (Z.pos c * 2 ^ (prec - 1)) e0 loc_Exact)
  = scaled_trunc (prec - 1) (S754_finite s c e0).
Proof using Hprec HEmax.
  intros d Hd HN Hhi.
  pose proof (digits2_pos_bounds c) as [Lc Uc]. fold d in Lc, Uc.
  assert (Hd0 : 0 < d) by (unfold d; lia).
  set (k := prec - 1) in *.
  set (n := fexp prec Emax (d + k + e0) - e0).
  assert (Pk : 0 < 2 ^ k) by (apply Z.pow_pos_nonneg; lia).
  cbn [scaled_trunc].
  destruct (Z.le_gt_cases n k) as [Hn | Hn].
  - assert (Hn0 : 0 <= n) by (unfold n; rewrite fexp_eq; lia).
    rewrite (binary_round_aux_exact prec Emax s c k e0 ltac:(lia)
               (conj Hn0 Hn)).
    fold d. fold n.
    destruct (Z.leb_spec (e0 + n) (Emax - prec)) as [_ | H];
      [|unfold n in H; rewrite fexp_eq in H; lia].
    cbn [scaled_trunc].
    assert (Pa : 0 < 2 ^ (k - n)) by (apply Z.pow_pos_nonneg; lia).
    rewrite Z2Pos.id, Z.add_0_r by lia.
    match goal with
    | |- (if s then - ?a else ?a) = (if s then - ?b else ?b) =>
        assert (Mg : a = b); [|now rewrite Mg]
    end.
    destruct (Z.leb_spec 0 (e0 + n)) as [Hb | Hb],
             (Z.leb_spec 0 (e0 + k)) as [Hab | Hab]; try lia.
    + rewrite <- Z.mul_assoc, <- Z.pow_add_r by lia. do 2 f_equal. lia.
    + replace (2 ^ (k - n)) with (2 ^ (e0 + k) * 2 ^ (- (e0 + n)))
        by (rewrite <- Z.pow_add_r by lia; f_equal; lia).
      rewrite Z.mul_assoc, Z.div_mul; [reflexivity|].
      apply Z.pow_nonzero; lia.
    + replace (2 ^ (- (e0 + n))) with (2 ^ (- (e0 + k)) * 2 ^ (k - n))
        by (rewrite <- Z.pow_add_r by lia; f_equal; lia).
      rewrite Z.div_mul_cancel_r; [reflexivity| |lia].
      apply Z.pow_nonzero; lia.
  - assert (Hpos : 0 < Z.pos c * 2 ^ k) by lia.
    assert (D : Z.pos (digits2_pos (Z.to_pos (Z.pos c * 2 ^ k))) = d + k).
    { apply digits2_pos_unique. rewrite Z2Pos.id by assumption.
      replace (d + k - 1) with (d - 1 + k) by lia.
      rewrite !Z.pow_add_r by lia. nia. }
    assert (Hu : e0 + k < 3 - Emax - prec)
      by (unfold n in Hn; rewrite fexp_eq in Hn; lia).
    rewrite <- (Z2Pos.id (Z.pos c * 2 ^ k)) by assumption.
    rewrite trunc_below_zero.
    + destruct (Z.leb_spec 0 (e0 + k)); [lia|].
      rewrite Z.div_small; [now destruct s|].
      split; [lia|]. apply Z.lt_le_trans with (2 ^ prec).
      * apply Z.lt_le_trans with (1 := Uc). apply Z.pow_le_mono_r; lia.
      * apply Z.pow_le_mono_r; lia.
    + apply (binary_round_aux_underflow prec Emax Hprec HEmax); rewrite ?D.
      * unfold n in Hn. rewrite fexp_eq in *. lia.
      * lia.
      * lia.
Qed.

Lemma SFmul_pow2_trunc M q s m e :
  Z.pos M = 2 ^ (prec - 1) ->
  valid_binary prec Emax (S754_finite s m e) = true ->
  Z.pos (digits2_pos m) + e + q <= Emax ->
  scaled_trunc 0 (SFmul prec Emax (S754_finite false M (q + 1 - prec))
                    (S754_finite s m e))
  = scaled_trunc q (S754_finite s m e).
Proof using Hprec HEmax.
  intros HM Hv Hb.
  destruct (valid_binary_bounds _ _ _ _ _ Hv) as [Hd _].
  cbn [SFmul xorb]. rewrite Pos2Z.inj_mul, HM, Z.mul_comm.
  rewrite (binary_round_aux_scaled_trunc s m (q + 1 - prec + e) Emax)
    by (auto; lia).
  cbn [scaled_trunc].
  replace (q + 1 - prec + e + (prec - 1)) with (e + q) by lia.
  reflexivity.
Qed.
End Exact.

Section QuantiseExact.
Variable T : ScalarTraits.
Hypothesis HT : traits_ok T.

(** [max_exponent] bounds the exponent of [frexp] of every entry. *)
Lemma max_exponent_entries bs (p : list spec_float) :
  finite_block T p ->
  let E := max_exponent T bs p in
  - get_ebias T <= E <= fmt_emax T /\
  forall i, (i < bsize bs)%nat ->
    match p !!! i with
    | S754_zero _ => True
    | S754_finite s m e =>
        valid_binary (fmt_prec T) (fmt_emax T) (p !!! i) = true /\
        1 - get_ebias T <= E /\ Z.pos (digits2_pos m) + e <= E
    | _ => False
    end.
Proof using HT.
  intros Hp E.
  pose proof HT as (Hpr' & HE' & Hb & Hbe & _).
  pose proof (max_val_spec T bs p Hp) as [Hr Hz].
  destruct (fold_fmax_dominates T p (seq 0 (bsize bs)) fzero Hp
              (or_introl eq_refl)) as [_ Hdom].
  cbv zeta in Hr, Hz, Hdom. unfold for_range in Hr, Hz.
  unfold E, max_exponent, for_range in *.
  set (r := foldl _ fzero (seq 0 (bsize bs))) in *.
  assert (HEr : - get_ebias T <= exponent T r <= fmt_emax T /\
                (pos_finite T r ->
                 1 - get_ebias T <= exponent T r /\
                 float_top r <= exponent T r)).
  { destruct Hr as [Er | Hpos].
    - rewrite Er. unfold exponent. cbn [SFltb SFcompare fzero].
      rewrite int32_small by lia.
      split; [lia|]. intros (? & ? & Ez & _). discriminate Ez.
    - pose proof (exponent_pos_finite T HT r Hpos) as B.
      split; [lia|]. intros _. split; [lia|].
      destruct Hpos as (m & e & Er & Hv). rewrite Er in Hv.
      destruct (valid_binary_bounds _ _ _ _ _ Hv) as [Hd HEb].
      unfold exponent, frexp_exp. rewrite Er.
      cbn [SFltb SFcompare fzero float_top].
      rewrite SFfrexp_exponent by assumption.
      rewrite !int32_small by lia. lia. }
  destruct HEr as [HEr Htop]. split; [exact HEr|].
  intros i Hi.
  rewrite Forall_forall in Hdom.
  specialize (Hdom i ltac:(apply elem_of_seq; lia)).
  assert (Hfi : is_finite T (p !!! i) = true).
  { rewrite list_lookup_total_alt.
    destruct (p !! i) as [f|] eqn:Ef; [|reflexivity].
    unfold finite_block in Hp. rewrite Forall_lookup in Hp.
    exact (Hp i f Ef). }
  destruct (p !!! i) as [s | s | | s m e]; try discriminate Hfi; [exact I|].
  split; [exact Hfi|].
  destruct Hdom as [Ez | [Hpos Hle]]; [discriminate Ez|].
  destruct (Htop Hpos) as [H1 H2].
  cbn [fabs SFabs float_top] in Hle. lia.
Qed.

Hypothesis HI : ieee_like T.

(** X28. Quantisation is exact. For a block of finite numbers and
    its own [max_exponent], whenever the scale factor is finite, entry
    [i] of [fwd_cast] is the integer part (toward zero) of
    [fblock[i] * 2 ^ q] with [q = precision - 2 - emax]: the rounding
    of the floating-point product never shows in the result. *)
Theorem fwd_cast_exact (bs : BlockSize) (fblock : list spec_float)
        (i : nat) :
  finite_block T fblock ->
  let emax := max_exponent T bs fblock in
  let q := get_precision T - 2 - emax in
  q < fmt_emax T -> (i < bsize bs)%nat ->
  fwd_cast T bs fblock emax !!! i = scaled_trunc q (fblock !!! i).
Proof using HT HI.
  intros Hp emax q Hq Hi.
  destruct HI as (Hprec & HE & HP & Hw).
  pose proof HT as (Hpr' & HE' & Hb & Hbe & _).
  destruct (max_exponent_entries bs fblock Hp) as [HEr Hent].
  fold emax in HEr, Hent. specialize (Hent i Hi).
  unfold fwd_cast.
  erewrite list_lookup_total_correct;
    [|rewrite list_lookup_fmap, lookup_seq_lt by assumption; reflexivity].
  cbn [Nat.add].
  rewrite (quantize_factor_eq T HT (conj Hprec (conj HE (conj HP Hw))))
    by lia.
  destruct (SFldexp_one (fmt_prec T) (fmt_emax T) Hprec HE
              (get_precision T - 2 - emax)) as (M & V & _ & S).
  rewrite S by lia. fold q.
  destruct (Z.ltb_spec q (fmt_emax T)); [|lia].
  unfold fmul.
  destruct (fblock !!! i) as [s | s | | s m e]; try contradiction;
    [reflexivity|].
  destruct Hent as (Hv & _ & Htop).
  rewrite cast_unclamped.
  - apply SFmul_pow2_trunc; try assumption. unfold q. lia.
  - rewrite <- Hw.
    apply SFmul_pow2_below; try assumption; try lia.
    split; [exact Hv | unfold q; lia].
Qed.
End QuantiseExact.

Lemma fwd_cast_exact_witness :
  fwd_cast double_traits B4
    [one_double; S754_zero true; one_double; S754_finite true 3 (-1074)]
    (max_exponent double_traits B4
       [one_double; S754_zero true; one_double;
        S754_finite true 3 (-1074)])
  !!! 0%nat
  = scaled_trunc
      (64 - 2 - max_exponent double_traits B4
                  [one_double; S754_zero true; one_double;
                   S754_finite true 3 (-1074)])
      one_double.
Proof.
  refine (fwd_cast_exact double_traits double_traits_ok double_ieee_like B4
            [one_double; S754_zero true; one_double;
             S754_finite true 3 (-1074)] 0 _ _ _).
  - repeat constructor.
  - vm_compute. reflexivity.
  - cbn. lia.
Defined.

Lemma fmax_either a b : fmax a b = a \/ fmax a b = b.
Proof.
  unfold fmax. destruct a, b; auto; destruct (SFltb _ _); auto.
Qed.

Lemma fold_fmax_attained (p : list spec_float) (l : list nat) : forall v,
  let r := foldl (fun acc i => fmax acc (fabs (p !!! i))) v l in
  r = v \/ exists i, i ∈ l /\ r = fabs (p !!! i).
Proof.
  induction l as [|i l IH]; intros v; cbn [foldl]; [now left|].
  destruct (IH (fmax v (fabs (p !!! i)))) as [E | (i' & Hi' & E)];
    cbv zeta in *.
  - rewrite E. destruct (fmax_either v (fabs (p !!! i))) as [-> | ->].
    + now left.
    + right. exists i. split; [apply elem_of_cons; now left | reflexivity].
  - right. exists i'. split; [apply elem_of_cons; now right | exact E].
Qed.

Section MaxExponent.
Variable T : ScalarTraits.
Hypothesis HT : traits_ok T.

(** X29. [max_exponent] is the largest exponent in the block: for a
    block of finite numbers it is at least the [exponent] of the
    absolute value of every entry, and it is that of one of them. *)
Theorem max_exponent_is_max (bs : BlockSize) (fblock : list spec_float) :
  finite_block T fblock ->
  (forall i, (i < bsize bs)%nat ->
     exponent T (fabs (fblock !!! i)) <= max_exponent T bs fblock) /\
  (exists i, (i < bsize bs)%nat /\
     max_exponent T bs fblock = exponent T (fabs (fblock !!! i))).
Proof using HT.
  intros Hp.
  pose proof HT as (Hpr' & HE' & Hb & Hbe & _).
  destruct (max_exponent_entries T HT bs fblock Hp) as [HEr Hent].
  cbv zeta in HEr, Hent.
  split.
  - intros i Hi. specialize (Hent i Hi).
    destruct (fblock !!! i) as [s | s | | s m e]; try contradiction.
    + unfold exponent. cbn [fabs SFabs SFltb SFcompare fzero].
      rewrite int32_small by lia. lia.
    + destruct Hent as (Hv & H1 & H2).
      destruct (valid_binary_bounds _ _ _ _ _ Hv) as [Hd HEb].
      unfold exponent, frexp_exp. cbn [fabs SFabs SFltb SFcompare fzero].
      rewrite SFfrexp_exponent by assumption.
      rewrite !int32_small by lia. lia.
  - pose proof (bsize_bounds bs) as HB.
    pose proof (max_val_spec T bs fblock Hp) as [_ Hz].
    cbv zeta in Hz. unfold max_exponent, for_range in *.
    destruct (fold_fmax_attained fblock (seq 0 (bsize bs)) fzero)
      as [E | (i & Hi & E)]; cbv zeta in E.
    + exists 0%nat. split; [lia|]. rewrite E.
      destruct (proj1 Hz E 0%nat ltac:(lia)) as [s ->]. reflexivity.
    + exists i. apply elem_of_seq in Hi. split; [lia|]. now rewrite E.
Qed.
End MaxExponent.

Lemma max_exponent_is_max_witness :
  exponent double_traits
    (fabs ([one_double; S754_zero true; one_double;
            S754_finite true 3 (-1074)] !!! 3%nat))
  <= max_exponent double_traits B4
       [one_double; S754_zero true; one_double; S754_finite true 3 (-1074)].
Proof.
  refine (proj1 (max_exponent_is_max double_traits double_traits_ok B4
                   [one_double; S754_zero true; one_double;
                    S754_finite true 3 (-1074)] _) 3%nat _).
  - repeat constructor.
  - cbn. lia.
Defined.

(* ================================================================= *)
(** ** The first bit of a slot *)

(** X30. The first bit of its slot tells whether a floating-point
    block was coded. For a block of finite numbers written into clear
    bits, the bit at the start of the slot is set exactly when some
    entry of the block is not a zero: an all-zero block leaves it
    clear, any other block puts there the low bit of [2 * e + 1]. *)
Theorem first_bit_marks_nonzero (bs : BlockSize) (T : ScalarTraits)
        (perm : list nat) (fblock : list spec_float) (st0 : Stream)
        (maxbits block_idx : Z) :
  traits_ok T -> finite_block T fblock ->
  0 <= block_idx -> 0 <= maxbits -> 0 <= get_ebits T < 64 ->
  block_idx * maxbits + (get_ebits T + 1 + 64 * 129) < 2 ^ 32 ->
  slot_clear st0 (block_idx * maxbits) (get_ebits T + 1 + 64 * 129) ->
  let w' := zfp_encode_block bs T perm fblock maxbits block_idx st0 in
  bit_at (m_stream w') (block_idx * maxbits) = true <->
  ~ (forall i, (i < bsize bs)%nat -> is_zero (fblock !!! i)).
Proof.
  intros HT Hp Hidx Hmax Hebits Hlen Hclear w'.
  destruct (block_e_facts T HT bs fblock Hp) as [Hz _].
  destruct (Z.eq_dec (block_e bs T fblock) 0) as [E0 | E0].
  - subst w'. rewrite zfp_encode_block_e0 by assumption.
    unfold new_BlockWriter. cbn [m_stream].
    rewrite Hclear by lia.
    split; [discriminate|]. intros H. exfalso. exact (H (proj1 Hz E0)).
  - pose proof (emit_block_length bs (traits_int T) perm
                  (block_maxprec bs T fblock)
                  (fwd_cast T bs fblock (max_exponent T bs fblock))) as Lc.
    pose proof (zfp_encode_block_writes bs T perm fblock st0 maxbits
                  block_idx _ Hidx Hmax Hebits Hclear Hlen E0 ltac:(lia))
      as W.
    fold w' in W. destruct W as (_ & _ & _ & _ & B). rewrite B.
    rewrite length_app, bits_of_length.
    destruct (Z.leb_spec (block_idx * maxbits) (block_idx * maxbits));
      [|lia].
    destruct (Z.ltb_spec (block_idx * maxbits)
                (block_idx * maxbits
                 + Z.of_nat (Z.to_nat (get_ebits T + 1)
                             + length (take (Z.to_nat
                                               (u32 (maxbits
                                                     - (get_ebits T + 1))))
                                         (emit_block bs (traits_int T) perm
                                            (block_maxprec bs T fblock)
                                            (fwd_cast T bs fblock
                                               (max_exponent T bs fblock)))))));
      [|lia].
    cbn [andb]. rewrite Z.sub_diag. change (Z.to_nat 0) with 0%nat.
    rewrite lookup_total_app_l by (rewrite bits_of_length; lia).
    rewrite bits_of_lookup by lia.
    unfold u32. rewrite Z.mod_pow2_bits_low by lia.
    rewrite Z.testbit_odd_0.
    split; [|reflexivity]. intros _ Hall. exact (E0 (proj2 Hz Hall)).
Qed.

Lemma first_bit_marks_nonzero_witness :
  bit_at
    (m_stream
       (zfp_encode_block B4 double_traits perm_1
          [S754_zero true; one_double; S754_zero false; S754_zero true]
          30 4 zero_stream))
    (4 * 30) = true <->
  ~ (forall i, (i < bsize B4)%nat ->
       is_zero ([S754_zero true; one_double; S754_zero false;
                 S754_zero true] !!! i)).
Proof.
  refine (first_bit_marks_nonzero B4 double_traits perm_1
            [S754_zero true; one_double; S754_zero false;
             S754_zero true] zero_stream 30 4 double_traits_ok _ _ _ _ _ _).
  - repeat constructor.
  - lia.
  - lia.
  - cbn. lia.
  - reflexivity.
  - apply zero_stream_clear.
Defined.
